(** * Ticket lifecycle and mini-game engine of the ticket bot

    A shallow embedding of the state-carrying parts of the bot: the
    fixed-window rate limiter of [utils.js], the ticket and user models
    (the SQL statements read as operations on finite maps keyed by the
    UNIQUE columns), the ticket handler's creation guard, and the game
    handler with its six variants, its session table and the Tic-Tac-Toe
    minimax search.

    Conventions.  A JavaScript [Map] is a [gmap]; an array updated by
    index is a list with stdpp's lookup and insert; [Date.now()] and
    [Math.random()] are explicit arguments (the clock as an integer of
    milliseconds, a random draw as a rational in the unit interval);
    a number stored in a REAL column is the IEEE 754 double the code
    computes, held as a primitive float. *)

From Stdlib Require Import ZArith QArith Qabs Qround Ascii String List Lia.
From Stdlib Require Import Floats.
From stdpp Require Import gmap strings list fin_maps.

Local Open Scope string_scope.
Local Open Scope Z_scope.

(** Splits a conjunction into its parts and leaves the parts alone. *)
Ltac split_conj :=
  repeat match goal with |- _ /\ _ => split end.

(** ** Utilities ([utils.js]) and configuration ([config.js]) *)

Module Utils.

(** One entry of a rate-limit map: [{ count, resetTime }]. *)
Record RateWindow := mkWindow { count : Z; resetTime : Z }.

(** A limits object such as [config.TICKET_RATE_LIMIT]. *)
Record Limits := mkLimits { WINDOW_MS : Z; MAX_REQUESTS : Z }.

Definition TICKET_RATE_LIMIT : Limits := mkLimits 60000 3.
Definition GAME_RATE_LIMIT : Limits := mkLimits 10000 5.

(** [checkRateLimit(rateLimitMap, key, limits)] with [Date.now()] passed
    in as [now].  The map is updated in place; the new map is returned
    next to the verdict. *)
Definition checkRateLimit (rateLimitMap : gmap string RateWindow) (key : string)
    (limits : Limits) (now : Z) : gmap string RateWindow * bool :=
  let userLimits :=
    match rateLimitMap !! key with
    | Some w => w
    | None => mkWindow 0 (now + WINDOW_MS limits)
    end in
  let userLimits' :=
    if resetTime userLimits <? now
    then mkWindow 1 (now + WINDOW_MS limits)
    else mkWindow (count userLimits + 1) (resetTime userLimits) in
  (<[key := userLimits']> rateLimitMap,
   count userLimits' <=? MAX_REQUESTS limits).

(** The window a call finds: the stored one, or the one the code makes
    up for an unknown key. *)
Definition storedWindow (m : gmap string RateWindow) (key : string)
    (limits : Limits) (now : Z) : RateWindow :=
  default (mkWindow 0 (now + WINDOW_MS limits)) (m !! key).

(** The map and the verdict of a call, apart. *)
Definition after (limits : Limits) (key : string) (now : Z)
    (m : gmap string RateWindow) : gmap string RateWindow :=
  fst (checkRateLimit m key limits now).

Definition allowed (limits : Limits) (key : string) (now : Z)
    (m : gmap string RateWindow) : bool :=
  snd (checkRateLimit m key limits now).

(** No window is running for [key] at [now]: the key is unknown, or its
    reset time has passed. *)
Definition noRunningWindow (m : gmap string RateWindow) (key : string) (now : Z)
  : Prop :=
  match m !! key with
  | None => True
  | Some w => resetTime w < now
  end.

(** String helpers standing for [startsWith], [endsWith] and
    [includes]. *)
Definition startsWith (s p : string) : bool := String.prefix p s.

Fixpoint includes (s p : string) : bool :=
  String.prefix p s ||
  match s with
  | EmptyString => false
  | String _ s' => includes s' p
  end.

Fixpoint endsWith (s p : string) : bool :=
  String.eqb s p ||
  match s with
  | EmptyString => false
  | String _ s' => endsWith s' p
  end.

(** [toLowerCase] and [toUpperCase] on the ASCII letters. *)
Definition lowerAscii (c : ascii) : ascii :=
  let n := nat_of_ascii c in
  if (65 <=? n)%nat && (n <=? 90)%nat then ascii_of_nat (n + 32) else c.

Fixpoint toLowerCase (s : string) : string :=
  match s with
  | EmptyString => EmptyString
  | String c r => String (lowerAscii c) (toLowerCase r)
  end.

Definition upperAscii (c : ascii) : ascii :=
  let n := nat_of_ascii c in
  if (97 <=? n)%nat && (n <=? 122)%nat then ascii_of_nat (n - 32) else c.

Fixpoint toUpperCase (s : string) : string :=
  match s with
  | EmptyString => EmptyString
  | String c r => String (upperAscii c) (toUpperCase r)
  end.

(** A guild channel as far as the existing-ticket lookup reads it: name,
    topic ([null] is [None]) and the permission overwrites, each an id
    with the names of the permissions it allows. *)
Record Channel := mkChannel {
  chId : string;
  chName : string;
  chTopic : option string;
  chOverwrites : list (string * list string)
}.

Definition truthy (s : string) : bool :=
  match s with EmptyString => false | _ => true end.

Definition byTopic (userId : string) (c : Channel) : bool :=
  match chTopic c with
  | Some t => truthy t && includes t ("(" +:+ userId +:+ ")")
  | None => false
  end.

Fixpoint overwriteOf (userId : string) (ows : list (string * list string))
  : option (list string) :=
  match ows with
  | [] => None
  | (i, allowed) :: r =>
      if String.eqb i userId then Some allowed else overwriteOf userId r
  end.

Definition byPermissions (userId : string) (c : Channel) : bool :=
  match overwriteOf userId (chOverwrites c) with
  | Some allowed => existsb (String.eqb "ViewChannel") allowed
  | None => false
  end.

Definition byName (userId : string) (c : Channel) : bool :=
  truthy (chName c) && startsWith (chName c) "ticket-" &&
  (endsWith (chName c) userId || String.eqb (chName c) ("ticket-" +:+ userId)).

(** [findExistingTicketByUser(userId, channels)]: topic first, then a
    member overwrite allowing [ViewChannel], then the channel name. *)
Definition findExistingTicketByUser (userId : string) (channels : list Channel)
  : option Channel :=
  match List.find (byTopic userId) channels with
  | Some c => Some c
  | None =>
      match List.find (byPermissions userId) channels with
      | Some c => Some c
      | None => List.find (byName userId) channels
      end
  end.

End Utils.

(** ** The relational store and the models over it *)

Module Models.

(** A row of [tickets]; [ticket_id] is UNIQUE and keys the table. *)
Record TicketRow := mkTicket {
  ticket_id : string;
  channel_id : string;
  user_id : string;
  username : string;
  type : string;
  priority : string;
  status : string;
  created_at : Z;
  claimed_by : option string;
  claimed_at : option Z;
  closed_by : option string;
  closed_at : option Z;
  close_reason : option string;
  transcript_path : option string;
  data : list (string * string)
}.

(** A row of [users], keyed by the UNIQUE [user_id]; [rating_average]
    is a REAL column and holds a double. *)
Record UserRow := mkUser {
  u_username : string;
  tickets_created : Z;
  tickets_closed : Z;
  games_played : Z;
  rating_average : float;
  rating_count : Z
}.

(** An INTEGER column read as a JavaScript number: the double nearest to
    the integer, which is the integer itself below [2^53]. *)
Definition numberOfInteger (c : Z) : float :=
  SF2Prim (binary_normalize prec emax c 0 false).

(** The rational a finite double stands for; [None] for an infinity and
    for NaN. *)
Definition numberValue (x : float) : option Q :=
  match Prim2SF x with
  | S754_zero _ => Some 0%Q
  | S754_finite s m e =>
      let v :=
        match e with
        | Zneg k => Z.pos m # Pos.shiftl 1 (Npos k)
        | _ => inject_Z (Z.pos m * 2 ^ e)
        end in
      Some (if s then Qopp v else v)
  | S754_infinity _ | S754_nan => None
  end.

(** The metadata blob of an analytics row, before serialisation. *)
Inductive Metadata :=
| MetaNone
| MetaTicket (type priority : string)
| MetaReason (reason : string)
| MetaGameStart (type : string) (difficulty : option string)
| MetaGameEnd (type result : string) (duration : Z).

(** A row of [analytics]; UNIQUE(date, metric) keys the table. *)
Record AnalyticsRow := mkAnalytics { value : Z; metadata : Metadata }.

Record Database := mkDb {
  tickets : gmap string TicketRow;
  users : gmap string UserRow;
  analytics : gmap (Z * string) AnalyticsRow
}.

Definition emptyDb : Database := mkDb ∅ ∅ ∅.

(** [new Date().toISOString().split('T')[0]]: the UTC day of the clock,
    as a day number. *)
Definition today (now : Z) : Z := now / 86400000.

(** [INSERT INTO analytics ... ON CONFLICT(date, metric) DO UPDATE SET
    value = value + ?], shared by [Analytics.logEvent] and
    [Ticket.logAnalytics]. *)
Definition logEvent (metric : string) (v : Z) (md : Metadata) (now : Z)
    (db : Database) : Database :=
  let k := (today now, metric) in
  let row :=
    match analytics db !! k with
    | Some r => mkAnalytics (value r + v) (metadata r)
    | None => mkAnalytics v md
    end in
  mkDb (tickets db) (users db) (<[k := row]> (analytics db)).

Definition setTickets (t : gmap string TicketRow) (db : Database) : Database :=
  mkDb t (users db) (analytics db).

Definition setUsers (u : gmap string UserRow) (db : Database) : Database :=
  mkDb (tickets db) u (analytics db).

(** A sample row in the given status. *)
Definition sampleTicket (st : string) : TicketRow :=
  mkTicket "ticket-7-abc123" "c1" "7" "ann" "support" "normal" st 0
    None None None None None None [].

Module Ticket.

(** [Ticket.create], as [createTicket] calls it: without a priority, so
    the default ['normal'] applies, and the status column takes its
    default ['open'].  [None] when the INSERT is rejected by the UNIQUE
    constraint on [ticket_id] (the promise rejects). *)
Definition create (ticketId channelId userId uname ty : string)
    (dat : list (string * string)) (now : Z) (db : Database) : option Database :=
  match tickets db !! ticketId with
  | Some _ => None
  | None =>
      let row := mkTicket ticketId channelId userId uname ty "normal" "open" now
                   None None None None None None dat in
      let db1 := setTickets (<[ticketId := row]> (tickets db)) db in
      let urow :=
        match users db1 !! userId with
        | Some u => mkUser (u_username u) (tickets_created u + 1) (tickets_closed u)
                      (games_played u) (rating_average u) (rating_count u)
        | None => mkUser uname 1 0 0 0%float 0
        end in
      let db2 := setUsers (<[userId := urow]> (users db1)) db1 in
      Some (logEvent "ticket_created" 1 (MetaTicket ty "normal") now db2)
  end.

(** [Ticket.claim]: the UPDATE is conditioned on [status = 'open']; the
    affected-row count decides the result. *)
Definition claim (ticketId staffId : string) (now : Z) (db : Database)
  : Database * bool :=
  match tickets db !! ticketId with
  | Some r =>
      if String.eqb (status r) "open" then
        let r' := mkTicket (ticket_id r) (channel_id r) (user_id r) (username r)
                    (type r) (priority r) "claimed" (created_at r)
                    (Some staffId) (Some now) (closed_by r) (closed_at r)
                    (close_reason r) (transcript_path r) (data r) in
        (logEvent "ticket_claimed" 1 MetaNone now
           (setTickets (<[ticketId := r']> (tickets db)) db), true)
      else (db, false)
  | None => (db, false)
  end.

(** [Ticket.close]: conditioned on [status IN ('open', 'claimed')]. *)
Definition close (ticketId staffId reason : string)
    (transcriptPath : option string) (now : Z) (db : Database)
  : Database * bool :=
  match tickets db !! ticketId with
  | Some r =>
      if String.eqb (status r) "open" || String.eqb (status r) "claimed" then
        let r' := mkTicket (ticket_id r) (channel_id r) (user_id r) (username r)
                    (type r) (priority r) "closed" (created_at r)
                    (claimed_by r) (claimed_at r) (Some staffId) (Some now)
                    (Some reason) transcriptPath (data r) in
        let db1 := setTickets (<[ticketId := r']> (tickets db)) db in
        let db2 :=
          match users db1 !! user_id r' with
          | Some u =>
              setUsers (<[user_id r' :=
                  mkUser (u_username u) (tickets_created u) (tickets_closed u + 1)
                    (games_played u) (rating_average u) (rating_count u)]>
                (users db1)) db1
          | None => db1
          end in
        (logEvent "ticket_closed" 1 (MetaReason reason) now db2, true)
      else (db, false)
  | None => (db, false)
  end.

End Ticket.

Module User.

(** What a call of a model method yields: a returned boolean, or a
    thrown [Error]. *)
Inductive Outcome := Returned (b : bool) | Threw (msg : string).

(** [User.updateStats(userId, { gamesPlayed: n })] *)
Definition updateGamesPlayed (userId : string) (n : Z) (db : Database)
  : Database * bool :=
  match users db !! userId with
  | Some u =>
      (setUsers (<[userId :=
          mkUser (u_username u) (tickets_created u) (tickets_closed u)
            (games_played u + n) (rating_average u) (rating_count u)]>
        (users db)) db, true)
  | None => (db, false)
  end.

(** [User.addRating(userId, rating)].  The rating is a JavaScript
    number, the two comparisons and the average are computed in doubles
    (a NaN passes both comparisons, a count of -1 divides by zero).  The
    count is an integer of the store; its sum with 1 is taken as the
    integer it is for every count below [2^53], where doubles hold
    integers exactly. *)
Definition addRating (userId : string) (rating : float) (db : Database)
  : Database * Outcome :=
  if (rating <? 1)%float || (5 <? rating)%float
  then (db, Threw "Rating must be between 1 and 5")
  else
    match users db !! userId with
    | None => (db, Returned false)
    | Some u =>
        let newCount := rating_count u + 1 in
        let newAverage :=
          ((rating_average u * numberOfInteger (rating_count u) + rating)
             / numberOfInteger newCount)%float in
        (setUsers (<[userId :=
            mkUser (u_username u) (tickets_created u) (tickets_closed u)
              (games_played u) newAverage newCount]> (users db)) db,
         Returned true)
    end.

End User.

End Models.

(** ** The ticket handler: type selection and ticket creation *)

Module TicketHandler.

Import Utils Models.

(** The replies the two creation handlers can send. *)
Inductive Reply :=
| TooQuickly
| AlreadyOpen (existing : Channel)
| ShowModal (customId : option string)
| MustAcceptTerms
| NoTicketData
| NeedManageChannels
| CategoryUnavailable
| ChannelCreateFailed
| FailedToCreate
| TicketCreated (channelId : string).

(** The handler's state: the guild's channel cache in insertion order,
    the store, and the handler's own [rateLimits] map. *)
Record World := mkWorld {
  channels : list Channel;
  db : Database;
  rateLimits : gmap string RateWindow
}.

Definition emptyWorld : World := mkWorld [] emptyDb ∅.

(** The [customId] of the modal [createTicketModal] builds; an unknown
    type leaves [modal] undefined. *)
Definition createTicketModal (ticketType : string) : option string :=
  if String.eqb ticketType "purchase_help" then Some "buy_tool_modal"
  else if String.eqb ticketType "idea" then Some "idea_modal"
  else if String.eqb ticketType "support" then Some "support_modal"
  else if String.eqb ticketType "partnership" then Some "partnership_modal"
  else if String.eqb ticketType "partisanship" then Some "partisanship_modal"
  else None.

(** [handleTicketTypeSelect]: the rate limit, then the existing-ticket
    lookup over the guild's channels, then the modal. *)
Definition handleTicketTypeSelect (userId ticketType : string) (now : Z)
    (w : World) : World * Reply :=
  let '(rl, ok) := checkRateLimit (rateLimits w) userId TICKET_RATE_LIMIT now in
  let w1 := mkWorld (channels w) (db w) rl in
  if negb ok then (w1, TooQuickly)
  else
    match findExistingTicketByUser userId (channels w1) with
    | Some existing => (w1, AlreadyOpen existing)
    | None => (w1, ShowModal (createTicketModal ticketType))
    end.

(** [value || 'None provided'] *)
Definition orNone (v : string) : string :=
  if truthy v then v else "None provided".

Record TicketData := mkData { td_type : string; td_data : list (string * string) }.

(** The five [process...Modal] functions behind the [switch] of
    [handleTicketModal]; [fields] is [interaction.fields.getTextInputValue].
    The outer [None] is an unmatched [customId], the inner one the
    refused terms of the purchase form. *)
Definition processModal (customId : string) (fields : string -> string)
  : option (option TicketData) :=
  if String.eqb customId "buy_tool_modal" then
    if String.eqb (toLowerCase (fields "rules_accept")) "yes" then
      Some (Some (mkData "buy-tool"
        [("toolName", fields "tool_name");
         ("paymentMethod", fields "payment_method");
         ("priority", fields "priority");
         ("additionalInfo", orNone (fields "additional_info"))]))
    else Some None
  else if String.eqb customId "idea_modal" then
    Some (Some (mkData "idea"
      [("ideaCategory", fields "idea_category");
       ("priority", fields "priority");
       ("ideaDescription", fields "idea_description")]))
  else if String.eqb customId "support_modal" then
    Some (Some (mkData "support"
      [("problemDescription", fields "problem_description");
       ("priority", fields "priority");
       ("stepsTaken", orNone (fields "steps_taken"))]))
  else if String.eqb customId "partnership_modal" then
    Some (Some (mkData "partnership"
      [("companyName", fields "company_name");
       ("priority", fields "priority");
       ("partnershipProposal", fields "partnership_proposal");
       ("contactInfo", fields "contact_info");
       ("companyExperience", fields "company_experience")]))
  else if String.eqb customId "partisanship_modal" then
    Some (Some (mkData "partisanship"
      [("partisanshipIssue", fields "partisanship_issue");
       ("priority", fields "priority");
       ("partisanshipEvidence", orNone (fields "partisanship_evidence"));
       ("partisanshipAction", fields "partisanship_action")]))
  else None.

(** What the platform answers during one [createTicket]: whether the bot
    may manage channels, whether the configured category resolves, the id
    of a fallback category and of the new channel ([None] when the
    creation is refused), and the random suffix drawn for the id. *)
Record CreateEnv := mkEnv {
  guildId : string;
  staffRoles : list string;
  botCanManageChannels : bool;
  categoryFound : bool;
  fallbackCategoryId : option string;
  newChannelId : option string;
  randomSuffix : string
}.

Definition ticketPerms : list string :=
  ["ViewChannel"; "SendMessages"; "ReadMessageHistory"].

(** [createTicket]: no lookup of an existing ticket happens here. *)
Definition createTicket (userId uname userTag : string) (td : TicketData)
    (env : CreateEnv) (now : Z) (w : World) : World * Reply :=
  let ticketId := "ticket-" +:+ userId +:+ "-" +:+ randomSuffix env in
  let channelName := String.substring 0 100 ticketId in
  if negb (botCanManageChannels env) then (w, NeedManageChannels)
  else
    let withCategory : option World :=
      if categoryFound env then Some w
      else
        match fallbackCategoryId env with
        | Some cid =>
            Some (mkWorld
                    (channels w ++ [mkChannel cid "tickets" None [(guildId env, [])]])
                    (db w) (rateLimits w))
        | None => None
        end in
    match withCategory with
    | None => (w, CategoryUnavailable)
    | Some w1 =>
        match newChannelId env with
        | None => (w1, ChannelCreateFailed)
        | Some chid =>
            let overwrites :=
              (guildId env, []) :: (userId, ticketPerms)
              :: map (fun roleId => (roleId, ticketPerms)) (staffRoles env) in
            let ch := mkChannel chid channelName
                        (Some ("Ticket opened by " +:+ userTag +:+ " (" +:+ userId +:+ ")"))
                        overwrites in
            let w2 := mkWorld (channels w1 ++ [ch]) (db w1) (rateLimits w1) in
            match Ticket.create ticketId chid userId uname (td_type td) (td_data td)
                    now (db w2) with
            | None => (w2, FailedToCreate)
            | Some db' => (mkWorld (channels w2) db' (rateLimits w2), TicketCreated chid)
            end
        end
    end.

(** [handleTicketModal] *)
Definition handleTicketModal (userId uname userTag customId : string)
    (fields : string -> string) (env : CreateEnv) (now : Z) (w : World)
  : World * Reply :=
  match processModal customId fields with
  | Some (Some td) => createTicket userId uname userTag td env now w
  | Some None => (w, MustAcceptTerms)
  | None => (w, NoTicketData)
  end.

(** Sample inputs: the fields of a support form and the platform's
    answers to one creation. *)
Definition supportFields (k : string) : string :=
  if String.eqb k "problem_description" then "printer jam"
  else if String.eqb k "priority" then "normal"
  else "".

Definition envFor (suffix channelId : string) : CreateEnv :=
  mkEnv "g1" ["r1"] true true None (Some channelId) suffix.

(** The tickets of [userId] that are open or claimed. *)
Definition liveTicketsOf (userId : string) (d : Database) : list TicketRow :=
  filter (fun r => user_id r = userId /\ (status r = "open" \/ status r = "claimed"))
         (map snd (map_to_list (tickets d))).

End TicketHandler.

(** ** Tic-Tac-Toe *)

Module TicTacToe.

(** The two marks a cell can hold; an empty cell is JavaScript's [null],
    here [None]. *)
Inductive Sym := X | O.

#[export] Instance Sym_eq_dec : EqDecision Sym.
Proof. solve_decision. Defined.

Abbreviation Cell := (option Sym).
Abbreviation Board := (list Cell).

(** What [checkTicTacToeWinner] returns: a mark, the string ['tie'], or
    [null]. *)
Inductive Winner := Won (s : Sym) | Tie | NoWinner.

#[export] Instance Winner_eq_dec : EqDecision Winner.
Proof. solve_decision. Defined.

(** [board[i]], with [undefined] read as an empty (falsy) cell. *)
Definition cell (board : Board) (i : nat) : Cell :=
  match board !! i with Some c => c | None => None end.

Definition winPatterns : list (nat * nat * nat) :=
  [ (0, 1, 2); (3, 4, 5); (6, 7, 8);
    (0, 3, 6); (1, 4, 7); (2, 5, 8);
    (0, 4, 8); (2, 4, 6) ]%nat.

(** The [for (const pattern of winPatterns)] loop: the first pattern
    whose three cells hold the same mark decides. *)
Fixpoint firstLine (board : Board) (ps : list (nat * nat * nat)) : option Sym :=
  match ps with
  | [] => None
  | (a, b, c) :: ps' =>
      match cell board a with
      | Some s =>
          if bool_decide (cell board a = cell board b)
             && bool_decide (cell board a = cell board c)
          then Some s
          else firstLine board ps'
      | None => firstLine board ps'
      end
  end.

(** [board.every(cell => cell !== null)] *)
Definition boardFull (board : Board) : bool :=
  forallb (fun c => match c with Some _ => true | None => false end) board.

Definition checkTicTacToeWinner (board : Board) : Winner :=
  match firstLine board winPatterns with
  | Some s => Won s
  | None => if boardFull board then Tie else NoWinner
  end.

(** [board.map((cell, index) => cell === null ? index : null)
          .filter(index => index !== null)] *)
Fixpoint availableFrom (i : nat) (board : Board) : list nat :=
  match board with
  | [] => []
  | None :: r => i :: availableFrom (S i) r
  | Some _ :: r => availableFrom (S i) r
  end.

Definition availableMoves (board : Board) : list nat := availableFrom 0 board.

(** The objects the search passes around: [{ score }] at a leaf,
    [{ index, score }] for a move. *)
Record Move := mkMove { index : option nat; score : Z }.

(** The two selection loops of [minimax]; [best] is [bestMove], which
    starts out [undefined]. *)
Fixpoint pickMax (moves : list Move) (bestScore : Z) (best : option Move) : option Move :=
  match moves with
  | [] => best
  | m :: r =>
      if bestScore <? score m then pickMax r (score m) (Some m)
      else pickMax r bestScore best
  end.

Fixpoint pickMin (moves : list Move) (bestScore : Z) (best : option Move) : option Move :=
  match moves with
  | [] => best
  | m :: r =>
      if score m <? bestScore then pickMin r (score m) (Some m)
      else pickMin r bestScore best
  end.

(** Collects the [moves] array; a child that yields no object makes
    [result.score] throw, which aborts the whole search. *)
Fixpoint collect (rs : list (nat * option Move)) : option (list Move) :=
  match rs with
  | [] => Some []
  | (i, Some r) :: rest =>
      match collect rest with
      | Some ms => Some (mkMove (Some i) (score r) :: ms)
      | None => None
      end
  | (_, None) :: _ => None
  end.

(** [minimax(board, player, opponent, aiPlayer)].  The recursion depth is
    bounded by the number of empty cells; [fuel] makes that bound
    structural.  [None] stands for a search that produced no move object
    (fuel exhausted, or [bestMove] left [undefined]). *)
Fixpoint minimax (fuel : nat) (board : Board) (player opponent aiPlayer : Sym)
  : option Move :=
  match fuel with
  | 0%nat => None
  | S fuel' =>
      let winner := checkTicTacToeWinner board in
      if bool_decide (winner = Won player) then Some (mkMove None 10)
      else if bool_decide (winner = Won opponent) then Some (mkMove None (-10))
      else if bool_decide (winner = Tie) then Some (mkMove None 0)
      else
        match collect (map (fun move =>
                 (move, minimax fuel' (<[move := Some player]> board)
                                opponent player aiPlayer))
               (availableMoves board)) with
        | None => None
        | Some moves =>
            if bool_decide (player = aiPlayer)
            then pickMax moves (-10000) None
            else pickMin moves 10000 None
        end
  end.

Definition emptyBoard : Board := replicate 9 None.

(** The scores the search can return. *)
Definition boundedScore (m : Move) : Prop := -10 <= score m <= 10.

(** The number of empty cells, which bounds the depth of the search. *)
Definition emptyCount (board : Board) : nat := length (availableMoves board).


End TicTacToe.

(** ** The game handler *)

Module GameHandler.

Import Utils Models TicTacToe.

Inductive GameType := tictactoe | math | guess | rps | trivia | hangman.

#[export] Instance GameType_eq_dec : EqDecision GameType.
Proof. solve_decision. Defined.

Definition typeName (t : GameType) : string :=
  match t with
  | tictactoe => "tictactoe" | math => "math" | guess => "guess"
  | rps => "rps" | trivia => "trivia" | hangman => "hangman"
  end.

(** The [switch (gameType)] of [handleGameSelect]; a value matching no
    [case] starts nothing. *)
Definition parseGameType (s : string) : option GameType :=
  if String.eqb s "tictactoe" then Some tictactoe
  else if String.eqb s "math" then Some math
  else if String.eqb s "guess" then Some guess
  else if String.eqb s "rps" then Some rps
  else if String.eqb s "trivia" then Some trivia
  else if String.eqb s "hangman" then Some hangman
  else None.

(** A game id is the template string [type_userId_timestamp]; its three
    parts are kept apart. *)
Definition GameId : Type := GameType * string * Z.

#[export] Instance GameId_eq_dec : EqDecision GameId.
Proof. solve_decision. Defined.

Inductive Difficulty := easy | normal | hard.

#[export] Instance Difficulty_eq_dec : EqDecision Difficulty.
Proof. solve_decision. Defined.

Definition difficultyName (d : Difficulty) : string :=
  match d with easy => "easy" | normal => "normal" | hard => "hard" end.

Inductive Result := RWin | RLose | RTie | RTimeout.

#[export] Instance Result_eq_dec : EqDecision Result.
Proof. solve_decision. Defined.

Definition resultName (r : Result) : string :=
  match r with
  | RWin => "win" | RLose => "lose" | RTie => "tie" | RTimeout => "timeout"
  end.

(** *** Configuration *)

Record MathDifficulty := mkMathDiff { range : Z; includeMultiplication : bool }.

(** [config.GAMES.MATH.DIFFICULTIES]; an absent [includeMultiplication]
    is falsy. *)
Definition MATH_DIFFICULTIES (d : Difficulty) : MathDifficulty :=
  match d with
  | easy => mkMathDiff 10 false
  | normal => mkMathDiff 50 false
  | hard => mkMathDiff 100 true
  end.

Definition GUESSING_MIN : Z := 1.
Definition GUESSING_MAX : Z := 100.
Definition GUESSING_MAX_ATTEMPTS : Z := 7.
Definition HANGMAN_MAX_WRONG_GUESSES : Z := 6.
Definition RPS_CHOICES : list string := ["rock"; "paper"; "scissors"].

(** *** Random draws *)

(** [Math.floor(Math.random() * n)] for a draw [r]. *)
Definition randomIndex (r : Q) (n : Z) : Z := Qfloor (r * inject_Z n).

(** [xs[Math.floor(Math.random() * xs.length)]]; draws lie in the unit
    interval, where the index is in range, and [d] is never returned. *)
Definition pick {A} (d : A) (xs : list A) (r : Q) : A :=
  nth (Z.to_nat (randomIndex r (Z.of_nat (length xs)))) xs d.

(** *** Game states *)

Inductive Op := Add | Sub | Mul.

#[export] Instance Op_eq_dec : EqDecision Op.
Proof. solve_decision. Defined.

(** The question string [num1 operation num2], kept in parts. *)
Record MathQuestion := mkQuestion { num1 : Z; operation : Op; num2 : Z }.

Record TriviaQuestion := mkTrivia {
  tq_question : string;
  tq_options : list string;
  tq_correctAnswer : Z
}.

(** The variant-specific fields of a [gameState] object. *)
Inductive Payload :=
| TicTacToeP (board : Board) (currentPlayer aiPlayer : Sym)
    (difficulty : Difficulty) (winner : option Winner)
| MathP (difficulty : Difficulty) (question : MathQuestion) (answer : Z)
    (attempts maxAttempts : Z)
| GuessP (number attempts maxAttempts : Z) (guesses : list Z)
| RpsP
| TriviaP (question : TriviaQuestion) (attempts maxAttempts : Z)
| HangmanP (word : string) (guessed : list string)
    (wrongGuesses maxWrongGuesses : Z) (display : string).

(** The fields every [gameState] has.  [timeout] is the handle returned
    by [setTimeout], identified with the id the callback will end. *)
Record GameState := mkGame {
  id : GameId;
  userId : string;
  startedAt : Z;
  timeout : option GameId;
  endedAt : option Z;
  result : option Result;
  payload : Payload
}.

(** The [type] field. *)
Definition gameType (g : GameState) : GameType :=
  match payload g with
  | TicTacToeP _ _ _ _ _ => tictactoe
  | MathP _ _ _ _ _ => math
  | GuessP _ _ _ _ => guess
  | RpsP => rps
  | TriviaP _ _ _ => trivia
  | HangmanP _ _ _ _ _ => hangman
  end.

Definition setPayload (p : Payload) (g : GameState) : GameState :=
  mkGame (id g) (userId g) (startedAt g) (timeout g) (endedAt g) (result g) p.

(** [gameState.result = r; gameState.endedAt = Date.now()] *)
Definition setEnded (r : option Result) (now : Z) (g : GameState) : GameState :=
  mkGame (id g) (userId g) (startedAt g) (timeout g) (Some now) r (payload g).

(** The module-level [activeGames] and [rateLimits] maps, the pending
    [setTimeout] callbacks, and the store. *)
Record World := mkWorld {
  activeGames : gmap string GameState;
  rateLimits : gmap string RateWindow;
  timers : list GameId;
  db : Database
}.

Definition emptyWorld : World := mkWorld ∅ ∅ [] emptyDb.

Definition setGames (m : gmap string GameState) (w : World) : World :=
  mkWorld m (rateLimits w) (timers w) (db w).

Definition setDb (d : Database) (w : World) : World :=
  mkWorld (activeGames w) (rateLimits w) (timers w) d.

(** What a handler sends back. *)
Inductive Reply :=
| PlayingTooQuickly
| AlreadyActiveGame
| NoReply
| GameStarted (g : GameState)
| NoActiveGameFound (t : GameType)
| SpaceTaken
| BoardShown (g : GameState)
| RpsShown (r : Result)
| TriviaShown (r : Result)
| EnterSingleLetter
| AlreadyGuessedLetter
| HangmanShown (g : GameState) (ended : option Result)
| EnterValidNumber
| MathCorrect
| MathGameOver
| MathTryAgain (attemptsLeft : Z)
| GuessOutOfRange
| GuessCorrect
| GuessGameOver
| GuessHint (higher : bool) (attemptsLeft : Z)
| TimedOutNotice.

(** *** Ending a game *)

(** [endGame(gameState, result)]: clears the timeout if the state holds
    one, adds one to the user's [games_played], logs [game_ended].  The
    session table is not touched here. *)
Definition endGame (g : GameState) (r : Result) (now : Z) (w : World) : World :=
  let timers' :=
    match timeout g with
    | Some h => filter (fun t => t <> h) (timers w)
    | None => timers w
    end in
  let db1 := fst (User.updateGamesPlayed (userId g) 1 (db w)) in
  let db2 := logEvent "game_ended" 1
               (MetaGameEnd (typeName (gameType g)) (resultName r) (now - startedAt g))
               now db1 in
  mkWorld (activeGames w) (rateLimits w) timers' db2.

(** [endGameByTimeout(gameId)], run when the timer fires: the first
    entry whose state has that id is ended and deleted. *)
Definition endGameByTimeout (gameId : GameId) (now : Z) (w : World) : World * Reply :=
  match List.find (fun kv => bool_decide (id (snd kv) = gameId))
          (map_to_list (activeGames w)) with
  | Some (k, g) =>
      let w1 := endGame g RTimeout now w in
      (setGames (delete k (activeGames w1)) w1, TimedOutNotice)
  | None => (w, NoReply)
  end.

(** A pending timer fires: it leaves the pending set and its callback
    runs. *)
Definition fireTimer (gameId : GameId) (now : Z) (w : World) : World * Reply :=
  if bool_decide (gameId ∈ timers w) then
    endGameByTimeout gameId now
      (mkWorld (activeGames w) (rateLimits w)
               (filter (fun t => t <> gameId) (timers w)) (db w))
  else (w, NoReply).

(** *** Starting games *)

Definition logStart (t : GameType) (d : option Difficulty) (now : Z) (w : World) : World :=
  setDb (logEvent "game_started" 1
           (MetaGameStart (typeName t) (option_map difficultyName d)) now (db w)) w.

(** [activeGames.set(interaction.user.id, gameState)], the registration
    of the timer when the state carries one, the reply and the
    [game_started] event. *)
Definition register (user : string) (g : GameState) (d : option Difficulty)
    (now : Z) (w : World) : World * Reply :=
  let timers' :=
    match timeout g with Some h => (timers w ++ [h])%list | None => timers w end in
  (logStart (gameType g) d now
     (mkWorld (<[user := g]> (activeGames w)) (rateLimits w) timers' (db w)),
   GameStarted g).

Definition startTicTacToe (user : string) (now : Z) (w : World) : World * Reply :=
  register user
    (mkGame (tictactoe, user, now) user now None None None
       (TicTacToeP emptyBoard X O normal None))
    None now w.

(** [generateMathQuestion(difficulty)] with its three draws. *)
Definition generateMathQuestion (difficulty : Difficulty) (r1 r2 r3 : Q)
  : MathQuestion :=
  let diffConfig := MATH_DIFFICULTIES difficulty in
  let operations :=
    ([Add; Sub; Mul] ++ (if includeMultiplication diffConfig then [Mul] else []))%list in
  let operation := pick Add operations r1 in
  let num1 := randomIndex r2 (range diffConfig) + 1 in
  let num2 := randomIndex r3 (range diffConfig) + 1 in
  mkQuestion num1 operation num2.

(** [calculateMathAnswer(question)]: [eval] of [num1 op num2]. *)
Definition calculateMathAnswer (q : MathQuestion) : Z :=
  match operation q with
  | Add => num1 q + num2 q
  | Sub => num1 q - num2 q
  | Mul => num1 q * num2 q
  end.

Definition startMathGame (user : string) (now : Z) (rs : nat -> Q) (w : World)
  : World * Reply :=
  let difficulty := pick easy [easy; normal; hard] (rs 0%nat) in
  let gameId : GameId := (math, user, now) in
  let question := generateMathQuestion difficulty (rs 1%nat) (rs 2%nat) (rs 3%nat) in
  register user
    (mkGame gameId user now (Some gameId) None None
       (MathP difficulty question (calculateMathAnswer question) 0 1))
    (Some difficulty) now w.

Definition startNumberGuess (user : string) (now : Z) (rs : nat -> Q) (w : World)
  : World * Reply :=
  let gameId : GameId := (guess, user, now) in
  let number :=
    randomIndex (rs 0%nat) (GUESSING_MAX - GUESSING_MIN + 1) + GUESSING_MIN in
  register user
    (mkGame gameId user now (Some gameId) None None
       (GuessP number 0 GUESSING_MAX_ATTEMPTS []))
    None now w.

Definition startRockPaperScissors (user : string) (now : Z) (w : World)
  : World * Reply :=
  register user (mkGame (rps, user, now) user now None None None RpsP) None now w.

Definition getTriviaQuestions : list TriviaQuestion :=
  [ mkTrivia "What is the capital of France?"
      ["London"; "Berlin"; "Paris"; "Madrid"] 2;
    mkTrivia "Which planet is known as the Red Planet?"
      ["Venus"; "Mars"; "Jupiter"; "Saturn"] 1;
    mkTrivia "What is 2 + 2 x 3?" ["12"; "8"; "10"; "6"] 1;
    mkTrivia "Who painted the Mona Lisa?"
      ["Van Gogh"; "Da Vinci"; "Picasso"; "Rembrandt"] 1;
    mkTrivia "What is the largest ocean on Earth?"
      ["Atlantic"; "Indian"; "Arctic"; "Pacific"] 3 ].

Definition startTrivia (user : string) (now : Z) (rs : nat -> Q) (w : World)
  : World * Reply :=
  let question := pick (mkTrivia "" [] 0) getTriviaQuestions (rs 0%nat) in
  let gameId : GameId := (trivia, user, now) in
  register user
    (mkGame gameId user now (Some gameId) None None (TriviaP question 0 1))
    None now w.

Definition hangmanWords : list string :=
  ["javascript"; "python"; "discord"; "computer"; "programming";
   "algorithm"; "database"; "network"; "security"; "internet"].

(** ['_'.repeat(n)] *)
Fixpoint underscores (n : nat) : string :=
  match n with
  | 0%nat => EmptyString
  | S k => String "_"%char (underscores k)
  end.

Definition startHangman (user : string) (now : Z) (rs : nat -> Q) (w : World)
  : World * Reply :=
  let word := pick "" hangmanWords (rs 0%nat) in
  let gameId : GameId := (hangman, user, now) in
  register user
    (mkGame gameId user now (Some gameId) None None
       (HangmanP word [] 0 HANGMAN_MAX_WRONG_GUESSES
          (underscores (String.length word))))
    None now w.

(** [handleGameSelect]: the rate limit, then the one-session check, then
    the [switch] over the six variants. *)
Definition handleGameSelect (user gameTypeValue : string) (now : Z)
    (rs : nat -> Q) (w : World) : World * Reply :=
  let '(rl, ok) := checkRateLimit (rateLimits w) user GAME_RATE_LIMIT now in
  let w1 := mkWorld (activeGames w) rl (timers w) (db w) in
  if negb ok then (w1, PlayingTooQuickly)
  else
    match activeGames w1 !! user with
    | Some _ => (w1, AlreadyActiveGame)
    | None =>
        match parseGameType gameTypeValue with
        | Some tictactoe => startTicTacToe user now w1
        | Some math => startMathGame user now rs w1
        | Some guess => startNumberGuess user now rs w1
        | Some rps => startRockPaperScissors user now w1
        | Some trivia => startTrivia user now rs w1
        | Some hangman => startHangman user now rs w1
        | None => (w1, NoReply)
        end
    end.

(** *** Tic-Tac-Toe moves *)

(** [getTicTacToeAIMove(gameState)]: [r1] is the draw of the
    [Math.random() < 0.3] test, [r2] the draw that picks a random cell.
    [None] is [undefined]. *)
Definition getTicTacToeAIMove (board : Board) (currentPlayer aiPlayer : Sym)
    (difficulty : Difficulty) (r1 r2 : Q) : option nat :=
  let randomMove :=
    let availableMoves := availableMoves board in
    availableMoves !! Z.to_nat (randomIndex r2 (Z.of_nat (length availableMoves))) in
  let best :=
    match minimax 10 board aiPlayer currentPlayer aiPlayer with
    | Some m => index m
    | None => None
    end in
  match difficulty with
  | easy => randomMove
  | normal => if Qlt_le_dec r1 (3 # 10) then randomMove else best
  | hard => best
  end.

(** The board part of [handleTicTacToeMove], once the chosen cell is
    known to be empty: the player's mark, the win check, the AI's reply
    and the second win check. *)
Definition playTicTacToe (board : Board) (currentPlayer aiPlayer : Sym)
    (difficulty : Difficulty) (moveIndex : nat) (r1 r2 : Q) : Board * Winner :=
  let board1 := <[moveIndex := Some currentPlayer]> board in
  let winner1 := checkTicTacToeWinner board1 in
  let '(board2, winner2) :=
    match winner1 with
    | NoWinner =>
        match getTicTacToeAIMove board1 currentPlayer aiPlayer difficulty r1 r2 with
        | Some aiMove =>
            let b := <[aiMove := Some aiPlayer]> board1 in
            (b, checkTicTacToeWinner b)
        | None => (board1, checkTicTacToeWinner board1)
        end
    | _ => (board1, winner1)
    end in
  let winner3 :=
    match winner2 with
    | NoWinner => if boardFull board2 then Tie else NoWinner
    | _ => winner2
    end in
  (board2, winner3).

(** [winner === 'tie' ? 'tie' : (winner === currentPlayer ? 'win' : 'lose')] *)
Definition tttResult (winner : Winner) (currentPlayer : Sym) : option Result :=
  match winner with
  | NoWinner => None
  | Tie => Some RTie
  | Won s => Some (if bool_decide (s = currentPlayer) then RWin else RLose)
  end.

(** [handleTicTacToeMove].  The state object is changed in place, so the
    entry of [activeGames] shows every change; on a decided game
    [endGame] runs and nothing more. *)
Definition handleTicTacToeMove (user : string) (moveIndex : nat) (now : Z)
    (rs : nat -> Q) (w : World) : World * Reply :=
  match activeGames w !! user with
  | Some g =>
      match payload g with
      | TicTacToeP board currentPlayer aiPlayer difficulty winner0 =>
          match board !! moveIndex with
          | Some None =>
              let '(board', winner) :=
                playTicTacToe board currentPlayer aiPlayer difficulty moveIndex
                  (rs 0%nat) (rs 1%nat) in
              match tttResult winner currentPlayer with
              | Some r =>
                  let g' :=
                    mkGame (id g) (userId g) (startedAt g) (timeout g) (Some now)
                      (result g)
                      (TicTacToeP board' currentPlayer aiPlayer difficulty (Some winner)) in
                  let w1 := setGames (<[user := g']> (activeGames w)) w in
                  (endGame g' r now w1, BoardShown g')
              | None =>
                  let g' :=
                    setPayload (TicTacToeP board' currentPlayer aiPlayer difficulty winner0) g in
                  (setGames (<[user := g']> (activeGames w)) w, BoardShown g')
              end
          | _ => (w, SpaceTaken)
          end
      | _ => (w, NoActiveGameFound tictactoe)
      end
  | None => (w, NoActiveGameFound tictactoe)
  end.

(** *** Rock-Paper-Scissors and Trivia *)

Definition winConditions (choice : string) : option string :=
  if String.eqb choice "rock" then Some "scissors"
  else if String.eqb choice "paper" then Some "rock"
  else if String.eqb choice "scissors" then Some "paper"
  else None.

Definition getRPSResult (userChoice aiChoice : string) : Result :=
  if String.eqb userChoice aiChoice then RTie
  else if bool_decide (winConditions userChoice = Some aiChoice) then RWin
  else RLose.

(** The common tail of the single-round handlers and of a decided
    Hangman, Math or Guessing game: the state is marked, [endGame] runs,
    and [activeGames.delete(user)] follows.  The three are taken as one
    step, as they run when no other handler is resumed at the [await]s
    between them. *)
Definition finish (user : string) (g : GameState) (r : Result) (now : Z)
    (w : World) : World :=
  let g' := setEnded (Some r) now g in
  let w1 := endGame g' r now (setGames (<[user := g']> (activeGames w)) w) in
  setGames (delete user (activeGames w1)) w1.

Definition handleRockPaperScissors (user userChoice : string) (now : Z)
    (rs : nat -> Q) (w : World) : World * Reply :=
  match activeGames w !! user with
  | Some g =>
      match payload g with
      | RpsP =>
          let aiChoice := pick "" RPS_CHOICES (rs 0%nat) in
          let r := getRPSResult userChoice aiChoice in
          (finish user g r now w, RpsShown r)
      | _ => (w, NoActiveGameFound rps)
      end
  | None => (w, NoActiveGameFound rps)
  end.

(** [answerIndex] is the value of [parseInt]; [None] is [NaN]. *)
Definition handleTrivia (user : string) (answerIndex : option Z) (now : Z)
    (w : World) : World * Reply :=
  match activeGames w !! user with
  | Some g =>
      match payload g with
      | TriviaP question _ _ =>
          let isCorrect := bool_decide (answerIndex = Some (tq_correctAnswer question)) in
          let r := if isCorrect then RWin else RLose in
          (finish user g r now w, TriviaShown r)
      | _ => (w, NoActiveGameFound trivia)
      end
  | None => (w, NoActiveGameFound trivia)
  end.

(** *** Hangman *)

(** [/^[a-z]$/.test(letter)] *)
Definition isLowerLetter (s : string) : bool :=
  match s with
  | String c EmptyString =>
      let n := nat_of_ascii c in (97 <=? n)%nat && (n <=? 122)%nat
  | _ => false
  end.

(** [guessed.includes(x)] *)
Definition guessedIncludes (guessed : list string) (x : string) : bool :=
  existsb (String.eqb x) guessed.

(** The loop that rebuilds [display] from the guessed letters. *)
Fixpoint reveal (word : string) (guessed : list string) : string :=
  match word with
  | EmptyString => EmptyString
  | String c r =>
      String (if guessedIncludes guessed (String c EmptyString) then c else "_"%char)
             (reveal r guessed)
  end.

(** [handleHangmanGuessModal]; [raw] is the text of the [letter] field. *)
Definition handleHangmanGuessModal (user raw : string) (now : Z) (w : World)
  : World * Reply :=
  let letter := toLowerCase raw in
  if negb (isLowerLetter letter) then (w, EnterSingleLetter)
  else
    match activeGames w !! user with
    | Some g =>
        match payload g with
        | HangmanP word guessed wrongGuesses maxWrongGuesses display =>
            if guessedIncludes guessed letter then (w, AlreadyGuessedLetter)
            else
              let guessed' := (guessed ++ [letter])%list in
              let '(display', wrong') :=
                if includes word letter
                then (reveal word guessed', wrongGuesses)
                else (display, wrongGuesses + 1) in
              let ended :=
                if String.eqb display' word then Some RWin
                else if maxWrongGuesses <=? wrong' then Some RLose
                else None in
              let g' := setPayload (HangmanP word guessed' wrong' maxWrongGuesses display') g in
              match ended with
              | Some r => (finish user g' r now w, HangmanShown g' (Some r))
              | None =>
                  (setGames (<[user := g']> (activeGames w)) w, HangmanShown g' None)
              end
        | _ => (w, NoActiveGameFound hangman)
        end
    | None => (w, NoActiveGameFound hangman)
    end.

(** *** Message-driven games *)

(** [handleMathAnswer]; [parsed] is [parseInt(message.content.trim())],
    [None] for [NaN]. *)
Definition handleMathAnswer (user : string) (parsed : option Z) (now : Z)
    (g : GameState) (w : World) : World * Reply :=
  match payload g, parsed with
  | MathP difficulty question answer attempts maxAttempts, Some userAnswer =>
      let attempts' := attempts + 1 in
      let g' := setPayload (MathP difficulty question answer attempts' maxAttempts) g in
      if userAnswer =? answer then (finish user g' RWin now w, MathCorrect)
      else if maxAttempts <=? attempts' then (finish user g' RLose now w, MathGameOver)
      else (setGames (<[user := g']> (activeGames w)) w,
            MathTryAgain (maxAttempts - attempts'))
  | _, _ => (w, EnterValidNumber)
  end.

(** [handleGuess] of the number guessing game. *)
Definition handleGuess (user : string) (parsed : option Z) (now : Z)
    (g : GameState) (w : World) : World * Reply :=
  match payload g, parsed with
  | GuessP number attempts maxAttempts guesses, Some n =>
      if (n <? GUESSING_MIN) || (GUESSING_MAX <? n) then (w, GuessOutOfRange)
      else
        let attempts' := attempts + 1 in
        let g' := setPayload (GuessP number attempts' maxAttempts (guesses ++ [n])%list) g in
        if n =? number then (finish user g' RWin now w, GuessCorrect)
        else
          let attemptsLeft := maxAttempts - attempts' in
          if attemptsLeft <=? 0 then (finish user g' RLose now w, GuessGameOver)
          else (setGames (<[user := g']> (activeGames w)) w,
                GuessHint (n <? number) attemptsLeft)
  | _, _ => (w, GuessOutOfRange)
  end.

(** [handleMessage]: bot authors and direct messages are ignored, and so
    is a user without a session or with a session of a button game. *)
Definition handleMessage (authorIsBot inGuild : bool) (user : string)
    (parsed : option Z) (now : Z) (w : World) : World * Reply :=
  if authorIsBot || negb inGuild then (w, NoReply)
  else
    match activeGames w !! user with
    | Some g =>
        match gameType g with
        | math => handleMathAnswer user parsed now g w
        | guess => handleGuess user parsed now g w
        | _ => (w, NoReply)
        end
    | None => (w, NoReply)
    end.


(** A world whose store knows [user], with no session yet. *)
Definition worldWithUser (user uname : string) : World :=
  mkWorld ∅ ∅ [] (mkDb ∅ {[ user := mkUser uname 1 0 0 0%float 0 ]} ∅).

(** Draws that send every random choice to the middle of its range. *)
Definition halves : nat -> Q := fun _ => 1 # 2.

(** Draws for a Math Challenge: the first picks the difficulty ['easy'],
    the second the third entry of the operations, the others the middle
    of the operand range. *)
Definition multiplicationDraws : nat -> Q :=
  fun i => match i with 0%nat => 0%Q | 1%nat => 7 # 10 | _ => 1 # 2 end.

(** *** Events *)

(** Everything the game handler reacts to, with the clock and the random
    draws of the reaction. *)
Inductive Event :=
| GameSelect (user gameTypeValue : string) (now : Z) (rs : nat -> Q)
| TicTacToeMove (user : string) (moveIndex : nat) (now : Z) (rs : nat -> Q)
| RockPaperScissors (user userChoice : string) (now : Z) (rs : nat -> Q)
| TriviaAnswer (user : string) (answerIndex : option Z) (now : Z)
| HangmanGuess (user raw : string) (now : Z)
| Message (authorIsBot inGuild : bool) (user : string) (parsed : option Z) (now : Z)
| TimerFires (gameId : GameId) (now : Z).

Definition handle (e : Event) (w : World) : World * Reply :=
  match e with
  | GameSelect u v now rs => handleGameSelect u v now rs w
  | TicTacToeMove u i now rs => handleTicTacToeMove u i now rs w
  | RockPaperScissors u c now rs => handleRockPaperScissors u c now rs w
  | TriviaAnswer u a now => handleTrivia u a now w
  | HangmanGuess u raw now => handleHangmanGuessModal u raw now w
  | Message b gd u p now => handleMessage b gd u p now w
  | TimerFires gid now => fireTimer gid now w
  end.

(** The world after a list of events, oldest first. *)
Definition run (es : list Event) (w : World) : World :=
  fold_left (fun w e => fst (handle e w)) es w.

(** Every session is stored under the id of the user it belongs to. *)
Definition keyedByUser (w : World) : Prop :=
  forall k g, activeGames w !! k = Some g -> userId g = k.

(** The sessions of the table that belong to [user]. *)
Definition sessionsOf (user : string) (w : World) : list GameState :=
  filter (fun g => userId g = user) (map snd (map_to_list (activeGames w))).

End GameHandler.

(** ** The stand-alone Hangman game class *)

Module HangmanGame.

Import Utils.

(** A game object of the class; [guessedLetters] is a [Set]. *)
Record Game := mkGame {
  playerId : string;
  word : string;
  displayWord : string;
  guessedLetters : gset string;
  wrongGuesses : Z;
  maxWrongGuesses : Z;
  gameOver : bool
}.

Inductive Reply :=
| GameNotFound
| NotYourGame
| AlreadyFinished
| AlreadyGuessed
| Won
| Lost
| Continue.

(** The loop over the word: a position shows [letter] where the word has
    it and keeps its old display character elsewhere ([undefined] past
    the end of the old display is rendered as nothing). *)
Fixpoint revealLetter (word display letter : string) : string :=
  match word with
  | EmptyString => EmptyString
  | String c r =>
      let rest := revealLetter r (match display with String _ d => d | _ => EmptyString end) letter in
      if String.eqb (String c EmptyString) letter then letter +:+ rest
      else match display with
           | String d _ => String d rest
           | EmptyString => rest
           end
  end.

(** [handleGuess(interaction, letter, gameId)] over [this.games]. *)
Definition handleGuess (user letter gameId : string) (games : gmap string Game)
  : gmap string Game * Reply :=
  match games !! gameId with
  | None => (games, GameNotFound)
  | Some game =>
      if negb (String.eqb (playerId game) user) then (games, NotYourGame)
      else if gameOver game then (games, AlreadyFinished)
      else
        let letter := toUpperCase letter in
        if bool_decide (letter ∈ guessedLetters game) then (games, AlreadyGuessed)
        else
          let guessed' := guessedLetters game ∪ {[letter]} in
          if includes (word game) letter then
            let display' := revealLetter (word game) (displayWord game) letter in
            if negb (includes display' "_") then (delete gameId games, Won)
            else
              (<[gameId := mkGame (playerId game) (word game) display' guessed'
                             (wrongGuesses game) (maxWrongGuesses game) false]> games,
               Continue)
          else
            let wrong' := wrongGuesses game + 1 in
            if maxWrongGuesses game <=? wrong' then (delete gameId games, Lost)
            else
              (<[gameId := mkGame (playerId game) (word game) (displayWord game) guessed'
                             wrong' (maxWrongGuesses game) false]> games,
               Continue)
  end.

End HangmanGame.

(** ** The remaining helpers of [utils.js] *)

Module Helpers.

Import Utils.

(** [cleanupRateLimits(rateLimitMap)] at clock [now]: every entry whose
    reset time has passed is deleted. *)
Definition cleanupRateLimits (now : Z) (m : gmap string RateWindow)
  : gmap string RateWindow :=
  filter (fun kv => now <= resetTime (snd kv)) m.

(** A series of [checkRateLimit] calls for one key at the given clock
    readings: the verdicts, oldest first, and the map left behind. *)
Fixpoint calls (limits : Limits) (key : string) (ts : list Z)
    (m : gmap string RateWindow) : list bool * gmap string RateWindow :=
  match ts with
  | [] => ([], m)
  | t :: r =>
      let '(m1, ok) := checkRateLimit m key limits t in
      let '(oks, m') := calls limits key r m1 in
      (ok :: oks, m')
  end.

(** *** [sanitizeUsername]

    A user name is taken as its list of UTF-16 code units; the regular
    expressions of the function have no [u] flag and work unit by unit.
    [toLowerCase] is left open: the function is studied for whatever case
    mapping the platform applies. *)

Section Sanitize.

Variable toLowerCase : list N -> list N.

Definition dash : N := 45%N.

(** The class [a-z0-9]. *)
Definition isLowerAlnum (u : N) : bool :=
  ((97 <=? u) && (u <=? 122) || (48 <=? u) && (u <=? 57))%N.

(** [replace(/[^a-z0-9]/g, '-')] *)
Definition replaceOthers (s : list N) : list N :=
  map (fun u => if isLowerAlnum u then u else dash) s.

(** [replace(/-+/g, '-')] *)
Fixpoint collapseDashes (s : list N) : list N :=
  match s with
  | [] => []
  | a :: r =>
      match r with
      | b :: _ =>
          if (a =? dash)%N && (b =? dash)%N then collapseDashes r
          else a :: collapseDashes r
      | [] => [a]
      end
  end.

Definition dropLeadingDash (s : list N) : list N :=
  match s with
  | a :: r => if (a =? dash)%N then r else s
  | [] => []
  end.

Definition dropTrailingDash (s : list N) : list N :=
  match rev s with
  | a :: r => if (a =? dash)%N then rev r else s
  | [] => []
  end.

(** [replace(/^-|-$/g, '')]: one dash at the start and one at the end. *)
Definition trimDashes (s : list N) : list N :=
  dropTrailingDash (dropLeadingDash s).

(** The code units of ['user']. *)
Definition userWord : list N := [117; 115; 101; 114]%N.

(** [sanitizeUsername(username)]; [None] is a value that is not a
    string. *)
Definition sanitizeUsername (username : option (list N)) : list N :=
  match username with
  | None => userWord
  | Some [] => userWord
  | Some s =>
      let safe := trimDashes (collapseDashes (replaceOthers (toLowerCase s))) in
      let safe := match safe with [] => userWord | _ => safe end in
      firstn 90 safe
  end.

End Sanitize.

(** No two dashes stand next to each other. *)
Definition noDoubleDash (s : list N) : Prop :=
  forall i, s !! i = Some dash -> s !! S i <> Some dash.

(** The same, as a test that runs along the list. *)
Fixpoint dashesApart (s : list N) : bool :=
  match s with
  | a :: r =>
      match r with
      | b :: _ => negb ((a =? dash)%N && (b =? dash)%N) && dashesApart r
      | [] => true
      end
  | [] => true
  end.

(** The characters a sanitized name may hold. *)
Definition isNameUnit (u : N) : bool := isLowerAlnum u || (u =? dash)%N.

(** *** [extractUserIdFromTopic] *)

(** [\d] *)
Definition isDigit (c : ascii) : bool :=
  let n := nat_of_ascii c in (48 <=? n)%nat && (n <=? 57)%nat.

(** The longest run of digits at the front of a list, and what follows. *)
Fixpoint spanDigits (l : list ascii) : list ascii * list ascii :=
  match l with
  | c :: r =>
      if isDigit c then let '(ds, rest) := spanDigits r in (c :: ds, rest)
      else ([], l)
  | [] => ([], [])
  end.

(** [topic.match(/\((\d+)\)$/)], read from the end of the topic: a
    closing parenthesis, at least one digit, an opening parenthesis.  The
    capture is returned; [None] is [null]. *)
Definition matchTrailingId (topic : string) : option string :=
  match rev (list_ascii_of_string topic) with
  | ")"%char :: r =>
      match spanDigits r with
      | (d :: ds, "("%char :: _) => Some (string_of_list_ascii (rev (d :: ds)))
      | _ => None
      end
  | _ => None
  end.

(** [extractUserIdFromTopic(channel)] *)
Definition extractUserIdFromTopic (c : Channel) : option string :=
  match chTopic c with
  | Some t => if truthy t then matchTrailingId t else None
  | None => None
  end.

(** A string of digits. *)
Definition allDigits (s : string) : Prop :=
  Forall (fun c => isDigit c = true) (list_ascii_of_string s).

(** *** [getTimeDifference] *)

Inductive TimeUnit := Day | Hour | Minute.

(** The text [getTimeDifference] returns: a count, a unit and the plural
    ending, or the fixed text for less than a minute. *)
Inductive TimeDifference :=
| Span (n : Z) (unit : TimeUnit) (plural : bool)
| LessThanAMinute.

Definition getTimeDifference (start finish : Z) : TimeDifference :=
  let diff := Z.abs (finish - start) in
  let minutes := diff / 60000 in
  let hours := minutes / 60 in
  let days := hours / 24 in
  if 0 <? days then Span days Day (1 <? days)
  else if 0 <? hours then Span hours Hour (1 <? hours)
  else if 0 <? minutes then Span minutes Minute (1 <? minutes)
  else LessThanAMinute.

Definition unitMs (u : TimeUnit) : Z :=
  match u with Day => 86400000 | Hour => 3600000 | Minute => 60000 end.

(** *** [generateRandomString] *)

Definition randomChars : string :=
  "ABCDEFGHIJKLMNOPQRSTUVWXYZabcdefghijklmnopqrstuvwxyz0123456789".

(** [chars.charAt(i)], the empty string outside the alphabet. *)
Definition charAt (chars : string) (i : Z) : string :=
  if i <? 0 then ""
  else match String.get (Z.to_nat i) chars with
       | Some c => String c EmptyString
       | None => ""
       end.

(** [generateRandomString(length)], one draw per character. *)
Fixpoint generateRandomString (length : nat) (draws : nat -> Q) : string :=
  match length with
  | 0%nat => ""
  | S n =>
      charAt randomChars
        (Qfloor (draws 0%nat * inject_Z (Z.of_nat (String.length randomChars))))
      +:+ generateRandomString n (fun i => draws (S i))
  end.

(** A draw of [Math.random()]. *)
Definition unitDraw (r : Q) : Prop := (0 <= r)%Q /\ (r < 1)%Q.

(** Latin letters and digits. *)
Definition isAlnum (c : ascii) : bool :=
  let n := nat_of_ascii c in
  ((48 <=? n) && (n <=? 57) || (65 <=? n) && (n <=? 90)
   || (97 <=? n) && (n <=? 122))%nat.

End Helpers.

(** ** Runs of model operations *)

Module Accounting.

Import Models.

(** The calls of the ticket model that write to the store. *)
Inductive TicketOp :=
| OpCreate (ticketId channelId userId uname ty : string)
    (dat : list (string * string)) (now : Z)
| OpClaim (ticketId staffId : string) (now : Z)
| OpClose (ticketId staffId reason : string) (transcriptPath : option string)
    (now : Z).

(** One call; a rejected INSERT leaves the store as it was. *)
Definition applyTicketOp (op : TicketOp) (db : Database) : Database :=
  match op with
  | OpCreate ticketId channelId userId uname ty dat now =>
      match Ticket.create ticketId channelId userId uname ty dat now db with
      | Some db' => db'
      | None => db
      end
  | OpClaim ticketId staffId now => fst (Ticket.claim ticketId staffId now db)
  | OpClose ticketId staffId reason tp now =>
      fst (Ticket.close ticketId staffId reason tp now db)
  end.

Definition runTicketOps (ops : list TicketOp) (db : Database) : Database :=
  fold_left (fun d op => applyTicketOp op d) ops db.

(** [SELECT COUNT( * ) FROM tickets WHERE user_id = ?] *)
Definition ticketsOf (userId : string) (db : Database) : nat :=
  size (filter (fun kv => user_id (snd kv) = userId) (tickets db)).

(** [... WHERE user_id = ? AND status = 'closed'] *)
Definition closedTicketsOf (userId : string) (db : Database) : nat :=
  size (filter (fun kv => user_id (snd kv) = userId /\ status (snd kv) = "closed")
          (tickets db)).

(** The counters of the [users] table agree with the [tickets] table. *)
Definition countersAgree (db : Database) : Prop :=
  (forall k r, tickets db !! k = Some r -> is_Some (users db !! user_id r))
  /\ (forall u row, users db !! u = Some row ->
        tickets_created row = Z.of_nat (ticketsOf u db)
        /\ tickets_closed row = Z.of_nat (closedTicketsOf u db)).

(** One call of [logEvent]. *)
Record LogCall := mkLog {
  lc_metric : string;
  lc_value : Z;
  lc_metadata : Metadata;
  lc_now : Z
}.

Definition logAll (cs : list LogCall) (db : Database) : Database :=
  fold_left (fun d c => logEvent (lc_metric c) (lc_value c) (lc_metadata c)
                          (lc_now c) d) cs db.

Definition sumValues (cs : list LogCall) : Z :=
  fold_right (fun c acc => lc_value c + acc) 0 cs.

(** The calls of a list that land on the row of [day] and [metric]. *)
Definition callsFor (day : Z) (metric : string) (cs : list LogCall) : list LogCall :=
  filter (fun c => today (lc_now c) = day /\ lc_metric c = metric) cs.

End Accounting.

(** ** Well-formed game worlds and a guessing player *)

Module Play.

Import Utils Models TicTacToe GameHandler.

(** The variants whose start function registers a timeout. *)
Definition timed (t : GameType) : bool :=
  match t with
  | tictactoe | rps => false
  | math | guess | trivia | hangman => true
  end.

(** The guessed letters that do not occur in the word. *)
Definition misses (word : string) (guessed : list string) : nat :=
  length (filter (fun l => includes word l = false) guessed).

(** What the fields of a live session look like, variant by variant. *)
Definition payloadOk (p : Payload) : Prop :=
  match p with
  | TicTacToeP board currentPlayer aiPlayer _ _ =>
      length board = 9%nat /\ currentPlayer = X /\ aiPlayer = O
  | MathP _ question answer attempts maxAttempts =>
      attempts = 0 /\ maxAttempts = 1 /\ answer = calculateMathAnswer question
  | GuessP number attempts maxAttempts guesses =>
      attempts = Z.of_nat (length guesses)
      /\ maxAttempts = GUESSING_MAX_ATTEMPTS
      /\ attempts < maxAttempts
      /\ Forall (fun n => GUESSING_MIN <= n <= GUESSING_MAX /\ n <> number) guesses
  | RpsP => True
  | TriviaP _ attempts maxAttempts => attempts = 0 /\ maxAttempts = 1
  | HangmanP word guessed wrongGuesses maxWrongGuesses display =>
      display = reveal word guessed
      /\ wrongGuesses = Z.of_nat (misses word guessed)
      /\ maxWrongGuesses = HANGMAN_MAX_WRONG_GUESSES
      /\ wrongGuesses < maxWrongGuesses
      /\ NoDup guessed
      /\ Forall (fun l => isLowerLetter l = true) guessed
  end.

(** A session stored under key [k]. *)
Definition sessionOk (k : string) (g : GameState) : Prop :=
  userId g = k
  /\ id g = (gameType g, k, startedAt g)
  /\ timeout g = (if timed (gameType g) then Some (id g) else None)
  /\ payloadOk (payload g).

(** A world in which every session is as above and the pending timers
    are exactly the timeouts of the live sessions, each once. *)
Definition worldOk (w : World) : Prop :=
  (forall k g, activeGames w !! k = Some g -> sessionOk k g)
  /\ (forall h, h ∈ timers w
                <-> exists k g, activeGames w !! k = Some g /\ timeout g = Some h)
  /\ NoDup (timers w).

(** A player of the guessing game who halves the interval the hints
    leave: the replies it gets, oldest first. *)
Fixpoint bisect (rounds : nat) (user : string) (lo hi : Z) (now : Z) (w : World)
  : list Reply :=
  match rounds with
  | 0%nat => []
  | S n =>
      let mid := (lo + hi) / 2 in
      let '(w', reply) := handleMessage false true user (Some mid) now w in
      reply ::
      match reply with
      | GuessHint true _ => bisect n user (mid + 1) hi now w'
      | GuessHint false _ => bisect n user lo (mid - 1) now w'
      | _ => []
      end
  end.

(** Everything that changes the state of the game handler: the events it
    reacts to and the hourly [cleanupRateLimits()].  A step runs one
    handler from its first statement to its last, so the worlds reached
    by [play] are those of handlers that run one after another; worlds
    in which a second handler is resumed while the first waits at an
    [await] are not among them. *)
Inductive Step :=
| Handled (e : Event)
| RateLimitsCleaned (now : Z).

Definition step (s : Step) (w : World) : World :=
  match s with
  | Handled e => fst (handle e w)
  | RateLimitsCleaned now =>
      mkWorld (activeGames w) (Helpers.cleanupRateLimits now (rateLimits w))
              (timers w) (db w)
  end.

(** The world after a list of steps, oldest first. *)
Definition play (ss : list Step) (w : World) : World :=
  fold_left (fun w s => step s w) ss w.

(** The user an event is about; a timer is about the user named in the
    game id it carries. *)
Definition eventUser (e : Event) : string :=
  match e with
  | GameSelect u _ _ _ | TicTacToeMove u _ _ _ | RockPaperScissors u _ _ _
  | TriviaAnswer u _ _ | HangmanGuess u _ _ | Message _ _ u _ _ => u
  | TimerFires (_, u, _) _ => u
  end.

End Play.

(** * Properties *)

(** ** The rate limiter *)

Section RateLimiter.

Import Utils.

Lemma checkRateLimit_unfold m key limits now :
  checkRateLimit m key limits now =
  let w := storedWindow m key limits now in
  let w' := if resetTime w <? now then mkWindow 1 (now + WINDOW_MS limits)
            else mkWindow (count w + 1) (resetTime w) in
  (<[key := w']> m, count w' <=? MAX_REQUESTS limits).
Proof.
  unfold checkRateLimit, storedWindow.
  destruct (m !! key) as [w|]; reflexivity.
Qed.

(** A call past the reset time it finds opens a new window. *)
Lemma check_expired m key limits now :
  resetTime (storedWindow m key limits now) < now ->
  after limits key now m !! key = Some (mkWindow 1 (now + WINDOW_MS limits))
  /\ allowed limits key now m = (1 <=? MAX_REQUESTS limits).
Proof.
  intros Hlt. unfold after, allowed. rewrite checkRateLimit_unfold. cbv zeta.
  destruct (Z.ltb_spec (resetTime (storedWindow m key limits now)) now); [|lia].
  simpl. by rewrite lookup_insert_eq.
Qed.

(** Any other call counts one more in the window it finds. *)
Lemma check_inside m key limits now :
  now <= resetTime (storedWindow m key limits now) ->
  let w := storedWindow m key limits now in
  after limits key now m !! key = Some (mkWindow (count w + 1) (resetTime w))
  /\ allowed limits key now m = (count w + 1 <=? MAX_REQUESTS limits).
Proof.
  intros Hle. unfold after, allowed. rewrite checkRateLimit_unfold. cbv zeta.
  destruct (Z.ltb_spec (resetTime (storedWindow m key limits now)) now); [lia|].
  simpl. by rewrite lookup_insert_eq.
Qed.

Lemma check_other m key limits now k :
  k <> key -> after limits key now m !! k = m !! k.
Proof.
  intros Hne. unfold after. rewrite checkRateLimit_unfold. simpl.
  apply lookup_insert_ne. congruence.
Qed.

(** The first call of a burst: with no window running, the count starts
    at 1 and the window ends [WINDOW_MS] later. *)
Lemma check_first m key limits now :
  0 <= WINDOW_MS limits -> noRunningWindow m key now ->
  after limits key now m !! key = Some (mkWindow 1 (now + WINDOW_MS limits))
  /\ allowed limits key now m = (1 <=? MAX_REQUESTS limits).
Proof.
  intros Hw Hno. unfold noRunningWindow in Hno.
  destruct (m !! key) as [w|] eqn:Hm.
  - apply check_expired. unfold storedWindow. by rewrite Hm.
  - pose proof (check_inside m key limits now) as Hin.
    unfold storedWindow in Hin. rewrite Hm in Hin. simpl in Hin.
    apply Hin. lia.
Qed.

(** A later call within a running window. *)
Lemma check_next m key limits now c r :
  m !! key = Some (mkWindow c r) -> now <= r ->
  after limits key now m !! key = Some (mkWindow (c + 1) r)
  /\ allowed limits key now m = (c + 1 <=? MAX_REQUESTS limits).
Proof.
  intros Hm Hle. pose proof (check_inside m key limits now) as Hin.
  unfold storedWindow in Hin. rewrite Hm in Hin. simpl in Hin. by apply Hin.
Qed.

(** C7.  For a maximum of at least 1, as every caller passes (the
    configured maxima are 3 and 5), the check is a fixed-window counter:
    a call past the stored reset time sets the count to 1 and the reset
    time to [now + W] and is allowed; any other call adds one to the
    count (from 0 for a key without an entry) and is allowed exactly
    when the new count is at most [M]; other keys are left alone.  With
    [M = 3] and [W = 60000], three calls within one window are allowed,
    the fourth is denied, and the first call after the window has
    elapsed is allowed with the count back at 1. *)
Theorem checkRateLimit_fixed_window
    (m : gmap string RateWindow) (key : string) (limits : Limits) (now : Z)
    (t1 t2 t3 t4 t5 : Z)
    (Hmax : 1 <= MAX_REQUESTS limits) :
  let w := storedWindow m key limits now in
  (resetTime w < now ->
     after limits key now m !! key = Some (mkWindow 1 (now + WINDOW_MS limits))
     /\ allowed limits key now m = true)
  /\ (now <= resetTime w ->
     after limits key now m !! key = Some (mkWindow (count w + 1) (resetTime w))
     /\ allowed limits key now m = (count w + 1 <=? MAX_REQUESTS limits))
  /\ (m !! key = None -> count w = 0)
  /\ (forall k, k <> key -> after limits key now m !! k = m !! k)
  /\ (noRunningWindow m key t1 ->
      t1 <= t2 /\ t2 <= t3 /\ t3 <= t4 /\ t4 <= t1 + 60000 ->
      t1 + 60000 < t5 ->
      let lim := mkLimits 60000 3 in
      let m1 := after lim key t1 m in
      let m2 := after lim key t2 m1 in
      let m3 := after lim key t3 m2 in
      let m4 := after lim key t4 m3 in
      let m5 := after lim key t5 m4 in
      allowed lim key t1 m = true /\ allowed lim key t2 m1 = true
      /\ allowed lim key t3 m2 = true /\ allowed lim key t4 m3 = false
      /\ allowed lim key t5 m4 = true
      /\ m5 !! key = Some (mkWindow 1 (t5 + 60000))).
Proof.
  cbv zeta. split; [|split; [|split; [|split]]].
  - intros Hpast. destruct (check_expired m key limits now Hpast) as [Hw Ha].
    split; [exact Hw|]. rewrite Ha. by apply Z.leb_le.
  - apply check_inside.
  - intros Hnone. unfold storedWindow. by rewrite Hnone.
  - intros k Hk. by apply check_other.
  - intros Hfirst (H12 & H23 & H34 & H41) Hlater.
    destruct (check_first m key (mkLimits 60000 3) t1) as [E1 A1];
      [simpl; lia | done |].
    simpl in E1.
    destruct (check_next _ key (mkLimits 60000 3) t2 _ _ E1) as [E2 A2]; [lia|].
    destruct (check_next _ key (mkLimits 60000 3) t3 _ _ E2) as [E3 A3]; [lia|].
    destruct (check_next _ key (mkLimits 60000 3) t4 _ _ E3) as [E4 A4]; [lia|].
    destruct (check_expired
                (after (mkLimits 60000 3) key t4 (after (mkLimits 60000 3) key t3
                  (after (mkLimits 60000 3) key t2 (after (mkLimits 60000 3) key t1 m))))
                key (mkLimits 60000 3) t5) as [E5 A5].
    { unfold storedWindow. rewrite E4. simpl. lia. }
    rewrite A1, A2, A3, A4, A5, E5. done.
Qed.

Lemma checkRateLimit_fixed_window_witness :
  let m : gmap string RateWindow := ∅ in
  let lim := TICKET_RATE_LIMIT in
  allowed lim "u1" 0 m = true
  /\ allowed lim "u1" 5 (after lim "u1" 0 m) = true
  /\ allowed lim "u1" 10 (after lim "u1" 5 (after lim "u1" 0 m)) = true
  /\ allowed lim "u1" 60000
       (after lim "u1" 10 (after lim "u1" 5 (after lim "u1" 0 m))) = false
  /\ allowed lim "u1" 60001
       (after lim "u1" 60000 (after lim "u1" 10 (after lim "u1" 5 (after lim "u1" 0 m))))
     = true.
Proof.
  assert (Hmax : 1 <= MAX_REQUESTS TICKET_RATE_LIMIT) by (simpl; lia).
  assert (Hfirst : noRunningWindow (∅ : gmap string RateWindow) "u1" 0)
    by (vm_compute; exact I).
  assert (Hopen : 0 <= 5 /\ 5 <= 10 /\ 10 <= 60000 /\ 60000 <= 0 + 60000) by lia.
  assert (Hlater : 0 + 60000 < 60001) by lia.
  pose proof (checkRateLimit_fixed_window ∅ "u1" TICKET_RATE_LIMIT 0
                0 5 10 60000 60001 Hmax) as H.
  cbv zeta in H.
  destruct H as (_ & _ & _ & _ & Hburst).
  destruct (Hburst Hfirst Hopen Hlater) as (A1 & A2 & A3 & A4 & A5 & _).
  auto.
Defined.

End RateLimiter.

(** ** The ticket state machine *)

Section TicketLifecycle.

Import Models.

Lemma claim_open db ticketId staffId now r :
  tickets db !! ticketId = Some r -> status r = "open" ->
  snd (Ticket.claim ticketId staffId now db) = true
  /\ exists r', tickets (fst (Ticket.claim ticketId staffId now db)) !! ticketId = Some r'
       /\ status r' = "claimed" /\ claimed_by r' = Some staffId
       /\ claimed_at r' = Some now /\ user_id r' = user_id r.
Proof.
  intros Hrow Hst. unfold Ticket.claim. rewrite Hrow, Hst. simpl.
  split; [done|]. eexists. rewrite lookup_insert_eq. repeat split.
Qed.

Lemma claim_not_open db ticketId staffId now r :
  tickets db !! ticketId = Some r -> status r <> "open" ->
  Ticket.claim ticketId staffId now db = (db, false).
Proof.
  intros Hrow Hst. unfold Ticket.claim. rewrite Hrow.
  destruct (String.eqb_spec (status r) "open"); [contradiction | done].
Qed.

Lemma close_live db ticketId staffId reason tp now r :
  tickets db !! ticketId = Some r -> status r = "open" \/ status r = "claimed" ->
  snd (Ticket.close ticketId staffId reason tp now db) = true
  /\ exists r', tickets (fst (Ticket.close ticketId staffId reason tp now db)) !! ticketId
                = Some r'
       /\ status r' = "closed" /\ closed_by r' = Some staffId
       /\ closed_at r' = Some now /\ close_reason r' = Some reason.
Proof.
  intros Hrow Hst. unfold Ticket.close. rewrite Hrow.
  assert (Hb : String.eqb (status r) "open" || String.eqb (status r) "claimed" = true).
  { destruct Hst as [-> | ->]; reflexivity. }
  rewrite Hb. simpl. split; [done|].
  destruct (users db !! user_id r); simpl;
    eexists; rewrite lookup_insert_eq; repeat split.
Qed.

Lemma close_not_live db ticketId staffId reason tp now r :
  tickets db !! ticketId = Some r ->
  ~ (status r = "open" \/ status r = "claimed") ->
  Ticket.close ticketId staffId reason tp now db = (db, false).
Proof.
  intros Hrow Hst. unfold Ticket.close. rewrite Hrow.
  destruct (String.eqb_spec (status r) "open"); [tauto|].
  destruct (String.eqb_spec (status r) "claimed"); [tauto | done].
Qed.

(** C4.  For a stored ticket, [claim] succeeds exactly when the status is
    ['open'] and then records the claimer; [close] succeeds exactly when
    the status is ['open'] or ['claimed'] and then records the closer and
    the reason; an attempt in any other state returns [false] and leaves
    the store as it was, so ['closed'] is terminal and a second [close]
    fails. *)
Theorem ticket_claim_close_guarded
    (db : Database) (ticketId staffId reason : string) (tp : option string)
    (now : Z) (r : TicketRow)
    (Hrow : tickets db !! ticketId = Some r) :
  let claimed := Ticket.claim ticketId staffId now db in
  let closed := Ticket.close ticketId staffId reason tp now db in
  (snd claimed = true <-> status r = "open")
  /\ (status r = "open" ->
      exists r', tickets (fst claimed) !! ticketId = Some r'
        /\ status r' = "claimed" /\ claimed_by r' = Some staffId
        /\ claimed_at r' = Some now)
  /\ (status r <> "open" -> claimed = (db, false))
  /\ (snd closed = true <-> status r = "open" \/ status r = "claimed")
  /\ (status r = "open" \/ status r = "claimed" ->
      exists r', tickets (fst closed) !! ticketId = Some r'
        /\ status r' = "closed" /\ closed_by r' = Some staffId
        /\ closed_at r' = Some now /\ close_reason r' = Some reason)
  /\ (~ (status r = "open" \/ status r = "claimed") -> closed = (db, false))
  /\ (status r = "closed" -> claimed = (db, false) /\ closed = (db, false))
  /\ (snd closed = true ->
      forall staffId' reason' tp' now',
        Ticket.close ticketId staffId' reason' tp' now' (fst closed) = (fst closed, false)
        /\ Ticket.claim ticketId staffId' now' (fst closed) = (fst closed, false)).
Proof.
  cbv zeta.
  assert (Hclaim : snd (Ticket.claim ticketId staffId now db) = true
                   <-> status r = "open").
  { split.
    - intros Hs. destruct (decide (status r = "open")) as [|Hne]; [done|].
      rewrite (claim_not_open _ _ _ _ _ Hrow Hne) in Hs. done.
    - intros Hs. by destruct (claim_open db ticketId staffId now r Hrow Hs). }
  assert (Hclose : snd (Ticket.close ticketId staffId reason tp now db) = true
                   <-> status r = "open" \/ status r = "claimed").
  { split.
    - intros Hs.
      destruct (decide (status r = "open")) as [|Hn1]; [by left|].
      destruct (decide (status r = "claimed")) as [|Hn2]; [by right|].
      rewrite (close_not_live _ _ _ _ _ _ _ Hrow) in Hs; [done | tauto].
    - intros Hs. by destruct (close_live db ticketId staffId reason tp now r Hrow Hs). }
  repeat split; try (apply Hclaim); try (apply Hclose).
  - intros Hs. destruct (claim_open db ticketId staffId now r Hrow Hs)
      as (_ & r' & ? & ? & ? & ? & _). eauto.
  - intros Hs. by apply (claim_not_open _ _ _ _ _ Hrow).
  - intros Hs. destruct (close_live db ticketId staffId reason tp now r Hrow Hs)
      as (_ & r' & ?). eauto.
  - intros Hs. by apply (close_not_live _ _ _ _ _ _ _ Hrow).
  - apply (claim_not_open _ _ _ _ _ Hrow). rewrite H. discriminate.
  - apply (close_not_live _ _ _ _ _ _ _ Hrow). rewrite H.
    intros [?|?]; discriminate.
  - apply Hclose in H.
    destruct (close_live db ticketId staffId reason tp now r Hrow H)
      as (_ & r' & Hr' & Hst & _).
    apply (close_not_live _ _ _ _ _ _ _ Hr'). rewrite Hst.
    intros [?|?]; discriminate.
  - apply Hclose in H.
    destruct (close_live db ticketId staffId reason tp now r Hrow H)
      as (_ & r' & Hr' & Hst & _).
    apply (claim_not_open _ _ _ _ _ Hr'). rewrite Hst. discriminate.
Qed.

Lemma ticket_claim_close_guarded_witness :
  let db := mkDb {[ "ticket-7-abc123" := sampleTicket "open" ]} ∅ ∅ in
  let closed := Ticket.close "ticket-7-abc123" "9" "resolved" None 50 db in
  snd closed = true
  /\ Ticket.close "ticket-7-abc123" "9" "resolved" None 60 (fst closed)
     = (fst closed, false).
Proof.
  cbv zeta.
  assert (Hrow : tickets (mkDb {[ "ticket-7-abc123" := sampleTicket "open" ]} ∅ ∅)
                   !! "ticket-7-abc123" = Some (sampleTicket "open"))
    by (vm_compute; reflexivity).
  pose proof (ticket_claim_close_guarded _ "ticket-7-abc123" "9" "resolved" None 50
                (sampleTicket "open") Hrow) as H.
  cbv zeta in H.
  destruct H as (_ & _ & _ & Hc & _ & _ & _ & Htwice).
  assert (Hs : snd (Ticket.close "ticket-7-abc123" "9" "resolved" None 50
                 (mkDb {[ "ticket-7-abc123" := sampleTicket "open" ]} ∅ ∅)) = true).
  { apply Hc. left. reflexivity. }
  split; [exact Hs|].
  exact (proj1 (Htwice Hs "9" "resolved" None 60)).
Defined.

End TicketLifecycle.

(** ** Ratings *)

Section Ratings.

Import Models.

(** The order of the doubles as the specification of the comparisons
    gives it. *)
Lemma SFcompare_antisym (x y : spec_float) (c : comparison) :
  SFcompare x y = Some c -> SFcompare y x = Some (CompOpp c).
Proof.
  destruct x as [sx|sx| |sx mx ex], y as [sy|sy| |sy my ey]; simpl;
    try discriminate; intros H; inversion H; subst; clear H;
    try (by destruct sx); try (by destruct sy); try (by destruct sx, sy).
  destruct sx, sy; try done.
  - rewrite (Z.compare_antisym ex ey).
    destruct (ex ?= ey) eqn:He; simpl; try done.
    change (PosDef.Pos.compare_cont Eq my mx) with (Pos.compare my mx).
    change (PosDef.Pos.compare_cont Eq mx my) with (Pos.compare mx my).
    by rewrite (Pos.compare_antisym mx my).
  - rewrite (Z.compare_antisym ex ey).
    destruct (ex ?= ey) eqn:He; simpl; try done.
    change (PosDef.Pos.compare_cont Eq my mx) with (Pos.compare my mx).
    change (PosDef.Pos.compare_cont Eq mx my) with (Pos.compare mx my).
    by rewrite (Pos.compare_antisym mx my).
Qed.

(** [x <= y] rules out [y < x], for doubles too. *)
Lemma leb_not_ltb (x y : float) :
  (x <=? y)%float = true -> (y <? x)%float = false.
Proof.
  rewrite leb_spec, ltb_spec. unfold SFleb, SFltb.
  destruct (SFcompare (Prim2SF x) (Prim2SF y)) as [c|] eqn:Hc; [|discriminate].
  rewrite (SFcompare_antisym _ _ _ Hc). by destruct c.
Qed.

(** C6.  For a stored user with average [a] and count [c] (a finite
    average, and a count from 0 to below [2^53], where doubles hold
    every integer exactly), a rating [r] with [1 <= r <= 5] stores the
    average
    [(a * c + r) / (c + 1)], as JavaScript computes it in doubles, and
    the count [c + 1].  From
    average 4 and count 2, rating 5 gives the double 4.333333333333333,
    which lies within [10^-15] of 13/3, and the count 3.  A rating below
    1 or above 5 throws and leaves the store as it was. *)
Theorem addRating_running_mean
    (db : Database) (userId : string) (u : UserRow) (rating : float)
    (Huser : users db !! userId = Some u)
    (Hfinite : is_finite (rating_average u) = true)
    (Hcount : 0 <= rating_count u < 2 ^ 53) :
  let a := rating_average u in
  let c := rating_count u in
  ((1 <=? rating)%float = true /\ (rating <=? 5)%float = true ->
     snd (User.addRating userId rating db) = User.Returned true
     /\ exists u', users (fst (User.addRating userId rating db)) !! userId = Some u'
          /\ rating_average u'
             = ((a * numberOfInteger c + rating) / numberOfInteger (c + 1))%float
          /\ rating_count u' = c + 1
          /\ (a = 4%float -> c = 2 -> rating = 5%float ->
              rating_average u' = 0x1.1555555555555p+2%float
              /\ (exists q, numberValue (rating_average u') = Some q
                            /\ (Qabs (q - (13 # 3)) <= 1 # 1000000000000000)%Q)
              /\ rating_count u' = 3))
  /\ ((rating <? 1)%float = true \/ (5 <? rating)%float = true ->
      exists msg, User.addRating userId rating db = (db, User.Threw msg)).
Proof.
  cbv zeta. split.
  - intros [H1 H5]. unfold User.addRating.
    rewrite (leb_not_ltb _ _ H1), (leb_not_ltb _ _ H5). simpl.
    rewrite Huser. simpl. split; [done|].
    eexists. rewrite lookup_insert_eq. split; [done|]. simpl.
    split; [done|]. split; [done|].
    intros Ha Hc Hr. rewrite Ha, Hc, Hr. split; [|split].
    + vm_compute. reflexivity.
    + exists (4878899596318037 # 1125899906842624)%Q. split.
      * vm_compute. reflexivity.
      * unfold Qle. vm_compute. intros Hgt. discriminate Hgt.
    + reflexivity.
  - intros Hout. unfold User.addRating.
    destruct Hout as [-> | ->]; [|rewrite orb_true_r]; simpl; eauto.
Qed.

Lemma addRating_running_mean_witness :
  let db := mkDb ∅ {[ "7" := mkUser "ann" 1 1 0 4%float 2 ]} ∅ in
  (exists u', users (fst (User.addRating "7" 5%float db)) !! "7" = Some u'
              /\ rating_average u' = 0x1.1555555555555p+2%float
              /\ rating_count u' = 3)
  /\ (exists msg, User.addRating "7" 6%float db = (db, User.Threw msg))
  /\ (exists msg, User.addRating "7" 0%float db = (db, User.Threw msg)).
Proof.
  cbv zeta.
  assert (Huser : users (mkDb ∅ {[ "7" := mkUser "ann" 1 1 0 4%float 2 ]} ∅) !! "7"
                  = Some (mkUser "ann" 1 1 0 4%float 2))
    by (vm_compute; reflexivity).
  assert (Hfinite : is_finite (rating_average (mkUser "ann" 1 1 0 4%float 2)) = true)
    by (vm_compute; reflexivity).
  assert (Hcount : 0 <= rating_count (mkUser "ann" 1 1 0 4%float 2) < 2 ^ 53)
    by (simpl; lia).
  split; [|split].
  - assert (Hr : (1 <=? 5)%float = true /\ (5 <=? 5)%float = true)
      by (split; vm_compute; reflexivity).
    destruct (proj1 (addRating_running_mean _ "7" _ 5%float Huser Hfinite Hcount) Hr)
      as (_ & u' & Hu' & _ & _ & Hex).
    destruct (Hex eq_refl eq_refl eq_refl) as (Havg & _ & Hc).
    exists u'. split; [exact Hu' | split; [exact Havg | exact Hc]].
  - apply (addRating_running_mean _ "7" _ 6%float Huser Hfinite Hcount).
    right. vm_compute. reflexivity.
  - apply (addRating_running_mean _ "7" _ 0%float Huser Hfinite Hcount).
    left. vm_compute. reflexivity.
Defined.

End Ratings.

(** ** One ticket per user *)

Section OneTicketPerUser.

Import Utils Models TicketHandler.

(** The guard of the type selection: whenever the lookup finds a channel
    for the user, no modal is shown and nothing is stored. *)
Lemma handleTicketTypeSelect_rejects_existing userId ticketType now w existing :
  findExistingTicketByUser userId (channels w) = Some existing ->
  db (fst (handleTicketTypeSelect userId ticketType now w)) = db w
  /\ channels (fst (handleTicketTypeSelect userId ticketType now w)) = channels w
  /\ (snd (handleTicketTypeSelect userId ticketType now w) = TooQuickly
      \/ snd (handleTicketTypeSelect userId ticketType now w) = AlreadyOpen existing).
Proof.
  intros Hfind. unfold handleTicketTypeSelect.
  destruct (checkRateLimit (rateLimits w) userId TICKET_RATE_LIMIT now) as [rl ok].
  destruct ok; simpl; [rewrite Hfind|]; simpl; auto.
Qed.

(** The type selection never writes to the store or to the channels. *)
Lemma handleTicketTypeSelect_stores_nothing userId ticketType now w :
  db (fst (handleTicketTypeSelect userId ticketType now w)) = db w
  /\ channels (fst (handleTicketTypeSelect userId ticketType now w)) = channels w.
Proof.
  unfold handleTicketTypeSelect.
  destruct (checkRateLimit (rateLimits w) userId TICKET_RATE_LIMIT now) as [rl ok].
  destruct ok; simpl; [|done].
  destruct (findExistingTicketByUser userId (channels w)); done.
Qed.

Lemma prefix_same (p : string) : String.prefix p p = true.
Proof.
  induction p as [|c p IH]; [done|]. simpl.
  destruct (Ascii.ascii_dec c c); [exact IH | done].
Qed.

Lemma includes_suffix (a p : string) : includes (a +:+ p) p = true.
Proof.
  induction a as [|c a IH].
  - change ("" +:+ p) with p.
    destruct p as [|c p]; [done|].
    cbn [includes]. by rewrite prefix_same.
  - change (String c a +:+ p) with (String c (a +:+ p)). cbn [includes].
    rewrite IH. apply orb_true_r.
Qed.

Lemma string_app_assoc (a b c : string) : (a +:+ b) +:+ c = a +:+ (b +:+ c).
Proof.
  induction a as [|x a IH]; [done|].
  change ((String x a +:+ b) +:+ c) with (String x ((a +:+ b) +:+ c)).
  by rewrite IH.
Qed.

(** The topic [createTicket] gives a channel is found by the lookup. *)
Lemma ticket_topic_found (userTag userId : string) (c : Channel) :
  chTopic c = Some ("Ticket opened by " +:+ userTag +:+ " (" +:+ userId +:+ ")") ->
  byTopic userId c = true.
Proof.
  intros Ht. unfold byTopic. rewrite Ht. apply andb_true_intro. split; [done|].
  change (" (" +:+ userId +:+ ")") with (" " +:+ ("(" +:+ userId +:+ ")")).
  rewrite <- (string_app_assoc userTag " " ("(" +:+ userId +:+ ")")).
  rewrite <- (string_app_assoc "Ticket opened by " (userTag +:+ " ")
                ("(" +:+ userId +:+ ")")).
  apply includes_suffix.
Qed.

(** Once a ticket has been created, the next type selection of the same
    user is refused: taken one after the other, selection and creation
    keep a second ticket out. *)
Lemma created_then_selection_refused userId uname userTag td env now w chid ty now' :
  snd (createTicket userId uname userTag td env now w) = TicketCreated chid ->
  let w' := fst (createTicket userId uname userTag td env now w) in
  exists existing,
    findExistingTicketByUser userId (channels w') = Some existing
    /\ (snd (handleTicketTypeSelect userId ty now' w') = TooQuickly
        \/ snd (handleTicketTypeSelect userId ty now' w') = AlreadyOpen existing).
Proof.
  intros Hcreated. cbv zeta.
  assert (Hex : exists c, c ∈ channels (fst (createTicket userId uname userTag td env now w))
                  /\ byTopic userId c = true).
  { revert Hcreated. unfold createTicket.
    destruct (botCanManageChannels env); simpl; [|done].
    destruct (if categoryFound env then Some w else _) as [w1|]; [|done].
    destruct (newChannelId env) as [cid|]; [|done].
    destruct (Ticket.create _ _ _ _ _ _ _ _) as [db'|]; simpl; [|done].
    intros _. eexists. split.
    - apply elem_of_app. right. apply list_elem_of_singleton. reflexivity.
    - eapply ticket_topic_found. reflexivity. }
  destruct Hex as (c & Hin & Hc).
  assert (Hfind : exists existing,
            findExistingTicketByUser userId
              (channels (fst (createTicket userId uname userTag td env now w)))
            = Some existing).
  { unfold findExistingTicketByUser.
    destruct (List.find (byTopic userId) _) as [e|] eqn:Hf; [eauto|].
    exfalso. apply list_elem_of_In in Hin.
    pose proof (find_none _ _ Hf c Hin). congruence. }
  destruct Hfind as (existing & Hfind). exists existing. split; [done|].
  by destruct (handleTicketTypeSelect_rejects_existing userId ty now' _ existing Hfind)
    as (_ & _ & ?).
Qed.

(** C5 fails on the code.  The lookup guards the type selection only, and
    [createTicket] creates without looking: a user who selects a type
    twice before submitting either form ends up with two open tickets. *)
Theorem two_selections_two_open_tickets :
  let s1 := handleTicketTypeSelect "7" "support" 0 emptyWorld in
  let s2 := handleTicketTypeSelect "7" "support" 1000 (fst s1) in
  let m1 := handleTicketModal "7" "ann" "ann#0001" "support_modal" supportFields
              (envFor "aaaaaa" "c1") 2000 (fst s2) in
  let m2 := handleTicketModal "7" "ann" "ann#0001" "support_modal" supportFields
              (envFor "bbbbbb" "c2") 3000 (fst m1) in
  snd s1 = ShowModal (Some "support_modal")
  /\ snd s2 = ShowModal (Some "support_modal")
  /\ snd m1 = TicketCreated "c1"
  /\ snd m2 = TicketCreated "c2"
  /\ map (fun r => (ticket_id r, user_id r, status r)) (liveTicketsOf "7" (db (fst m2)))
     ≡ₚ [("ticket-7-aaaaaa", "7", "open"); ("ticket-7-bbbbbb", "7", "open")]
  /\ length (liveTicketsOf "7" (db (fst m2))) = 2%nat.
Proof.
  vm_compute. repeat split; try reflexivity.
Qed.

End OneTicketPerUser.

(** ** Tic-Tac-Toe: the search *)

Section Minimax.

Import TicTacToe.

Lemma availableFrom_spec (board : Board) (k i : nat) :
  i ∈ availableFrom k board <-> exists j, i = (k + j)%nat /\ board !! j = Some None.
Proof.
  revert k. induction board as [|c r IH]; intros k; simpl.
  - split; [intros H; inversion H | intros (j & _ & H); done].
  - destruct c as [s|].
    + rewrite IH. split.
      * intros (j & -> & Hj). exists (S j). split; [lia | done].
      * intros (j & -> & Hj). destruct j as [|j]; [done|].
        exists j. split; [lia | done].
    + rewrite elem_of_cons, IH. split.
      * intros [-> | (j & -> & Hj)].
        -- exists 0%nat. split; [lia | done].
        -- exists (S j). split; [lia | done].
      * intros (j & -> & Hj). destruct j as [|j].
        -- left. lia.
        -- right. exists j. split; [lia | done].
Qed.

Lemma availableMoves_spec (board : Board) (i : nat) :
  i ∈ availableMoves board <-> board !! i = Some None.
Proof.
  unfold availableMoves. rewrite availableFrom_spec. split.
  - intros (j & -> & Hj). done.
  - intros Hi. exists i. done.
Qed.

(** Marking an empty cell leaves one empty cell fewer. *)
Lemma availableFrom_insert (board : Board) (k j : nat) (s : Sym) :
  board !! j = Some None ->
  S (length (availableFrom k (<[j := Some s]> board))) = length (availableFrom k board).
Proof.
  revert k j. induction board as [|c r IH]; intros k j Hj; [done|].
  destruct j as [|j]; simpl in *.
  - inversion Hj; subst. reflexivity.
  - destruct c; simpl; [by apply IH|]. f_equal. by apply IH.
Qed.

Lemma emptyCount_insert (board : Board) (j : nat) (s : Sym) :
  board !! j = Some None ->
  S (emptyCount (<[j := Some s]> board)) = emptyCount board.
Proof. apply availableFrom_insert. Qed.

Lemma boardFull_false_available (board : Board) (k : nat) :
  boardFull board = false -> availableFrom k board <> [].
Proof.
  revert k. induction board as [|c r IH]; intros k; simpl; [done|].
  destruct c; simpl; [apply IH | done].
Qed.

(** An undecided board has a free cell. *)
Lemma undecided_has_move (board : Board) :
  checkTicTacToeWinner board = NoWinner -> availableMoves board <> [].
Proof.
  unfold checkTicTacToeWinner.
  destruct (firstLine board winPatterns); [done|].
  destruct (boardFull board) eqn:Hfull; [done|].
  intros _. by apply boardFull_false_available.
Qed.

Lemma pickMax_cases (ms : list Move) (bs : Z) (best : option Move) :
  pickMax ms bs best = best \/ exists m, pickMax ms bs best = Some m /\ m ∈ ms.
Proof.
  revert bs best. induction ms as [|m r IH]; intros bs best; simpl; [by left|].
  destruct (bs <? score m).
  - right. destruct (IH (score m) (Some m)) as [-> | (m' & -> & Hin)].
    + exists m. split; [done | apply elem_of_cons; by left].
    + exists m'. split; [done | apply elem_of_cons; by right].
  - destruct (IH bs best) as [-> | (m' & -> & Hin)]; [by left|].
    right. exists m'. split; [done | apply elem_of_cons; by right].
Qed.

Lemma pickMin_cases (ms : list Move) (bs : Z) (best : option Move) :
  pickMin ms bs best = best \/ exists m, pickMin ms bs best = Some m /\ m ∈ ms.
Proof.
  revert bs best. induction ms as [|m r IH]; intros bs best; simpl; [by left|].
  destruct (score m <? bs).
  - right. destruct (IH (score m) (Some m)) as [-> | (m' & -> & Hin)].
    + exists m. split; [done | apply elem_of_cons; by left].
    + exists m'. split; [done | apply elem_of_cons; by right].
  - destruct (IH bs best) as [-> | (m' & -> & Hin)]; [by left|].
    right. exists m'. split; [done | apply elem_of_cons; by right].
Qed.

(** With scores between -10 and 10 the first move always replaces the
    initial [bestScore], so [bestMove] is defined for a non-empty list. *)
Lemma pickMax_defined (ms : list Move) :
  ms <> [] -> Forall boundedScore ms ->
  exists m, pickMax ms (-10000) None = Some m /\ m ∈ ms.
Proof.
  destruct ms as [|m r]; [done|]. intros _ Hb. simpl.
  assert (Hm : boundedScore m) by (by inversion Hb).
  unfold boundedScore in Hm.
  destruct (Z.ltb_spec (-10000) (score m)); [|lia].
  destruct (pickMax_cases r (score m) (Some m)) as [-> | (m' & -> & Hin)].
  - exists m. split; [done | apply elem_of_cons; by left].
  - exists m'. split; [done | apply elem_of_cons; by right].
Qed.

Lemma pickMin_defined (ms : list Move) :
  ms <> [] -> Forall boundedScore ms ->
  exists m, pickMin ms 10000 None = Some m /\ m ∈ ms.
Proof.
  destruct ms as [|m r]; [done|]. intros _ Hb. simpl.
  assert (Hm : boundedScore m) by (by inversion Hb).
  unfold boundedScore in Hm.
  destruct (Z.ltb_spec (score m) 10000); [|lia].
  destruct (pickMin_cases r (score m) (Some m)) as [-> | (m' & -> & Hin)].
  - exists m. split; [done | apply elem_of_cons; by left].
  - exists m'. split; [done | apply elem_of_cons; by right].
Qed.

(** When every child search yields a bounded score, [moves] holds one
    bounded entry per free cell, each carrying the index of its cell. *)
Lemma collect_defined (f : nat -> option Move) (cells : list nat) :
  (forall i, i ∈ cells -> exists r, f i = Some r /\ boundedScore r) ->
  exists ms, collect (map (fun i => (i, f i)) cells) = Some ms
    /\ length ms = length cells
    /\ Forall boundedScore ms
    /\ Forall (fun m => exists i, index m = Some i /\ i ∈ cells) ms.
Proof.
  induction cells as [|i r IH]; intros Hall; simpl.
  - exists []. repeat split; constructor.
  - destruct (Hall i) as (ri & Hri & Hbi); [apply elem_of_cons; by left|].
    rewrite Hri.
    destruct IH as (ms & -> & Hlen & Hb & Hidx).
    { intros j Hj. apply Hall. apply elem_of_cons. by right. }
    eexists. split; [done|]. simpl. repeat split.
    + by rewrite Hlen.
    + constructor; [exact Hbi | exact Hb].
    + constructor.
      * exists i. split; [done | apply elem_of_cons; by left].
      * eapply Forall_impl; [exact Hidx|]. intros m (j & ? & ?).
        exists j. split; [done | apply elem_of_cons; by right].
Qed.

(** The search terminates with a move object whenever the fuel exceeds
    the number of empty cells: its score lies between -10 and 10, and on
    an undecided board its index is a free cell. *)
Lemma minimax_defined (fuel : nat) (board : Board) (player opponent aiPlayer : Sym) :
  player <> opponent -> (emptyCount board < fuel)%nat ->
  exists m, minimax fuel board player opponent aiPlayer = Some m
    /\ boundedScore m
    /\ (checkTicTacToeWinner board = NoWinner ->
        exists i, index m = Some i /\ board !! i = Some None).
Proof.
  revert board player opponent. induction fuel as [|fuel IH];
    intros board player opponent Hpo Hfuel; [lia|].
  simpl.
  destruct (checkTicTacToeWinner board) as [s| |] eqn:Hw.
  - assert (Hs : s = player \/ s = opponent)
      by (destruct s, player, opponent; auto; congruence).
    repeat case_bool_decide; try (destruct Hs; congruence);
      eexists; (split; [reflexivity|]); (split; [unfold boundedScore; simpl; lia | done]).
  - repeat case_bool_decide; try congruence;
      eexists; (split; [reflexivity|]); (split; [unfold boundedScore; simpl; lia | done]).
  - repeat case_bool_decide; try congruence.
    + destruct (collect_defined
        (fun move => minimax fuel (<[move := Some player]> board) opponent player aiPlayer)
        (availableMoves board)) as (ms & -> & Hlen & Hb & Hidx).
      { intros i Hi. apply availableMoves_spec in Hi.
        destruct (IH (<[i := Some player]> board) opponent player) as (r & Hr & Hbr & _).
        - congruence.
        - pose proof (emptyCount_insert board i player Hi). lia.
        - eauto. }
      assert (Hne : ms <> []).
      { intros ->. apply (undecided_has_move _ Hw).
        apply length_zero_iff_nil. simpl in Hlen. lia. }
      destruct (pickMax_defined ms Hne Hb) as (m & -> & Hin).
      exists m. split; [done|]. split.
      * rewrite Forall_forall in Hb. by apply Hb.
      * intros _. rewrite Forall_forall in Hidx.
        destruct (Hidx m Hin) as (i & Hi & Hav).
        exists i. split; [done | by apply availableMoves_spec].
    + destruct (collect_defined
        (fun move => minimax fuel (<[move := Some player]> board) opponent player aiPlayer)
        (availableMoves board)) as (ms & -> & Hlen & Hb & Hidx).
      { intros i Hi. apply availableMoves_spec in Hi.
        destruct (IH (<[i := Some player]> board) opponent player) as (r & Hr & Hbr & _).
        - congruence.
        - pose proof (emptyCount_insert board i player Hi). lia.
        - eauto. }
      assert (Hne : ms <> []).
      { intros ->. apply (undecided_has_move _ Hw).
        apply length_zero_iff_nil. simpl in Hlen. lia. }
      destruct (pickMin_defined ms Hne Hb) as (m & -> & Hin).
      exists m. split; [done|]. split.
      * rewrite Forall_forall in Hb. by apply Hb.
      * intros _. rewrite Forall_forall in Hidx.
        destruct (Hidx m Hin) as (i & Hi & Hav).
        exists i. split; [done | by apply availableMoves_spec].
Qed.

Lemma emptyCount_le_length (board : Board) : (emptyCount board <= length board)%nat.
Proof.
  unfold emptyCount, availableMoves. generalize 0%nat.
  induction board as [|c r IH]; intros k; simpl; [lia|].
  destruct c; simpl; specialize (IH (S k)); lia.
Qed.

(** What the search returns at a decided board: 10 when the winner is the
    side to move at that node, -10 when it is the other side, 0 for a
    tie. *)
Lemma minimax_leaf (fuel : nat) (board : Board) (player opponent aiPlayer : Sym) :
  player <> opponent ->
  minimax (S fuel) board player opponent aiPlayer =
  match checkTicTacToeWinner board with
  | Won s => if bool_decide (s = player) then Some (mkMove None 10)
             else Some (mkMove None (-10))
  | Tie => Some (mkMove None 0)
  | NoWinner => minimax (S fuel) board player opponent aiPlayer
  end.
Proof.
  intros Hne. simpl.
  destruct (checkTicTacToeWinner board) as [s| |] eqn:Hw; try reflexivity.
  - destruct s, player, opponent; try congruence; reflexivity.
Qed.

(** On a board of nine cells the fuel of the move chooser is enough: in
    an undecided position the hard AI always answers with a free cell. *)
Lemma getTicTacToeAIMove_hard_defined (board : Board) (r1 r2 : Q) :
  length board = 9%nat -> checkTicTacToeWinner board = NoWinner ->
  exists i, GameHandler.getTicTacToeAIMove board X O GameHandler.hard r1 r2 = Some i
    /\ board !! i = Some None.
Proof.
  intros Hlen Hw. unfold GameHandler.getTicTacToeAIMove.
  destruct (minimax_defined 10 board O X O) as (m & -> & _ & Hidx); [done | |].
  - pose proof (emptyCount_le_length board). lia.
  - destruct (Hidx Hw) as (i & -> & Hi). eauto.
Qed.

(** C3 fails on the code.  A leaf is scored against the side to move at
    that node, not against the AI: the board the AI reaches by completing
    its own row is searched with the human to move and gets -10, the same
    score as a board the human has won.  Maximising and minimising follow
    the AI symbol as claimed, so the AI shuns its own wins. *)
Theorem minimax_scores_ai_win_as_minus_ten :
  let parent : Board :=
    [Some O; Some O; None; Some X; Some X; None; Some X; None; None] in
  let aiWins : Board := <[2%nat := Some O]> parent in
  let humanWins : Board :=
    [Some X; Some O; Some O; Some X; None; None; Some X; None; None] in
  checkTicTacToeWinner parent = NoWinner
  /\ checkTicTacToeWinner aiWins = Won O
  /\ minimax 9 aiWins X O O = Some (mkMove None (-10))
  /\ checkTicTacToeWinner humanWins = Won X
  /\ minimax 9 humanWins O X O = Some (mkMove None (-10))
  /\ (forall fuel board player opponent aiPlayer,
        player <> opponent ->
        checkTicTacToeWinner board = Won opponent ->
        minimax (S fuel) board player opponent aiPlayer = Some (mkMove None (-10))).
Proof.
  cbv zeta. split_conj; try (vm_compute; reflexivity).
  intros fuel board player opponent aiPlayer Hne Hw.
  rewrite minimax_leaf by done. rewrite Hw.
  case_bool_decide; [congruence | reflexivity].
Qed.





End Minimax.

(** ** Sessions: ending a game *)

Section GameEnd.

Import Utils Models TicTacToe GameHandler.

(** [endGame] leaves the session table alone. *)
Lemma endGame_activeGames g r now w :
  activeGames (endGame g r now w) = activeGames w.
Proof. reflexivity. Qed.

(** [endGame] cancels the state's own timer. *)
Lemma endGame_cancels g r now w h :
  timeout g = Some h -> h ∉ timers (endGame g r now w).
Proof.
  intros Hh. unfold endGame. rewrite Hh. simpl.
  intros Hin. apply list_elem_of_filter in Hin. by destruct Hin.
Qed.

(** [endGame] adds exactly one to the [games_played] of a stored user. *)
Lemma endGame_games_played g r now w u :
  users (db w) !! userId g = Some u ->
  exists u', users (db (endGame g r now w)) !! userId g = Some u'
    /\ games_played u' = games_played u + 1.
Proof.
  intros Hu. unfold endGame, User.updateGamesPlayed. simpl. rewrite Hu. simpl.
  eexists. rewrite lookup_insert_eq. done.
Qed.

(** [endGame] counts one [game_ended] event for the day; the first of
    the day stores the type, the result and the duration. *)
Lemma endGame_logs g r now w :
  analytics (db (endGame g r now w)) !! (today now, "game_ended") =
  Some match analytics (db w) !! (today now, "game_ended") with
       | Some row => mkAnalytics (value row + 1) (metadata row)
       | None => mkAnalytics 1
                   (MetaGameEnd (typeName (gameType g)) (resultName r) (now - startedAt g))
       end.
Proof.
  unfold endGame, logEvent, User.updateGamesPlayed. simpl.
  rewrite lookup_insert_eq.
  destruct (users (db w) !! userId g); reflexivity.
Qed.

(** The handlers of Rock-Paper-Scissors, Trivia, Hangman, Math and Number
    Guessing end a game through [finish], which removes the session. *)
Lemma finish_removes user g r now w :
  activeGames (finish user g r now w) !! user = None.
Proof. unfold finish. simpl. apply lookup_delete_eq. Qed.

Lemma finish_cancels user g r now w h :
  timeout g = Some h -> h ∉ timers (finish user g r now w).
Proof.
  intros Hh. unfold finish. simpl. rewrite Hh.
  intros Hin. apply list_elem_of_filter in Hin. by destruct Hin.
Qed.

(** The timeout path removes the entry it ends. *)
Lemma endGameByTimeout_removes gameId now w k g :
  List.find (fun kv => bool_decide (id (snd kv) = gameId))
    (map_to_list (activeGames w)) = Some (k, g) ->
  activeGames (fst (endGameByTimeout gameId now w)) !! k = None.
Proof.
  intros Hfind. unfold endGameByTimeout. rewrite Hfind. simpl.
  apply lookup_delete_eq.
Qed.

(** The Tic-Tac-Toe handler never removes a session, decided or not. *)
Lemma handleTicTacToeMove_keeps_session user moveIndex now rs w :
  is_Some (activeGames w !! user) ->
  is_Some (activeGames (fst (handleTicTacToeMove user moveIndex now rs w)) !! user).
Proof.
  intros [g Hg]. unfold handleTicTacToeMove. rewrite Hg.
  destruct (payload g); try (simpl; by rewrite Hg).
  destruct (board !! moveIndex) as [[s|]|]; try (simpl; by rewrite Hg).
  destruct (playTicTacToe board currentPlayer aiPlayer difficulty moveIndex
              (rs 0%nat) (rs 1%nat)) as [board' win].
  destruct (tttResult win currentPlayer); simpl; rewrite lookup_insert_eq; eauto.
Qed.

(** C1 fails on the code for Tic-Tac-Toe.  A game started by the bot and
    won by the player runs [endGame], which counts the game and logs
    [game_ended], but the session stays in the table with its winner
    set, and the next game selection is refused.  The Rock-Paper-Scissors
    handler, one of the five that call [activeGames.delete], leaves no
    session behind. *)
Theorem tictactoe_session_outlives_its_end :
  let w0 := fst (handleGameSelect "7" "tictactoe" 0 halves (worldWithUser "7" "ann")) in
  let w1 := fst (handleTicTacToeMove "7" 0 10 halves w0) in
  let w2 := fst (handleTicTacToeMove "7" 3 20 halves w1) in
  let w3 := fst (handleTicTacToeMove "7" 6 30 halves w2) in
  let r0 := fst (handleGameSelect "7" "rps" 0 halves (worldWithUser "7" "ann")) in
  let r1 := fst (handleRockPaperScissors "7" "rock" 10 halves r0) in
  activeGames w3 !! "7"
    = Some (mkGame (tictactoe, "7", 0) "7" 0 None (Some 30) None
              (TicTacToeP [Some X; Some O; Some O; Some X; None; None; Some X; None; None]
                 X O normal (Some (Won X))))
  /\ (games_played <$> users (db w3) !! "7") = Some 1
  /\ analytics (db w3) !! (today 30, "game_ended")
     = Some (mkAnalytics 1 (MetaGameEnd "tictactoe" "win" 30))
  /\ snd (handleGameSelect "7" "tictactoe" 20000 halves w3) = AlreadyActiveGame
  /\ activeGames r1 !! "7" = None
  /\ (games_played <$> users (db r1) !! "7") = Some 1.
Proof.
  cbv zeta. split_conj; vm_compute; reflexivity.
Qed.

End GameEnd.

(** ** Sessions: one per user *)

Section OneSessionPerUser.

Import Utils Models TicTacToe GameHandler.

Lemma keyedByUser_insert user g w w' :
  keyedByUser w -> userId g = user ->
  activeGames w' = <[user := g]> (activeGames w) -> keyedByUser w'.
Proof.
  intros Hinv Hu Heq k g' Hk. rewrite Heq in Hk.
  destruct (decide (user = k)) as [->|Hne].
  - rewrite lookup_insert_eq in Hk. congruence.
  - rewrite lookup_insert_ne in Hk by done. by apply Hinv.
Qed.

Lemma keyedByUser_delete user w w' :
  keyedByUser w -> activeGames w' = delete user (activeGames w) -> keyedByUser w'.
Proof.
  intros Hinv Heq k g' Hk. rewrite Heq in Hk.
  apply lookup_delete_Some in Hk. apply Hinv. by destruct Hk.
Qed.

Lemma keyedByUser_same w w' :
  keyedByUser w -> activeGames w' = activeGames w -> keyedByUser w'.
Proof. intros Hinv Heq k g Hk. rewrite Heq in Hk. by apply Hinv. Qed.

Lemma register_keyed user g d now w :
  keyedByUser w -> userId g = user -> keyedByUser (fst (register user g d now w)).
Proof.
  intros Hinv Hu. eapply keyedByUser_insert; [exact Hinv | exact Hu | reflexivity].
Qed.

Lemma finish_keyed user g r now w :
  keyedByUser w -> keyedByUser (finish user g r now w).
Proof.
  intros Hinv. unfold finish. intros k g' Hk. simpl in Hk.
  apply lookup_delete_Some in Hk. destruct Hk as [Hne Hk].
  rewrite lookup_insert_ne in Hk by done. by apply Hinv.
Qed.

Lemma handleGameSelect_keyed user v now rs w :
  keyedByUser w -> keyedByUser (fst (handleGameSelect user v now rs w)).
Proof.
  intros Hinv. unfold handleGameSelect.
  destruct (checkRateLimit (rateLimits w) user GAME_RATE_LIMIT now) as [rl ok].
  destruct ok; simpl; [|by apply (keyedByUser_same w)].
  destruct (activeGames w !! user) eqn:Hu; [by apply (keyedByUser_same w)|].
  destruct (parseGameType v) as [[]|]; try (by apply (keyedByUser_same w));
    apply register_keyed; try reflexivity; by apply (keyedByUser_same w).
Qed.

Lemma handleTicTacToeMove_keyed user i now rs w :
  keyedByUser w -> keyedByUser (fst (handleTicTacToeMove user i now rs w)).
Proof.
  intros Hinv. unfold handleTicTacToeMove.
  destruct (activeGames w !! user) as [g|] eqn:Hg; [|done].
  pose proof (Hinv _ _ Hg) as Hu.
  destruct (payload g); try done.
  destruct (board !! i) as [[s|]|]; try done.
  destruct (playTicTacToe board currentPlayer aiPlayer difficulty i
              (rs 0%nat) (rs 1%nat)) as [board' win].
  destruct (tttResult win currentPlayer); simpl;
    (eapply keyedByUser_insert; [exact Hinv | | reflexivity]); exact Hu.
Qed.

Lemma handleMessage_keyed b gd user parsed now w :
  keyedByUser w -> keyedByUser (fst (handleMessage b gd user parsed now w)).
Proof.
  intros Hinv. unfold handleMessage.
  destruct (b || negb gd); [done|].
  destruct (activeGames w !! user) as [g|] eqn:Hg; [|done].
  pose proof (Hinv _ _ Hg) as Hu.
  destruct (gameType g); try done.
  - unfold handleMathAnswer. destruct (payload g); try done.
    destruct parsed as [a|]; [|done].
    destruct (a =? answer); [by apply finish_keyed|].
    destruct (maxAttempts <=? attempts + 1); [by apply finish_keyed|].
    simpl. eapply keyedByUser_insert; [exact Hinv | | reflexivity]. exact Hu.
  - unfold handleGuess. destruct (payload g); try done.
    destruct parsed as [n|]; [|done].
    destruct ((n <? GUESSING_MIN) || (GUESSING_MAX <? n)); [done|].
    destruct (n =? number); [by apply finish_keyed|].
    destruct (maxAttempts - (attempts + 1) <=? 0); [by apply finish_keyed|].
    simpl. eapply keyedByUser_insert; [exact Hinv | | reflexivity]. exact Hu.
Qed.

Lemma handleHangmanGuessModal_keyed user raw now w :
  keyedByUser w -> keyedByUser (fst (handleHangmanGuessModal user raw now w)).
Proof.
  intros Hinv. unfold handleHangmanGuessModal.
  destruct (negb (isLowerLetter (toLowerCase raw))); [done|].
  destruct (activeGames w !! user) as [g|] eqn:Hg; [|done].
  pose proof (Hinv _ _ Hg) as Hu.
  destruct (payload g); try done.
  destruct (guessedIncludes guessed (toLowerCase raw)); [done|].
  destruct (includes word (toLowerCase raw)); cbv zeta beta iota.
  - destruct (String.eqb (reveal word (guessed ++ [toLowerCase raw])%list) word);
      [by apply finish_keyed|].
    destruct (maxWrongGuesses <=? wrongGuesses); [by apply finish_keyed|].
    simpl. eapply keyedByUser_insert; [exact Hinv | | reflexivity]. exact Hu.
  - destruct (String.eqb display word); [by apply finish_keyed|].
    destruct (maxWrongGuesses <=? wrongGuesses + 1); [by apply finish_keyed|].
    simpl. eapply keyedByUser_insert; [exact Hinv | | reflexivity]. exact Hu.
Qed.

Lemma fireTimer_keyed gid now w :
  keyedByUser w -> keyedByUser (fst (fireTimer gid now w)).
Proof.
  intros Hinv. unfold fireTimer. case_bool_decide; [|done].
  unfold endGameByTimeout. simpl.
  destruct (List.find _ _) as [[k g]|]; simpl.
  - eapply keyedByUser_delete; [exact Hinv | reflexivity].
  - by apply (keyedByUser_same w).
Qed.

(** Every handler keeps sessions under the id of their user. *)
Lemma handle_keyed e w : keyedByUser w -> keyedByUser (fst (handle e w)).
Proof.
  intros Hinv. destruct e; simpl.
  - by apply handleGameSelect_keyed.
  - by apply handleTicTacToeMove_keyed.
  - unfold handleRockPaperScissors.
    destruct (activeGames w !! user) as [g|]; [|done].
    destruct (payload g); try done. by apply finish_keyed.
  - unfold handleTrivia.
    destruct (activeGames w !! user) as [g|]; [|done].
    destruct (payload g); try done. by apply finish_keyed.
  - by apply handleHangmanGuessModal_keyed.
  - by apply handleMessage_keyed.
  - by apply fireTimer_keyed.
Qed.

Lemma run_keyed es w : keyedByUser w -> keyedByUser (run es w).
Proof.
  revert w. induction es as [|e es IH]; intros w Hinv; [done|].
  simpl. apply IH. by apply handle_keyed.
Qed.

Lemma emptyWorld_keyed : keyedByUser emptyWorld.
Proof. intros k g Hk. simpl in Hk. by rewrite lookup_empty in Hk. Qed.

Lemma no_sessions_without_entry (m : gmap string GameState) (user : string) :
  (forall k g, m !! k = Some g -> userId g = k) -> m !! user = None ->
  filter (fun g => userId g = user) (map snd (map_to_list m)) = [].
Proof.
  intros Hinv Hnone.
  destruct (filter _ _) as [|g l] eqn:Hf; [done|]. exfalso.
  assert (Hin : g ∈ filter (fun g => userId g = user) (map snd (map_to_list m)))
    by (rewrite Hf; apply elem_of_cons; by left).
  apply list_elem_of_filter in Hin. destruct Hin as [Hu Hin].
  apply list_elem_of_fmap in Hin. destruct Hin as ([k g'] & -> & Hkg).
  apply elem_of_map_to_list in Hkg. simpl in Hu.
  pose proof (Hinv _ _ Hkg). congruence.
Qed.

(** In a table keyed by user, at most one session belongs to a user. *)
Lemma sessionsOf_at_most_one user w :
  keyedByUser w -> (length (sessionsOf user w) <= 1)%nat.
Proof.
  intros Hinv. unfold sessionsOf.
  destruct (activeGames w !! user) as [g|] eqn:Hg.
  - rewrite <- (insert_delete_id (activeGames w) user g Hg).
    assert (Hperm : map snd (map_to_list (<[user := g]> (delete user (activeGames w))))
                    ≡ₚ g :: map snd (map_to_list (delete user (activeGames w)))).
    { rewrite map_to_list_insert by apply lookup_delete_eq. done. }
    rewrite Hperm. rewrite filter_cons.
    rewrite (no_sessions_without_entry (delete user (activeGames w)) user).
    + destruct (decide (userId g = user)); simpl; lia.
    + intros k g' Hk. apply lookup_delete_Some in Hk. apply Hinv. by destruct Hk.
    + apply lookup_delete_eq.
  - rewrite (no_sessions_without_entry _ user Hinv Hg). simpl. lia.
Qed.

(** C8.  After any run of the game handler every user has at most one
    session, and a game selection by a user who has one is answered with
    a refusal and leaves the session table exactly as it was. *)
Theorem one_session_per_user
    (es : list Event) (user gameTypeValue : string) (now : Z) (rs : nat -> Q)
    (g : GameState)
    (Hactive : activeGames (run es emptyWorld) !! user = Some g) :
  let w := run es emptyWorld in
  let w' := fst (handleGameSelect user gameTypeValue now rs w) in
  (forall u, (length (sessionsOf u w) <= 1)%nat)
  /\ activeGames w' = activeGames w
  /\ activeGames w' !! user = Some g
  /\ (snd (handleGameSelect user gameTypeValue now rs w) = AlreadyActiveGame
      \/ snd (handleGameSelect user gameTypeValue now rs w) = PlayingTooQuickly)
  /\ (forall u, (length (sessionsOf u w') <= 1)%nat).
Proof.
  cbv zeta.
  pose proof (run_keyed es emptyWorld emptyWorld_keyed) as Hinv.
  assert (Hsame : activeGames (fst (handleGameSelect user gameTypeValue now rs
                                      (run es emptyWorld)))
                  = activeGames (run es emptyWorld)
                  /\ (snd (handleGameSelect user gameTypeValue now rs (run es emptyWorld))
                      = AlreadyActiveGame
                      \/ snd (handleGameSelect user gameTypeValue now rs (run es emptyWorld))
                         = PlayingTooQuickly)).
  { unfold handleGameSelect.
    destruct (checkRateLimit (rateLimits (run es emptyWorld)) user GAME_RATE_LIMIT now)
      as [rl ok].
    destruct ok; simpl; [rewrite Hactive|]; simpl; auto. }
  destruct Hsame as [Hsame Hreply].
  split_conj.
  - intros u. by apply sessionsOf_at_most_one.
  - exact Hsame.
  - by rewrite Hsame.
  - exact Hreply.
  - intros u. apply sessionsOf_at_most_one. by apply handleGameSelect_keyed.
Qed.

Lemma one_session_per_user_witness :
  let es := [GameSelect "7" "hangman" 0 halves] in
  snd (handleGameSelect "7" "rps" 5000 halves (run es emptyWorld)) = AlreadyActiveGame
  /\ (length (sessionsOf "7" (fst (handleGameSelect "7" "rps" 5000 halves
                                     (run es emptyWorld)))) <= 1)%nat.
Proof.
  cbv zeta.
  assert (Hactive : activeGames (run [GameSelect "7" "hangman" 0 halves] emptyWorld) !! "7"
            = Some (mkGame (hangman, "7", 0) "7" 0 (Some (hangman, "7", 0)) None None
                      (HangmanP "algorithm" [] 0 6 "_________")))
    by (vm_compute; reflexivity).
  pose proof (one_session_per_user [GameSelect "7" "hangman" 0 halves] "7" "rps" 5000
                halves _ Hactive) as H.
  cbv zeta in H. destruct H as (_ & _ & _ & Hreply & Hone).
  split; [|apply Hone].
  vm_compute. reflexivity.
Defined.

End OneSessionPerUser.

(** ** The Math Challenge *)

Section MathChallenge.

Import Utils Models GameHandler.

(** The operands lie between 1 and the range of the difficulty. *)
Lemma generateMathQuestion_operands d r1 r2 r3 :
  (0 <= r2)%Q -> (r2 < 1)%Q -> (0 <= r3)%Q -> (r3 < 1)%Q ->
  let q := generateMathQuestion d r1 r2 r3 in
  1 <= num1 q <= range (MATH_DIFFICULTIES d)
  /\ 1 <= num2 q <= range (MATH_DIFFICULTIES d).
Proof.
  intros H2 H2' H3 H3'. cbv zeta. unfold generateMathQuestion, randomIndex.
  cbn [num1 num2].
  assert (Hfloor : forall r n, (0 <= r)%Q -> (r < 1)%Q -> 0 < n ->
            0 <= Qfloor (r * inject_Z n) < n).
  { intros r n Hr0 Hr1 Hn. split.
    - change 0 with (Qfloor 0). apply Qfloor_resp_le.
      apply Qmult_le_0_compat; [done|]. unfold Qle, inject_Z; simpl. lia.
    - rewrite Zlt_Qlt. eapply Qle_lt_trans; [apply Qfloor_le|].
      apply Qlt_le_trans with (1 * inject_Z n)%Q.
      + apply Qmult_lt_r; [|done]. unfold Qlt, inject_Z; simpl. lia.
      + rewrite Qmult_1_l. apply Qle_refl. }
  assert (Hrange : 0 < range (MATH_DIFFICULTIES d)) by (destruct d; simpl; lia).
  pose proof (Hfloor r2 _ H2 H2' Hrange).
  pose proof (Hfloor r3 _ H3 H3' Hrange).
  lia.
Qed.

(** The stored answer is the value of the stored question. *)
Lemma startMathGame_precomputes user now rs w :
  exists g d q,
    snd (startMathGame user now rs w) = GameStarted g
    /\ payload g = MathP d q (calculateMathAnswer q) 0 1.
Proof. unfold startMathGame, register. simpl. eauto. Qed.

(** With one attempt allowed, the first numeric reply ends the game: as
    a win when it equals the answer, as a loss otherwise; either way the
    session is removed. *)
Lemma handleMathAnswer_single_attempt user now g w d q answer userAnswer :
  payload g = MathP d q answer 0 1 ->
  let out := handleMathAnswer user (Some userAnswer) now g w in
  activeGames (fst out) !! user = None
  /\ snd out = (if userAnswer =? answer then MathCorrect else MathGameOver).
Proof.
  intros Hp. cbv zeta. unfold handleMathAnswer. rewrite Hp. simpl.
  destruct (userAnswer =? answer); simpl; split; try done; apply lookup_delete_eq.
Qed.

(** C9 fails on the code.  The list of operations starts out with the
    multiplication sign, and the configuration flag only adds a second
    copy: a question of difficulty ['easy'] or ['normal'], whose
    configuration has no multiplication, can multiply. *)
Theorem easy_math_question_can_multiply :
  let started :=
    handleGameSelect "7" "math" 0 multiplicationDraws (worldWithUser "7" "ann") in
  includeMultiplication (MATH_DIFFICULTIES easy) = false
  /\ includeMultiplication (MATH_DIFFICULTIES normal) = false
  /\ generateMathQuestion easy (7 # 10) (1 # 2) (1 # 2) = mkQuestion 6 Mul 6
  /\ generateMathQuestion normal (7 # 10) (1 # 2) (1 # 2) = mkQuestion 26 Mul 26
  /\ snd started
     = GameStarted (mkGame (math, "7", 0) "7" 0 (Some (math, "7", 0)) None None
                      (MathP easy (mkQuestion 6 Mul 6) 36 0 1)).
Proof.
  cbv zeta. split_conj; vm_compute; reflexivity.
Qed.

End MathChallenge.

(** ** Hangman: a repeated letter *)

Section HangmanRepeat.

Import Utils Models GameHandler.

(** C10.  In a live Hangman game a letter that was guessed before is
    answered with a notice and changes nothing: the world, and with it
    the guessed letters, the wrong-guess counter, the display and the
    session itself, is returned as it was.  This holds for the handler of
    the game engine and for the stand-alone Hangman class. *)
Theorem hangman_repeated_letter_changes_nothing
    (w : World) (user raw : string) (now : Z) (g : GameState)
    (word : string) (guessed : list string) (wrongGuesses maxWrongGuesses : Z)
    (display : string)
    (games : gmap string HangmanGame.Game) (gameId letter : string)
    (game : HangmanGame.Game)
    (Hsession : activeGames w !! user = Some g)
    (Hpayload : payload g = HangmanP word guessed wrongGuesses maxWrongGuesses display)
    (Hletter : isLowerLetter (toLowerCase raw) = true)
    (Hrepeat : guessedIncludes guessed (toLowerCase raw) = true)
    (Hgame : games !! gameId = Some game)
    (Hplayer : HangmanGame.playerId game = user)
    (Hlive : HangmanGame.gameOver game = false)
    (Hrepeat' : toUpperCase letter ∈ HangmanGame.guessedLetters game) :
  handleHangmanGuessModal user raw now w = (w, AlreadyGuessedLetter)
  /\ HangmanGame.handleGuess user letter gameId games = (games, HangmanGame.AlreadyGuessed).
Proof.
  split.
  - unfold handleHangmanGuessModal. rewrite Hletter, Hsession, Hpayload. simpl.
    by rewrite Hrepeat.
  - unfold HangmanGame.handleGuess. rewrite Hgame, Hplayer, String.eqb_refl, Hlive.
    simpl. by rewrite bool_decide_eq_true_2.
Qed.

Lemma hangman_repeated_letter_changes_nothing_witness :
  let g := mkGame (hangman, "7", 0) "7" 0 (Some (hangman, "7", 0)) None None
             (HangmanP "network" ["e"; "q"] 1 6 "_e_____") in
  let w := mkWorld {[ "7" := g ]} ∅ [(hangman, "7", 0)] emptyDb in
  let game := HangmanGame.mkGame "7" "NETWORK" "_E_____" {[ "E"; "Q" ]} 1 6 false in
  handleHangmanGuessModal "7" "E" 50 w = (w, AlreadyGuessedLetter)
  /\ HangmanGame.handleGuess "7" "q" "hangman_7_0" {[ "hangman_7_0" := game ]}
     = ({[ "hangman_7_0" := game ]}, HangmanGame.AlreadyGuessed).
Proof.
  cbv zeta.
  eapply (hangman_repeated_letter_changes_nothing _ "7" "E" 50 _ "network" ["e"; "q"] 1 6
            "_e_____" _ "hangman_7_0" "q").
  - vm_compute; reflexivity.
  - reflexivity.
  - vm_compute; reflexivity.
  - vm_compute; reflexivity.
  - vm_compute; reflexivity.
  - reflexivity.
  - reflexivity.
  - vm_compute. set_solver.
Defined.

End HangmanRepeat.

(** * Further properties of the code *)

(** ** The rate limiter over time *)

Section RateLimiterRuns.

Import Utils Helpers.

Lemma calls_cons limits key t ts m :
  calls limits key (t :: ts) m =
  (allowed limits key t m :: fst (calls limits key ts (after limits key t m)),
   snd (calls limits key ts (after limits key t m))).
Proof.
  unfold allowed, after. cbn [calls].
  destruct (checkRateLimit m key limits t) as [m1 ok]. cbn [fst snd].
  destruct (calls limits key ts m1) as [oks m']. reflexivity.
Qed.

(** Calls that fall into the running window count on from its count. *)
Lemma calls_in_window limits key ts m c r :
  m !! key = Some (mkWindow c r) -> Forall (fun t => t <= r) ts ->
  fst (calls limits key ts m)
  = map (fun k => c + Z.of_nat k <=? MAX_REQUESTS limits) (seq 1 (length ts)).
Proof.
  revert m c. induction ts as [|t ts IH]; intros m c Hm Hall; [done|].
  inversion Hall as [|? ? Ht Hts]; subst.
  rewrite calls_cons. cbn [fst length seq map].
  destruct (check_next m key limits t c r Hm Ht) as [Hafter Hallowed].
  rewrite Hallowed. f_equal.
  rewrite (IH _ (c + 1) Hafter Hts).
  rewrite <- (seq_shift (length ts) 1), map_map. apply map_ext. intros k.
  f_equal. lia.
Qed.

(** X1.  Within one window the limiter lets through the first [M] calls
    and no more: after a call that opens a window, the [k]-th call of the
    window is allowed exactly when [k <= M], however the calls are spread
    over the window. *)
Theorem rate_limit_window_guarantee
    (limits : Limits) (key : string) (m : gmap string RateWindow)
    (t1 : Z) (ts : list Z)
    (Hwindow : 0 <= WINDOW_MS limits)
    (Hfirst : noRunningWindow m key t1)
    (Hinside : Forall (fun t => t <= t1 + WINDOW_MS limits) ts) :
  fst (calls limits key (t1 :: ts) m)
  = map (fun k => Z.of_nat k <=? MAX_REQUESTS limits) (seq 1 (S (length ts))).
Proof.
  rewrite calls_cons.
  destruct (check_first m key limits t1 Hwindow Hfirst) as [Hafter Hallowed].
  rewrite Hallowed. cbn [fst seq map]. f_equal.
  rewrite (calls_in_window limits key ts _ 1 _ Hafter Hinside).
  rewrite <- (seq_shift (length ts) 1), map_map. apply map_ext. intros k.
  f_equal. lia.
Qed.

Lemma rate_limit_window_guarantee_witness :
  fst (calls TICKET_RATE_LIMIT "7" [0; 100; 30000; 59000; 60000] ∅)
  = [true; true; true; false; false].
Proof.
  assert (Hw : 0 <= WINDOW_MS TICKET_RATE_LIMIT) by (simpl; lia).
  assert (Hf : noRunningWindow (∅ : gmap string RateWindow) "7" 0)
    by (vm_compute; exact I).
  assert (Hi : Forall (fun t => t <= 0 + WINDOW_MS TICKET_RATE_LIMIT)
                 [100; 30000; 59000; 60000])
    by (repeat constructor; simpl; lia).
  exact (rate_limit_window_guarantee TICKET_RATE_LIMIT "7" ∅ 0 _ Hw Hf Hi).
Defined.

Lemma cleanup_lookup now (m : gmap string RateWindow) k :
  cleanupRateLimits now m !! k
  = match m !! k with
    | Some w => if resetTime w <? now then None else Some w
    | None => None
    end.
Proof.
  unfold cleanupRateLimits.
  destruct (m !! k) as [w|] eqn:Hk.
  - destruct (Z.ltb_spec (resetTime w) now).
    + apply map_lookup_filter_None. right. intros w' Hw'. simpl.
      rewrite Hk in Hw'. inversion Hw'; subst. lia.
    + apply map_lookup_filter_Some. split; [done | simpl; lia].
  - apply map_lookup_filter_None. left. done.
Qed.

(** X2.  The sweep cannot be observed through the limiter: a check made
    at or after the sweep gives the same verdict and leaves the same
    window for its key as it would have without the sweep, and the sweep
    keeps exactly the entries whose window is still running. *)
Theorem cleanup_is_transparent
    (m : gmap string RateWindow) (key : string) (limits : Limits) (now now' : Z)
    (Hlater : now <= now') :
  allowed limits key now' (cleanupRateLimits now m) = allowed limits key now' m
  /\ after limits key now' (cleanupRateLimits now m) !! key
     = after limits key now' m !! key
  /\ (forall k w, cleanupRateLimits now m !! k = Some w
                  <-> m !! k = Some w /\ now <= resetTime w).
Proof.
  split_conj.
  - unfold allowed. rewrite !checkRateLimit_unfold. cbv zeta. simpl.
    unfold storedWindow. rewrite cleanup_lookup.
    destruct (m !! key) as [w|]; [|done]. simpl.
    destruct (Z.ltb_spec (resetTime w) now); [|done]. simpl.
    destruct (Z.ltb_spec (resetTime w) now'); [|lia].
    destruct (Z.ltb_spec (now' + WINDOW_MS limits) now'); done.
  - unfold after. rewrite !checkRateLimit_unfold. cbv zeta. simpl.
    rewrite !lookup_insert_eq. f_equal.
    unfold storedWindow. rewrite cleanup_lookup.
    destruct (m !! key) as [w|]; [|done]. simpl.
    destruct (Z.ltb_spec (resetTime w) now); [|done]. simpl.
    destruct (Z.ltb_spec (resetTime w) now'); [|lia].
    destruct (Z.ltb_spec (now' + WINDOW_MS limits) now'); done.
  - intros k w. rewrite cleanup_lookup.
    destruct (m !! k) as [w'|]; [|split; [done | by intros [? _]]].
    destruct (Z.ltb_spec (resetTime w') now); split.
    + done.
    + intros [Hw ?]. inversion Hw; subst. lia.
    + intros Hw. inversion Hw; subst. split; [done | lia].
    + by intros [? _].
Qed.

Lemma cleanup_is_transparent_witness :
  let m : gmap string RateWindow := {[ "7" := mkWindow 3 100 ]} in
  allowed GAME_RATE_LIMIT "7" 500 (cleanupRateLimits 200 m)
  = allowed GAME_RATE_LIMIT "7" 500 m.
Proof.
  cbv zeta.
  assert (Hlater : 200 <= 500) by lia.
  exact (proj1 (cleanup_is_transparent {[ "7" := mkWindow 3 100 ]} "7"
                  GAME_RATE_LIMIT 200 500 Hlater)).
Defined.

End RateLimiterRuns.

(** ** Sanitized user names *)

Section SanitizedNames.

Import Helpers.

Variable toLowerCase : list N -> list N.

Lemma replaceOthers_units s : Forall (fun u => isNameUnit u = true) (replaceOthers s).
Proof.
  unfold replaceOthers. apply Forall_fmap, Forall_forall. intros u _. simpl.
  unfold isNameUnit. destruct (isLowerAlnum u) eqn:Hu; [by rewrite Hu | done].
Qed.

Lemma collapseDashes_head a r : head (collapseDashes (a :: r)) = Some a.
Proof.
  revert a. induction r as [|b r IH]; intros a; [done|].
  cbn [collapseDashes].
  destruct ((a =? dash)%N && (b =? dash)%N) eqn:Hab; [|done].
  apply andb_prop in Hab. destruct Hab as [Ha Hb].
  apply N.eqb_eq in Ha, Hb. subst. apply IH.
Qed.

Lemma collapseDashes_units (P : N -> Prop) s :
  Forall P s -> Forall P (collapseDashes s).
Proof.
  induction s as [|a r IH]; intros Hall; [done|].
  inversion Hall as [|? ? Ha Hr]; subst.
  destruct r as [|b r']; [by constructor|].
  cbn [collapseDashes].
  destruct ((a =? dash)%N && (b =? dash)%N); [by apply IH|].
  constructor; [done | by apply IH].
Qed.

Lemma collapseDashes_step a b r :
  collapseDashes (a :: b :: r)
  = if (a =? dash)%N && (b =? dash)%N then collapseDashes (b :: r)
    else a :: collapseDashes (b :: r).
Proof. reflexivity. Qed.

Lemma collapseDashes_apart s : dashesApart (collapseDashes s) = true.
Proof.
  induction s as [|a r IH]; [done|].
  destruct r as [|b r']; [done|].
  rewrite collapseDashes_step.
  destruct ((a =? dash)%N && (b =? dash)%N) eqn:Hab; [exact IH|].
  pose proof (collapseDashes_head b r') as Hhead.
  destruct (collapseDashes (b :: r')) as [|c t] eqn:Hc; [done|].
  simpl in Hhead. inversion Hhead; subst c.
  change (negb ((a =? dash)%N && (b =? dash)%N) && dashesApart (b :: t) = true).
  rewrite Hab. exact IH.
Qed.

Lemma dashesApart_app l1 l2 :
  dashesApart (l1 ++ l2)%list = true -> dashesApart l1 = true /\ dashesApart l2 = true.
Proof.
  induction l1 as [|a l1 IH]; intros H; [done|].
  destruct l1 as [|b l1'].
  - simpl in *. split; [done|]. destruct l2; [done|].
    apply andb_prop in H. by destruct H.
  - cbn [app dashesApart] in *. apply andb_prop in H. destruct H as [Hab H].
    destruct (IH H) as [H1 H2]. rewrite Hab, H1. done.
Qed.

Lemma dashesApart_noDoubleDash s : dashesApart s = true -> noDoubleDash s.
Proof.
  induction s as [|a r IH]; intros H i Hi; [done|].
  destruct r as [|b r']; [by destruct i|].
  cbn [dashesApart] in H. apply andb_prop in H. destruct H as [Hab H].
  destruct i as [|i].
  - simpl in *. inversion Hi; subst. intros Hb. inversion Hb; subst. done.
  - simpl in Hi. simpl. by apply (IH H i).
Qed.

Lemma dropLeadingDash_suffix s : exists p, s = (p ++ dropLeadingDash s)%list.
Proof.
  destruct s as [|a r]; [by exists []|]. simpl.
  destruct (a =? dash)%N; [by exists [a] | by exists []].
Qed.

Lemma dropTrailingDash_prefix s : exists q, s = (dropTrailingDash s ++ q)%list.
Proof.
  unfold dropTrailingDash. destruct (rev s) as [|a r] eqn:Hr.
  - exists []. apply (f_equal (@rev N)) in Hr. rewrite rev_involutive in Hr.
    by rewrite Hr.
  - destruct (a =? dash)%N.
    + exists [a]. apply (f_equal (@rev N)) in Hr. rewrite rev_involutive in Hr.
      by rewrite Hr.
    + exists []. by rewrite app_nil_r.
Qed.

Lemma dropLeadingDash_head s :
  dashesApart s = true -> head (dropLeadingDash s) <> Some dash.
Proof.
  destruct s as [|a r]; [done|]. simpl.
  destruct (a =? dash)%N eqn:Ha.
  - apply N.eqb_eq in Ha. subst. destruct r as [|b r']; [done|].
    intros H. apply andb_prop in H. destruct H as [Hb _]. simpl.
    intros Heq. inversion Heq; subst. done.
  - intros _ Heq. inversion Heq; subst. done.
Qed.

Lemma dropTrailingDash_last s :
  dashesApart s = true -> last (dropTrailingDash s) <> Some dash.
Proof.
  unfold dropTrailingDash. intros H.
  destruct (rev s) as [|a r] eqn:Hr; [done|].
  apply (f_equal (@rev N)) in Hr. rewrite rev_involutive in Hr. simpl in Hr.
  destruct (a =? dash)%N eqn:Ha.
  - apply N.eqb_eq in Ha. subst a.
    destruct r as [|b r']; [done|]. simpl in Hr. simpl.
    rewrite last_snoc. intros Hb. inversion Hb; subst b.
    rewrite Hr in H. rewrite <- app_assoc in H.
    apply dashesApart_app in H. destruct H as [_ H]. done.
  - rewrite Hr, last_snoc. intros Hb. inversion Hb; subst. done.
Qed.

Lemma head_prefix (l q : list N) : l <> [] -> head (l ++ q)%list = head l.
Proof. by destruct l. Qed.

(** X3.  Whatever the input and the case mapping, a sanitized name is
    between 1 and 90 units long, consists of [a-z], [0-9] and dashes
    only, does not start with a dash and has no two dashes in a row; it
    can end in a dash only when it was cut at 90 units. *)
Theorem sanitizeUsername_shape (username : option (list N)) :
  let name := sanitizeUsername toLowerCase username in
  (1 <= length name <= 90)%nat
  /\ Forall (fun u => isNameUnit u = true) name
  /\ head name <> Some dash
  /\ noDoubleDash name
  /\ ((length name < 90)%nat -> last name <> Some dash).
Proof.
  cbv zeta.
  assert (Huser : (1 <= length userWord <= 90)%nat
                  /\ Forall (fun u => isNameUnit u = true) userWord
                  /\ head userWord <> Some dash
                  /\ noDoubleDash userWord
                  /\ ((length userWord < 90)%nat -> last userWord <> Some dash)).
  { split; [|split; [|split; [|split]]]; try (simpl; lia); try done.
    - repeat constructor.
    - by apply dashesApart_noDoubleDash. }
  destruct username as [[|c s]|]; try exact Huser.
  unfold sanitizeUsername.
  set (clean := collapseDashes (replaceOthers (toLowerCase (c :: s)))).
  assert (Hunits : Forall (fun u => isNameUnit u = true) clean)
    by apply collapseDashes_units, replaceOthers_units.
  assert (Hapart : dashesApart clean = true) by apply collapseDashes_apart.
  destruct (dropLeadingDash_suffix clean) as [p Hp].
  destruct (dropTrailingDash_prefix (dropLeadingDash clean)) as [q Hq].
  fold (trimDashes clean) in Hq.
  assert (Hapart1 : dashesApart (dropLeadingDash clean) = true).
  { rewrite Hp in Hapart. by apply dashesApart_app in Hapart as [_ ?]. }
  assert (Hapart2 : dashesApart (trimDashes clean) = true).
  { rewrite Hq in Hapart1. by apply dashesApart_app in Hapart1 as [? _]. }
  assert (Hunits2 : Forall (fun u => isNameUnit u = true) (trimDashes clean)).
  { rewrite Hp, Hq in Hunits. apply Forall_app in Hunits as [_ Hunits].
    by apply Forall_app in Hunits as [? _]. }
  destruct (trimDashes clean) as [|a t] eqn:Htrim.
  { exact Huser. }
  assert (Hhead : a <> dash).
  { pose proof (dropLeadingDash_head clean Hapart) as Hh.
    rewrite Hq in Hh. simpl in Hh. intros ->. by apply Hh. }
  assert (Hcut : a :: t = (firstn 90 (a :: t) ++ skipn 90 (a :: t))%list)
    by (symmetry; apply firstn_skipn).
  cbv beta iota zeta.
  split; [|split; [|split; [|split]]].
  - rewrite length_firstn. cbn [length]. lia.
  - rewrite Hcut in Hunits2. by apply Forall_app in Hunits2 as [? _].
  - simpl. intros Heq. inversion Heq; subst. done.
  - apply dashesApart_noDoubleDash. rewrite Hcut in Hapart2.
    by apply dashesApart_app in Hapart2 as [? _].
  - intros Hlen. rewrite length_firstn in Hlen. cbn [length] in Hlen.
    rewrite firstn_all2 by (cbn [length]; lia).
    rewrite <- Htrim. unfold trimDashes. by apply dropTrailingDash_last.
Qed.

End SanitizedNames.

(** The cut at 90 units can leave a dash at the end. *)
Lemma sanitizeUsername_cut_can_end_in_dash :
  last (Helpers.sanitizeUsername (fun s => s)
          (Some (replicate 89 97%N ++ [45%N; 98%N])%list))
  = Some Helpers.dash.
Proof. vm_compute. reflexivity. Qed.

(** ** Reading the owner back from a channel topic *)

Section TopicRoundTrip.

Import Utils Models TicketHandler Helpers.

Lemma list_ascii_append (a b : string) :
  list_ascii_of_string (a +:+ b)
  = (list_ascii_of_string a ++ list_ascii_of_string b)%list.
Proof.
  induction a as [|c a IH]; [done|].
  change (String c a +:+ b) with (String c (a +:+ b)). simpl. by rewrite IH.
Qed.

Lemma string_of_list_append (l1 l2 : list ascii) :
  string_of_list_ascii (l1 ++ l2)%list
  = string_of_list_ascii l1 +:+ string_of_list_ascii l2.
Proof.
  induction l1 as [|c l1 IH]; [done|]. simpl. rewrite IH. reflexivity.
Qed.

Lemma spanDigits_run (ds rest : list ascii) :
  Forall (fun c => isDigit c = true) ds ->
  spanDigits (ds ++ "("%char :: rest)%list = (ds, "("%char :: rest).
Proof.
  induction ds as [|d ds IH]; intros Hall; [done|].
  inversion Hall as [|? ? Hd Hds]; subst. simpl. rewrite Hd.
  by rewrite (IH Hds).
Qed.

Lemma spanDigits_split (l ds rest : list ascii) :
  spanDigits l = (ds, rest) ->
  l = (ds ++ rest)%list /\ Forall (fun c => isDigit c = true) ds.
Proof.
  revert ds rest. induction l as [|c l IH]; intros ds rest H.
  - inversion H; subst. done.
  - simpl in H. destruct (isDigit c) eqn:Hc.
    + destruct (spanDigits l) as [ds' rest'] eqn:Hs. inversion H; subst.
      destruct (IH ds' rest eq_refl) as [-> Hall]. split; [done|].
      by constructor.
    + inversion H; subst. done.
Qed.

(** The match against a string that ends in a parenthesised run of
    digits returns that run. *)
Lemma matchTrailingId_found (a d : string) :
  d <> "" -> allDigits d -> matchTrailingId (a +:+ "(" +:+ d +:+ ")") = Some d.
Proof.
  intros Hne Hd. unfold matchTrailingId.
  rewrite !list_ascii_append. simpl.
  rewrite !rev_app_distr. simpl. rewrite <- app_assoc. simpl.
  rewrite rev_app_distr. simpl.
  rewrite spanDigits_run by (by apply Forall_rev).
  destruct (rev (list_ascii_of_string d)) as [|c r] eqn:Hr.
  - exfalso. apply Hne.
    apply (f_equal (@rev ascii)) in Hr. rewrite rev_involutive in Hr.
    rewrite <- (string_of_list_ascii_of_string d), Hr. done.
  - change (rev r ++ [c])%list with (rev (c :: r)).
    rewrite <- Hr, rev_involutive, string_of_list_ascii_of_string. done.
Qed.

(** Whatever the match returns stands, in parentheses, at the very end of
    the topic, and is a non-empty run of digits. *)
Lemma matchTrailingId_sound (t d : string) :
  matchTrailingId t = Some d ->
  d <> "" /\ allDigits d /\ exists a, t = a +:+ "(" +:+ d +:+ ")".
Proof.
  unfold matchTrailingId. intros H.
  destruct (rev (list_ascii_of_string t)) as [|c r] eqn:Hr; [done|].
  destruct (Ascii.ascii_dec c ")"%char) as [->|Hc].
  2:{ destruct c as [[] [] [] [] [] [] [] []]; try done. }
  simpl in H.
  destruct (spanDigits r) as [ds rest] eqn:Hs.
  destruct ds as [|x ds]; [done|].
  destruct rest as [|y rest]; [done|].
  destruct (Ascii.ascii_dec y "("%char) as [->|Hy].
  2:{ destruct y as [[] [] [] [] [] [] [] []]; try done. }
  assert (Hd : d = string_of_list_ascii (rev (x :: ds)))
    by (simpl in H |- *; congruence).
  destruct (spanDigits_split _ _ _ Hs) as [-> Hall].
  apply (f_equal (@rev ascii)) in Hr. rewrite rev_involutive in Hr.
  split_conj.
  - rewrite Hd. intros Hempty.
    apply (f_equal list_ascii_of_string) in Hempty.
    rewrite list_ascii_of_string_of_list_ascii in Hempty. simpl in Hempty.
    by destruct (rev ds).
  - unfold allDigits. rewrite Hd, list_ascii_of_string_of_list_ascii.
    by apply Forall_rev.
  - exists (string_of_list_ascii (rev rest)).
    rewrite <- (string_of_list_ascii_of_string t), Hr, Hd.
    change "(" with (string_of_list_ascii ["("%char]).
    change ")" with (string_of_list_ascii [")"%char]).
    rewrite <- !string_of_list_append. f_equal.
    simpl. rewrite rev_app_distr. simpl. rewrite <- !app_assoc. reflexivity.
Qed.

(** X4.  The owner can always be read back from the topic of a channel
    that [createTicket] made: for a user id of digits, the topic matches
    the owner pattern and yields exactly that id; and the pattern never
    yields anything but a run of digits that closes the topic in
    parentheses. *)
Theorem created_topic_names_owner
    (userId uname userTag : string) (td : TicketData) (env : CreateEnv)
    (now : Z) (w : World) (chid : string)
    (Hid : userId <> "") (Hdigits : allDigits userId)
    (Hcreated : snd (createTicket userId uname userTag td env now w)
                = TicketCreated chid) :
  (exists c, last (channels (fst (createTicket userId uname userTag td env now w)))
             = Some c
     /\ chId c = chid
     /\ extractUserIdFromTopic c = Some userId)
  /\ (forall c d, extractUserIdFromTopic c = Some d ->
        d <> "" /\ allDigits d
        /\ exists t a, chTopic c = Some t /\ t = a +:+ "(" +:+ d +:+ ")").
Proof.
  split.
  - revert Hcreated. unfold createTicket.
    destruct (botCanManageChannels env); simpl; [|done].
    destruct (if categoryFound env then Some w else _) as [w1|]; [|done].
    destruct (newChannelId env) as [cid|]; [|done].
    destruct (Ticket.create _ _ _ _ _ _ _ _) as [db'|]; simpl; [|done].
    intros Hc. inversion Hc; subst cid.
    eexists. rewrite last_snoc. split; [done|]. split; [done|].
    unfold extractUserIdFromTopic. simpl.
    change (" (" +:+ userId +:+ ")") with (" " +:+ ("(" +:+ userId +:+ ")")).
    rewrite <- (string_app_assoc userTag " " ("(" +:+ userId +:+ ")")).
    rewrite <- (string_app_assoc "Ticket opened by " (userTag +:+ " ")
                  ("(" +:+ userId +:+ ")")).
    by apply matchTrailingId_found.
  - intros c d. unfold extractUserIdFromTopic.
    destruct (chTopic c) as [t|]; [|done].
    destruct (truthy t); [|done].
    intros Hm. destruct (matchTrailingId_sound t d Hm) as (? & ? & a & ?).
    eauto 6.
Qed.

Lemma created_topic_names_owner_witness :
  exists c, last (channels (fst (createTicket "7" "ann" "ann#0001"
                                   (mkData "support" []) (envFor "aaaaaa" "c1") 0
                                   emptyWorld))) = Some c
    /\ extractUserIdFromTopic c = Some "7".
Proof.
  assert (Hid : "7" <> "") by discriminate.
  assert (Hdigits : allDigits "7") by (repeat constructor).
  assert (Hcreated : snd (createTicket "7" "ann" "ann#0001" (mkData "support" [])
                            (envFor "aaaaaa" "c1") 0 emptyWorld)
                     = TicketCreated "c1") by (vm_compute; reflexivity).
  destruct (created_topic_names_owner "7" "ann" "ann#0001" (mkData "support" [])
              (envFor "aaaaaa" "c1") 0 emptyWorld "c1" Hid Hdigits Hcreated)
    as [(c & Hlast & _ & Hextract) _].
  exists c. split; assumption.
Defined.

End TopicRoundTrip.

(** ** Time differences and random strings *)

Section TimeAndRandom.

Import Helpers.

(** X5.  [getTimeDifference] does not depend on the order of its two
    instants, answers "less than a minute" exactly below 60000 ms, and
    otherwise names the largest unit that fits at least once, with the
    number of whole units and the plural ending exactly when that number
    exceeds one; hours stay below 24 and minutes below 60. *)
Theorem getTimeDifference_reads_right (start finish : Z) :
  let diff := Z.abs (finish - start) in
  getTimeDifference start finish = getTimeDifference finish start
  /\ (getTimeDifference start finish = LessThanAMinute <-> diff < 60000)
  /\ (forall n u plural,
        getTimeDifference start finish = Span n u plural ->
        1 <= n
        /\ n * unitMs u <= diff < (n + 1) * unitMs u
        /\ plural = (1 <? n)
        /\ match u with
           | Day => True
           | Hour => n < 24
           | Minute => n < 60
           end).
Proof.
  cbv zeta. split_conj.
  - unfold getTimeDifference.
    replace (Z.abs (start - finish)) with (Z.abs (finish - start)) by lia.
    reflexivity.
  - unfold getTimeDifference.
    set (diff := Z.abs (finish - start)).
    assert (Hd : 0 <= diff) by (unfold diff; lia).
    pose proof (Z.div_mod diff 60000 ltac:(lia)) as H1.
    pose proof (Z.mod_pos_bound diff 60000 ltac:(lia)) as H1'.
    pose proof (Z.div_mod (diff / 60000) 60 ltac:(lia)) as H2.
    pose proof (Z.mod_pos_bound (diff / 60000) 60 ltac:(lia)) as H2'.
    pose proof (Z.div_mod (diff / 60000 / 60) 24 ltac:(lia)) as H3.
    pose proof (Z.mod_pos_bound (diff / 60000 / 60) 24 ltac:(lia)) as H3'.
    destruct (Z.ltb_spec 0 (diff / 60000 / 60 / 24));
      [split; [done | lia]|].
    destruct (Z.ltb_spec 0 (diff / 60000 / 60));
      [split; [done | lia]|].
    destruct (Z.ltb_spec 0 (diff / 60000));
      [split; [done | lia]|].
    split; [lia | done].
  - intros n u plural. unfold getTimeDifference.
    set (diff := Z.abs (finish - start)).
    assert (Hd : 0 <= diff) by (unfold diff; lia).
    pose proof (Z.div_mod diff 60000 ltac:(lia)) as H1.
    pose proof (Z.mod_pos_bound diff 60000 ltac:(lia)) as H1'.
    pose proof (Z.div_mod (diff / 60000) 60 ltac:(lia)) as H2.
    pose proof (Z.mod_pos_bound (diff / 60000) 60 ltac:(lia)) as H2'.
    pose proof (Z.div_mod (diff / 60000 / 60) 24 ltac:(lia)) as H3.
    pose proof (Z.mod_pos_bound (diff / 60000 / 60) 24 ltac:(lia)) as H3'.
    destruct (Z.ltb_spec 0 (diff / 60000 / 60 / 24)).
    { intros Heq. inversion Heq; subst. simpl. split_conj; try done; lia. }
    destruct (Z.ltb_spec 0 (diff / 60000 / 60)).
    { intros Heq. inversion Heq; subst. simpl. split_conj; try done; lia. }
    destruct (Z.ltb_spec 0 (diff / 60000)).
    { intros Heq. inversion Heq; subst. simpl. split_conj; try done; lia. }
    done.
Qed.

Lemma unit_draw_index (r : Q) (n : Z) :
  unitDraw r -> 0 < n -> 0 <= Qfloor (r * inject_Z n) < n.
Proof.
  intros [Hr0 Hr1] Hn. split.
  - change 0 with (Qfloor 0). apply Qfloor_resp_le.
    apply Qmult_le_0_compat; [done|]. unfold Qle, inject_Z; simpl. lia.
  - rewrite Zlt_Qlt. eapply Qle_lt_trans; [apply Qfloor_le|].
    apply Qlt_le_trans with (1 * inject_Z n)%Q.
    + apply Qmult_lt_r; [|done]. unfold Qlt, inject_Z; simpl. lia.
    + rewrite Qmult_1_l. apply Qle_refl.
Qed.

Lemma charAt_randomChars (i : Z) :
  0 <= i < 62 ->
  exists c, charAt randomChars i = String c EmptyString /\ isAlnum c = true.
Proof.
  intros Hi. unfold charAt.
  destruct (Z.ltb_spec i 0); [lia|].
  assert (Hall : forallb (fun k =>
            match String.get k randomChars with
            | Some c => isAlnum c
            | None => false
            end) (seq 0 62) = true) by (vm_compute; reflexivity).
  rewrite forallb_forall in Hall.
  specialize (Hall (Z.to_nat i)).
  destruct (String.get (Z.to_nat i) randomChars) as [c|].
  - exists c. split; [done|]. apply Hall. apply in_seq. lia.
  - exfalso. assert (false = true); [|done]. apply Hall. apply in_seq. lia.
Qed.

(** X6.  With draws from the unit interval, [generateRandomString(n)]
    returns exactly [n] characters, each a Latin letter or a digit. *)
Theorem generateRandomString_shape (n : nat) (draws : nat -> Q)
    (Hdraws : forall i, unitDraw (draws i)) :
  String.length (generateRandomString n draws) = n
  /\ Forall (fun c => isAlnum c = true)
       (list_ascii_of_string (generateRandomString n draws)).
Proof.
  revert draws Hdraws. induction n as [|n IH]; intros draws Hdraws; [done|].
  cbn [generateRandomString].
  destruct (charAt_randomChars
              (Qfloor (draws 0%nat * inject_Z (Z.of_nat (String.length randomChars)))))
    as (c & -> & Hc).
  { apply (unit_draw_index (draws 0%nat) 62); [apply Hdraws | lia]. }
  destruct (IH (fun i => draws (S i)) (fun i => Hdraws (S i))) as [Hlen Hall].
  change (String c "" +:+ generateRandomString n (fun i => draws (S i)))
    with (String c (generateRandomString n (fun i => draws (S i)))).
  simpl. split; [by rewrite Hlen | by constructor].
Qed.

Lemma generateRandomString_shape_witness :
  String.length (generateRandomString 6 (fun _ => 1 # 2)) = 6%nat.
Proof.
  apply (generateRandomString_shape 6 (fun _ => 1 # 2)).
  intros i. split; unfold Qle, Qlt; simpl; lia.
Defined.

End TimeAndRandom.

(** ** Analytics rows *)

Section AnalyticsRows.

Import Models Accounting.

Lemma logEvent_lookup metric v md now db k :
  analytics (logEvent metric v md now db) !! k
  = if decide (k = (today now, metric))
    then Some match analytics db !! k with
              | Some r => mkAnalytics (value r + v) (metadata r)
              | None => mkAnalytics v md
              end
    else analytics db !! k.
Proof.
  unfold logEvent. simpl. case_decide as Hk.
  - subst k. by rewrite lookup_insert_eq.
  - rewrite lookup_insert_ne by congruence. done.
Qed.

Lemma logAll_cons c cs db :
  logAll (c :: cs) db
  = logAll cs (logEvent (lc_metric c) (lc_value c) (lc_metadata c) (lc_now c) db).
Proof. reflexivity. Qed.

(** X7.  The analytics table holds one row per day and metric: after any
    list of logged events the row's value is what was there before plus
    the sum of the values logged for that day and metric, and its
    metadata is that of the first event that made the row; the metadata
    of every later event is dropped.  Tickets and users are not
    touched. *)
Theorem logEvent_accumulates (cs : list LogCall) (db : Database)
    (day : Z) (metric : string) :
  analytics (logAll cs db) !! (day, metric)
  = match callsFor day metric cs, analytics db !! (day, metric) with
    | [], old => old
    | c :: l, None => Some (mkAnalytics (sumValues (c :: l)) (lc_metadata c))
    | l, Some r => Some (mkAnalytics (value r + sumValues l) (metadata r))
    end
  /\ tickets (logAll cs db) = tickets db
  /\ users (logAll cs db) = users db.
Proof.
  revert db. induction cs as [|c cs IH]; intros db.
  - simpl. split; [|done]. by destruct (analytics db !! (day, metric)).
  - rewrite logAll_cons.
    destruct (IH (logEvent (lc_metric c) (lc_value c) (lc_metadata c) (lc_now c) db))
      as (Ha & Ht & Hu).
    split; [|split; [by rewrite Ht | by rewrite Hu]].
    rewrite Ha, logEvent_lookup. unfold callsFor. rewrite filter_cons.
    fold (callsFor day metric cs).
    destruct (decide (today (lc_now c) = day /\ lc_metric c = metric)) as [[Hd Hm]|Hno].
    + rewrite decide_True by (by rewrite Hd, Hm).
      destruct (analytics db !! (day, metric)) as [r|];
        destruct (callsFor day metric cs) as [|c' l]; simpl; f_equal; f_equal; lia.
    + rewrite decide_False.
      2:{ intros Heq. inversion Heq; subst. by apply Hno. }
      done.
Qed.

End AnalyticsRows.

(** ** The counters of the users table *)

Section Counters.

Import Models Accounting.

Context (P : string * TicketRow -> Prop) `{!forall x, Decision (P x)}.

Lemma size_filter_fresh (m : gmap string TicketRow) i x :
  m !! i = None ->
  size (filter P (<[i := x]> m))
  = (size (filter P m) + (if decide (P (i, x)) then 1 else 0))%nat.
Proof.
  intros Hi. case_decide as Hp.
  - rewrite map_filter_insert_True by done.
    rewrite map_size_insert_None; [lia|].
    apply map_lookup_filter_None. by left.
  - rewrite map_filter_insert_False by done.
    rewrite delete_id by done. lia.
Qed.

Lemma size_filter_update (m : gmap string TicketRow) i x x' :
  m !! i = Some x ->
  (size (filter P (<[i := x']> m)) + (if decide (P (i, x)) then 1 else 0)
   = size (filter P m) + (if decide (P (i, x')) then 1 else 0))%nat.
Proof.
  intros Hi.
  assert (Hdel : size (filter P m)
                 = (size (filter P (delete i m))
                    + (if decide (P (i, x)) then 1 else 0))%nat).
  { rewrite <- (insert_delete_id m i x Hi) at 1.
    apply size_filter_fresh. apply lookup_delete_eq. }
  rewrite <- (insert_delete_eq m i x').
  rewrite size_filter_fresh by apply lookup_delete_eq.
  lia.
Qed.

End Counters.

Section CountersAgree.

Import Models Accounting.

Lemma logEvent_tables metric v md now db :
  tickets (logEvent metric v md now db) = tickets db
  /\ users (logEvent metric v md now db) = users db.
Proof. done. Qed.

Lemma no_user_no_tickets db u :
  countersAgree db -> users db !! u = None -> ticketsOf u db = 0%nat
  /\ closedTicketsOf u db = 0%nat.
Proof.
  intros [Hown _] Hu. unfold ticketsOf, closedTicketsOf.
  split; apply map_size_empty_iff, map_empty; intros k;
    apply map_lookup_filter_None; right; intros r Hk Hp; simpl in Hp;
    destruct (Hown k r Hk) as [row Hrow].
  - rewrite Hp in Hrow. congruence.
  - destruct Hp as [Hp _]. rewrite Hp in Hrow. congruence.
Qed.

Lemma create_keeps_counters ticketId channelId userId uname ty dat now db db' :
  countersAgree db ->
  Ticket.create ticketId channelId userId uname ty dat now db = Some db' ->
  countersAgree db'.
Proof.
  intros Hagree Hcreate. pose proof Hagree as [Hown Hcount].
  unfold Ticket.create in Hcreate.
  destruct (tickets db !! ticketId) eqn:Hfresh; [done|].
  inversion Hcreate; subst db'; clear Hcreate.
  set (row := mkTicket ticketId channelId userId uname ty "normal" "open" now
                None None None None None None dat).
  split.
  - intros k r. simpl. intros Hk.
    destruct (decide (k = ticketId)) as [->|Hne].
    + rewrite lookup_insert_eq in Hk. inversion Hk; subst r. simpl.
      rewrite lookup_insert_eq. eauto.
    + rewrite lookup_insert_ne in Hk by done.
      apply lookup_insert_is_Some'. right. by apply (Hown k r).
  - intros u urow. unfold ticketsOf, closedTicketsOf. simpl.
    rewrite !size_filter_fresh by done. simpl.
    destruct (decide (u = userId)) as [->|Hne].
    + rewrite lookup_insert_eq. intros Hrow. inversion Hrow; subst urow; clear Hrow.
      rewrite decide_True by done.
      rewrite decide_False by (intros [_ ?]; discriminate).
      destruct (users db !! userId) as [old|] eqn:Hold; simpl.
      * destruct (Hcount userId old Hold) as [Hc Hd].
        unfold ticketsOf, closedTicketsOf in Hc, Hd. lia.
      * destruct (no_user_no_tickets db userId Hagree Hold) as [Hc Hd].
        unfold ticketsOf, closedTicketsOf in Hc, Hd. lia.
    + rewrite lookup_insert_ne by done. intros Hrow.
      rewrite decide_False by congruence.
      rewrite decide_False by (intros [? _]; congruence).
      destruct (Hcount u urow Hrow) as [Hc Hd].
      unfold ticketsOf, closedTicketsOf in Hc, Hd. lia.
Qed.

Lemma claim_keeps_counters ticketId staffId now db :
  countersAgree db -> countersAgree (fst (Ticket.claim ticketId staffId now db)).
Proof.
  intros Hagree. pose proof Hagree as [Hown Hcount]. unfold Ticket.claim.
  destruct (tickets db !! ticketId) as [r|] eqn:Hr; [|done].
  destruct (String.eqb_spec (status r) "open") as [Hopen|]; [|done].
  simpl. split.
  - intros k r'. simpl. intros Hk.
    destruct (decide (k = ticketId)) as [->|Hne].
    + rewrite lookup_insert_eq in Hk. inversion Hk; subst r'. simpl.
      by apply (Hown ticketId r).
    + rewrite lookup_insert_ne in Hk by done. by apply (Hown k r').
  - intros u urow. simpl. intros Hrow.
    destruct (Hcount u urow Hrow) as [Hc Hd].
    unfold ticketsOf, closedTicketsOf in *. simpl.
    pose proof (size_filter_update (fun kv => user_id (snd kv) = u)
                  (tickets db) ticketId r
                  (mkTicket (ticket_id r) (channel_id r) (user_id r) (username r)
                     (type r) (priority r) "claimed" (created_at r) (Some staffId)
                     (Some now) (closed_by r) (closed_at r) (close_reason r)
                     (transcript_path r) (data r)) Hr) as H1.
    pose proof (size_filter_update
                  (fun kv => user_id (snd kv) = u /\ status (snd kv) = "closed")
                  (tickets db) ticketId r
                  (mkTicket (ticket_id r) (channel_id r) (user_id r) (username r)
                     (type r) (priority r) "claimed" (created_at r) (Some staffId)
                     (Some now) (closed_by r) (closed_at r) (close_reason r)
                     (transcript_path r) (data r)) Hr) as H2.
    simpl in H1, H2.
    destruct (decide (user_id r = u)).
    + rewrite (decide_False (P := _ /\ status r = "closed")) in H2
        by (rewrite Hopen; intros [_ ?]; discriminate).
      rewrite (decide_False (P := _ /\ "claimed" = "closed")) in H2
        by (intros [_ ?]; discriminate).
      lia.
    + rewrite (decide_False (P := _ /\ status r = "closed")) in H2 by (by intros [? _]).
      rewrite (decide_False (P := _ /\ "claimed" = "closed")) in H2 by (by intros [? _]).
      lia.
Qed.

Lemma close_keeps_counters ticketId staffId reason tp now db :
  countersAgree db -> countersAgree (fst (Ticket.close ticketId staffId reason tp now db)).
Proof.
  intros Hagree. pose proof Hagree as [Hown Hcount]. unfold Ticket.close.
  destruct (tickets db !! ticketId) as [r|] eqn:Hr; [|done].
  destruct (String.eqb (status r) "open" || String.eqb (status r) "claimed") eqn:Hlive;
    [|done].
  assert (Hnot : status r <> "closed").
  { intros Hc. rewrite Hc in Hlive. discriminate. }
  destruct (Hown ticketId r Hr) as [owner Howner].
  cbv zeta. cbn [user_id]. simpl users. rewrite Howner.
  set (r' := mkTicket (ticket_id r) (channel_id r) (user_id r) (username r)
               (type r) (priority r) "closed" (created_at r) (claimed_by r)
               (claimed_at r) (Some staffId) (Some now) (Some reason) tp (data r)).
  simpl. split.
  - intros k x. simpl. intros Hk. apply lookup_insert_is_Some'. right.
    destruct (decide (k = ticketId)) as [->|Hne].
    + rewrite lookup_insert_eq in Hk. inversion Hk; subst x. simpl.
      by apply (Hown ticketId r).
    + rewrite lookup_insert_ne in Hk by done. by apply (Hown k x).
  - intros u urow. simpl. intros Hrow.
    unfold ticketsOf, closedTicketsOf. simpl.
    pose proof (size_filter_update (fun kv => user_id (snd kv) = u)
                  (tickets db) ticketId r r' Hr) as H1.
    pose proof (size_filter_update
                  (fun kv => user_id (snd kv) = u /\ status (snd kv) = "closed")
                  (tickets db) ticketId r r' Hr) as H2.
    simpl in H1, H2.
    destruct (decide (u = user_id r)) as [->|Hne].
    + rewrite lookup_insert_eq in Hrow. inversion Hrow; subst urow; clear Hrow.
      destruct (Hcount (user_id r) owner Howner) as [Hc Hd].
      unfold ticketsOf, closedTicketsOf in Hc, Hd. simpl.
      rewrite (decide_True (P := user_id r = user_id r)) in H1 by done.
      rewrite (decide_False (P := _ /\ status r = "closed")) in H2 by (by intros [_ ?]).
      rewrite (decide_True (P := _ /\ "closed" = "closed")) in H2 by done.
      lia.
    + rewrite lookup_insert_ne in Hrow by done.
      destruct (Hcount u urow Hrow) as [Hc Hd].
      unfold ticketsOf, closedTicketsOf in Hc, Hd.
      rewrite (decide_False (P := user_id r = u)) in H1 by congruence.
      rewrite (decide_False (P := _ /\ status r = "closed")) in H2
        by (intros [? _]; congruence).
      rewrite (decide_False (P := _ /\ "closed" = "closed")) in H2
        by (intros [? _]; congruence).
      lia.
Qed.

Lemma applyTicketOp_keeps_counters op db :
  countersAgree db -> countersAgree (applyTicketOp op db).
Proof.
  intros Hagree. destruct op; simpl.
  - destruct (Ticket.create _ _ _ _ _ _ _ _) as [db'|] eqn:Hc; [|done].
    by eapply create_keeps_counters.
  - by apply claim_keeps_counters.
  - by apply close_keeps_counters.
Qed.

(** X8.  The counters kept in [users] never drift from the [tickets]
    table: after any series of creations, claims and closes on an empty
    store, every ticket's owner has a row, and each row's
    [tickets_created] is the number of that user's tickets and its
    [tickets_closed] the number of them that are closed. *)
Theorem ticket_counters_agree (ops : list TicketOp) :
  countersAgree (runTicketOps ops emptyDb).
Proof.
  assert (Hgen : forall db, countersAgree db -> countersAgree (runTicketOps ops db)).
  { induction ops as [|op ops IH]; intros db Hdb; [done|].
    simpl. apply IH. by apply applyTicketOp_keeps_counters. }
  apply Hgen. split.
  - intros k r Hk. simpl in Hk. by rewrite lookup_empty in Hk.
  - intros u row Hrow. simpl in Hrow. by rewrite lookup_empty in Hrow.
Qed.

End CountersAgree.

(** ** A ticket from creation to close *)

Section FullLifecycle.

Import Models.

(** X10.  A ticket created under a fresh id can be claimed and then
    closed: the three calls succeed in this order, the stored row ends up
    closed with the claimer, the closer, the reason and the three
    instants, the owner's created and closed counters have each grown by
    one, no other ticket is touched, and the id cannot be created
    again. *)
Theorem ticket_full_lifecycle
    (db : Database) (ticketId channelId userId uname ty : string)
    (dat : list (string * string)) (claimer closer reason : string)
    (tp : option string) (t1 t2 t3 : Z)
    (Hfresh : tickets db !! ticketId = None) :
  exists db1,
    Ticket.create ticketId channelId userId uname ty dat t1 db = Some db1
    /\ tickets db1 !! ticketId
       = Some (mkTicket ticketId channelId userId uname ty "normal" "open" t1
                 None None None None None None dat)
    /\ let claimed := Ticket.claim ticketId claimer t2 db1 in
       let closed := Ticket.close ticketId closer reason tp t3 (fst claimed) in
       snd claimed = true
       /\ snd closed = true
       /\ tickets (fst closed) !! ticketId
          = Some (mkTicket ticketId channelId userId uname ty "normal" "closed" t1
                    (Some claimer) (Some t2) (Some closer) (Some t3) (Some reason)
                    tp dat)
       /\ (exists owner,
             users (fst closed) !! userId = Some owner
             /\ tickets_created owner
                = default 0 (tickets_created <$> users db !! userId) + 1
             /\ tickets_closed owner
                = default 0 (tickets_closed <$> users db !! userId) + 1)
       /\ (forall k, k <> ticketId -> tickets (fst closed) !! k = tickets db !! k)
       /\ Ticket.create ticketId channelId userId uname ty dat t3 (fst closed) = None.
Proof.
  unfold Ticket.create at 1. rewrite Hfresh. eexists. split; [reflexivity|].
  split; [simpl; by rewrite lookup_insert_eq|].
  cbv zeta. unfold Ticket.claim. simpl tickets. rewrite lookup_insert_eq.
  simpl. unfold Ticket.close. simpl tickets. rewrite lookup_insert_eq.
  simpl. rewrite lookup_insert_eq. simpl.
  split; [done|]. split; [done|].
  split; [by rewrite lookup_insert_eq|].
  split.
  - eexists. rewrite lookup_insert_eq. split; [done|].
    destruct (users db !! userId); simpl; split; lia.
  - split.
    + intros k Hk. rewrite !lookup_insert_ne by congruence. done.
    + unfold Ticket.create. simpl tickets. by rewrite lookup_insert_eq.
Qed.

Lemma ticket_full_lifecycle_witness :
  exists db1,
    Ticket.create "ticket-7-abc123" "c1" "7" "ann" "support" [] 0 emptyDb = Some db1
    /\ snd (Ticket.claim "ticket-7-abc123" "9" 10 db1) = true.
Proof.
  assert (Hfresh : tickets emptyDb !! "ticket-7-abc123" = None)
    by (vm_compute; reflexivity).
  destruct (ticket_full_lifecycle emptyDb "ticket-7-abc123" "c1" "7" "ann" "support"
              [] "9" "9" "resolved" None 0 10 20 Hfresh)
    as (db1 & Hcreate & _ & Hclaim & _).
  exists db1. split; [exact Hcreate | exact Hclaim].
Defined.

End FullLifecycle.

(** ** Tic-Tac-Toe: choosing among the scored moves *)

Section BestMove.

Import TicTacToe.

Lemma pickMax_first_best (ms : list Move) (bs : Z) (best : option Move) :
  (pickMax ms bs best = best /\ forall m, m ∈ ms -> score m <= bs)
  \/ exists i m,
       pickMax ms bs best = Some m /\ ms !! i = Some m /\ bs < score m
       /\ (forall m', m' ∈ ms -> score m' <= score m)
       /\ (forall j m', (j < i)%nat -> ms !! j = Some m' -> score m' < score m).
Proof.
  revert bs best. induction ms as [|m0 r IH]; intros bs best.
  - left. split; [done|]. intros m Hm. inversion Hm.
  - simpl. destruct (Z.ltb_spec bs (score m0)) as [Hlt|Hge].
    + right. destruct (IH (score m0) (Some m0))
        as [[Heq Hall] | (i & m & Heq & Hi & Hbs & Hall & Hfirst)].
      * exists 0%nat, m0. rewrite Heq. split_conj; try done.
        -- intros m' Hm'. apply elem_of_cons in Hm' as [->|Hm']; [lia | by apply Hall].
        -- intros j m' Hj. lia.
      * exists (S i), m. rewrite Heq. split_conj; try done; [lia| |].
        -- intros m' Hm'. apply elem_of_cons in Hm' as [->|Hm']; [lia | by apply Hall].
        -- intros j m' Hj Hm'. destruct j as [|j].
           ++ simpl in Hm'. inversion Hm'; subst. lia.
           ++ simpl in Hm'. apply (Hfirst j m'); [lia | done].
    + destruct (IH bs best)
        as [[Heq Hall] | (i & m & Heq & Hi & Hbs & Hall & Hfirst)].
      * left. split; [done|].
        intros m' Hm'. apply elem_of_cons in Hm' as [->|Hm']; [lia | by apply Hall].
      * right. exists (S i), m. split_conj; try done.
        -- intros m' Hm'. apply elem_of_cons in Hm' as [->|Hm']; [lia | by apply Hall].
        -- intros j m' Hj Hm'. destruct j as [|j].
           ++ simpl in Hm'. inversion Hm'; subst. lia.
           ++ simpl in Hm'. apply (Hfirst j m'); [lia | done].
Qed.

Lemma pickMin_first_best (ms : list Move) (bs : Z) (best : option Move) :
  (pickMin ms bs best = best /\ forall m, m ∈ ms -> bs <= score m)
  \/ exists i m,
       pickMin ms bs best = Some m /\ ms !! i = Some m /\ score m < bs
       /\ (forall m', m' ∈ ms -> score m <= score m')
       /\ (forall j m', (j < i)%nat -> ms !! j = Some m' -> score m < score m').
Proof.
  revert bs best. induction ms as [|m0 r IH]; intros bs best.
  - left. split; [done|]. intros m Hm. inversion Hm.
  - simpl. destruct (Z.ltb_spec (score m0) bs) as [Hlt|Hge].
    + right. destruct (IH (score m0) (Some m0))
        as [[Heq Hall] | (i & m & Heq & Hi & Hbs & Hall & Hfirst)].
      * exists 0%nat, m0. rewrite Heq. split_conj; try done.
        -- intros m' Hm'. apply elem_of_cons in Hm' as [->|Hm']; [lia | by apply Hall].
        -- intros j m' Hj. lia.
      * exists (S i), m. rewrite Heq. split_conj; try done; [lia| |].
        -- intros m' Hm'. apply elem_of_cons in Hm' as [->|Hm']; [lia | by apply Hall].
        -- intros j m' Hj Hm'. destruct j as [|j].
           ++ simpl in Hm'. inversion Hm'; subst. lia.
           ++ simpl in Hm'. apply (Hfirst j m'); [lia | done].
    + destruct (IH bs best)
        as [[Heq Hall] | (i & m & Heq & Hi & Hbs & Hall & Hfirst)].
      * left. split; [done|].
        intros m' Hm'. apply elem_of_cons in Hm' as [->|Hm']; [lia | by apply Hall].
      * right. exists (S i), m. split_conj; try done.
        -- intros m' Hm'. apply elem_of_cons in Hm' as [->|Hm']; [lia | by apply Hall].
        -- intros j m' Hj Hm'. destruct j as [|j].
           ++ simpl in Hm'. inversion Hm'; subst. lia.
           ++ simpl in Hm'. apply (Hfirst j m'); [lia | done].
Qed.

(** X11.  Of the scored moves the selection loops return the first one
    enumerated among those with the best score: the greatest for the
    maximising loop, the least for the minimising loop; every earlier
    move is strictly worse. *)
Theorem best_move_is_first_of_the_best (ms : list Move)
    (Hmoves : ms <> []) (Hscores : Forall boundedScore ms) :
  (exists i m,
     pickMax ms (-10000) None = Some m /\ ms !! i = Some m
     /\ (forall m', m' ∈ ms -> score m' <= score m)
     /\ (forall j m', (j < i)%nat -> ms !! j = Some m' -> score m' < score m))
  /\ (exists i m,
     pickMin ms 10000 None = Some m /\ ms !! i = Some m
     /\ (forall m', m' ∈ ms -> score m <= score m')
     /\ (forall j m', (j < i)%nat -> ms !! j = Some m' -> score m < score m')).
Proof.
  destruct ms as [|m0 r]; [done|].
  assert (Hm0 : boundedScore m0) by (by inversion Hscores).
  unfold boundedScore in Hm0.
  split.
  - destruct (pickMax_first_best (m0 :: r) (-10000) None)
      as [[_ Hall] | (i & m & Heq & Hi & _ & Hall & Hfirst)].
    + specialize (Hall m0 ltac:(apply elem_of_cons; by left)). lia.
    + exists i, m. done.
  - destruct (pickMin_first_best (m0 :: r) 10000 None)
      as [[_ Hall] | (i & m & Heq & Hi & _ & Hall & Hfirst)].
    + specialize (Hall m0 ltac:(apply elem_of_cons; by left)). lia.
    + exists i, m. done.
Qed.

Lemma best_move_is_first_of_the_best_witness :
  pickMax [mkMove (Some 2%nat) 0; mkMove (Some 5%nat) (-10); mkMove (Some 7%nat) 0]
    (-10000) None = Some (mkMove (Some 2%nat) 0).
Proof.
  assert (Hne : [mkMove (Some 2%nat) 0; mkMove (Some 5%nat) (-10);
                 mkMove (Some 7%nat) 0] <> []) by discriminate.
  assert (Hb : Forall boundedScore
                 [mkMove (Some 2%nat) 0; mkMove (Some 5%nat) (-10);
                  mkMove (Some 7%nat) 0])
    by (repeat constructor; unfold boundedScore; simpl; lia).
  destruct (best_move_is_first_of_the_best _ Hne Hb) as [(i & m & Heq & _) _].
  rewrite Heq. vm_compute in Heq. symmetry. exact Heq.
Defined.

End BestMove.

(** ** Well-formed game worlds *)

Section GameWorlds.

Import Utils Models TicTacToe GameHandler Play.

Lemma sessionOk_timeout k g h :
  sessionOk k g -> timeout g = Some h -> h = (gameType g, k, startedAt g).
Proof.
  intros (Hu & Hid & Ht & _) Hh. rewrite Ht in Hh.
  destruct (timed (gameType g)); [|discriminate].
  inversion Hh; subst. exact Hid.
Qed.

Lemma worldOk_frame w rl d :
  worldOk w -> worldOk (mkWorld (activeGames w) rl (timers w) d).
Proof. intros H. exact H. Qed.

(** A session replaced by a state that differs in its variant fields
    only. *)
Lemma worldOk_update w user g g' rl d :
  worldOk w -> activeGames w !! user = Some g ->
  id g' = id g -> userId g' = userId g -> startedAt g' = startedAt g ->
  timeout g' = timeout g -> gameType g' = gameType g -> payloadOk (payload g') ->
  worldOk (mkWorld (<[user := g']> (activeGames w)) rl (timers w) d).
Proof.
  intros (Hs & Ht & Hnd) Hg Hid Hu Hst Hto Hty Hp.
  unfold worldOk. split_conj; simpl.
  - intros k g0 Hk. destruct (decide (user = k)) as [->|Hne].
    + rewrite lookup_insert_eq in Hk. inversion Hk; subst g0.
      destruct (Hs _ _ Hg) as (H1 & H2 & H3 & H4).
      unfold sessionOk. rewrite Hid, Hu, Hst, Hto, Hty. done.
    + rewrite lookup_insert_ne in Hk by done. by apply Hs.
  - intros h. rewrite Ht. split.
    + intros (k & g0 & Hk & Hh). destruct (decide (user = k)) as [->|Hne].
      * exists k, g'. rewrite lookup_insert_eq. split; [done|]. congruence.
      * exists k, g0. by rewrite lookup_insert_ne.
    + intros (k & g0 & Hk & Hh). destruct (decide (user = k)) as [->|Hne].
      * rewrite lookup_insert_eq in Hk. inversion Hk; subst g0.
        exists k, g. split; [done|]. congruence.
      * rewrite lookup_insert_ne in Hk by done. by exists k, g0.
  - exact Hnd.
Qed.

(** A session removed together with its timer. *)
Lemma worldOk_remove w user g ts rl d :
  worldOk w -> activeGames w !! user = Some g ->
  NoDup ts -> (forall h, h ∈ ts <-> h ∈ timers w /\ timeout g <> Some h) ->
  worldOk (mkWorld (delete user (activeGames w)) rl ts d).
Proof.
  intros (Hs & Ht & Hnd) Hg Hnd' Hts.
  unfold worldOk. split_conj; simpl.
  - intros k g0 Hk. apply lookup_delete_Some in Hk. apply Hs. by destruct Hk.
  - intros h. rewrite Hts, Ht. split.
    + intros [(k & g0 & Hk & Hh) Hne]. exists k, g0. split; [|done].
      apply lookup_delete_Some. split; [|done].
      intros ->. rewrite Hg in Hk. inversion Hk; subst. congruence.
    + intros (k & g0 & Hk & Hh). apply lookup_delete_Some in Hk.
      destruct Hk as [Hne Hk]. split; [by exists k, g0|].
      intros Hgh.
      pose proof (sessionOk_timeout _ _ _ (Hs _ _ Hg) Hgh) as H1.
      pose proof (sessionOk_timeout _ _ _ (Hs _ _ Hk) Hh) as H2.
      congruence.
  - exact Hnd'.
Qed.

Lemma finish_shape user g r now w :
  finish user g r now w =
  mkWorld (delete user (activeGames w)) (rateLimits w)
    (match timeout g with
     | Some h => filter (fun t => t <> h) (timers w)
     | None => timers w
     end)
    (db (finish user g r now w)).
Proof.
  unfold finish, endGame, setGames, setEnded. simpl.
  by rewrite delete_insert_eq.
Qed.

(** Ending a session through the common tail of the handlers. *)
Lemma worldOk_finish w user g g' r now :
  worldOk w -> activeGames w !! user = Some g -> timeout g' = timeout g ->
  worldOk (finish user g' r now w).
Proof.
  intros Hok Hg Hto. rewrite finish_shape, Hto.
  pose proof Hok as (Hs & Ht & Hnd).
  apply (worldOk_remove w user g); try done.
  - destruct (timeout g); [by apply NoDup_filter | done].
  - intros h. destruct (timeout g) as [h0|].
    + rewrite list_elem_of_filter. split.
      * intros [Hne Hin]. split; [done|]. congruence.
      * intros [Hin Hne]. split; [|done]. congruence.
    + split; [intros Hin; split; [done|discriminate] | by intros [Hin _]].
Qed.

(** A new session for a user who has none. *)
Lemma worldOk_register w user g d now :
  worldOk w -> activeGames w !! user = None -> sessionOk user g ->
  worldOk (fst (register user g d now w)).
Proof.
  intros (Hs & Ht & Hnd) Hnone Hg.
  assert (Hfresh : forall h, timeout g = Some h -> h ∉ timers w).
  { intros h Hh Hin. apply Ht in Hin. destruct Hin as (k & g0 & Hk & Hh0).
    pose proof (sessionOk_timeout _ _ _ Hg Hh) as H1.
    pose proof (sessionOk_timeout _ _ _ (Hs _ _ Hk) Hh0) as H2.
    assert (k = user) by congruence. subst k. congruence. }
  unfold register, logStart, setDb. simpl.
  unfold worldOk. split_conj; simpl.
  - intros k g0 Hk. destruct (decide (user = k)) as [->|Hne].
    + rewrite lookup_insert_eq in Hk. by inversion Hk; subst.
    + rewrite lookup_insert_ne in Hk by done. by apply Hs.
  - intros h. split.
    + intros Hin.
      assert (Hcases : h ∈ timers w \/ timeout g = Some h).
      { destruct (timeout g) as [h0|]; [|by left].
        apply elem_of_app in Hin. destruct Hin as [Hin|Hin]; [by left|].
        apply list_elem_of_singleton in Hin. right. by subst. }
      destruct Hcases as [Hin'|Hh].
      * apply Ht in Hin'. destruct Hin' as (k & g0 & Hk & Hh0).
        exists k, g0. split; [|done]. rewrite lookup_insert_ne; [done|].
        intros ->. congruence.
      * exists user, g. by rewrite lookup_insert_eq.
    + intros (k & g0 & Hk & Hh). destruct (decide (user = k)) as [->|Hne].
      * rewrite lookup_insert_eq in Hk. inversion Hk; subst g0.
        rewrite Hh. apply elem_of_app. right. by apply list_elem_of_singleton.
      * rewrite lookup_insert_ne in Hk by done.
        assert (h ∈ timers w) by (apply Ht; by exists k, g0).
        destruct (timeout g); [apply elem_of_app; by left | done].
  - destruct (timeout g) as [h0|] eqn:Hh0; [|done].
    apply NoDup_app. split_conj; [done| |apply NoDup_singleton].
    intros x Hx Hx'. apply list_elem_of_singleton in Hx'. subst x.
    by apply (Hfresh h0).
Qed.

(** *** The variant fields *)

Lemma includes_letter (a c : ascii) (r : string) :
  includes (String a r) (String c EmptyString)
  = Ascii.eqb c a || includes r (String c EmptyString).
Proof.
  cbn [includes String.prefix].
  destruct (ascii_dec c a) as [->|Hne].
  - rewrite Ascii.eqb_refl. by destruct r.
  - apply Ascii.eqb_neq in Hne. rewrite Hne. done.
Qed.

Lemma isLowerLetter_single l :
  isLowerLetter l = true -> exists c, l = String c EmptyString.
Proof.
  destruct l as [|c [|]]; try discriminate. intros _. by exists c.
Qed.

Lemma guessedIncludes_snoc guessed l x :
  guessedIncludes (guessed ++ [l])%list x = guessedIncludes guessed x || String.eqb x l.
Proof.
  unfold guessedIncludes. rewrite existsb_app. simpl. by rewrite orb_false_r.
Qed.

(** A letter that is not in the word leaves the display as it is. *)
Lemma reveal_miss word guessed l :
  isLowerLetter l = true -> includes word l = false ->
  reveal word (guessed ++ [l])%list = reveal word guessed.
Proof.
  intros Hl Hmiss. apply isLowerLetter_single in Hl. destruct Hl as [c ->].
  induction word as [|a r IH]; [done|].
  rewrite includes_letter in Hmiss. apply orb_false_iff in Hmiss.
  destruct Hmiss as [Hca Hr].
  cbn [reveal]. rewrite IH by done. rewrite guessedIncludes_snoc.
  assert (String.eqb (String a EmptyString) (String c EmptyString) = false) as ->.
  { apply String.eqb_neq. intros Heq. inversion Heq; subst.
    by rewrite Ascii.eqb_refl in Hca. }
  by rewrite orb_false_r.
Qed.

Lemma reveal_nil word : reveal word [] = underscores (String.length word).
Proof. induction word as [|a r IH]; [done|]. simpl. by rewrite IH. Qed.

Lemma misses_snoc word guessed l :
  misses word (guessed ++ [l])%list
  = (misses word guessed + (if includes word l then 0 else 1))%nat.
Proof.
  unfold misses. rewrite filter_app, length_app. f_equal.
  rewrite filter_cons, filter_nil.
  destruct (includes word l); by case_decide.
Qed.

Lemma guessedIncludes_false guessed l :
  guessedIncludes guessed l = false -> l ∉ guessed.
Proof.
  unfold guessedIncludes. intros Hf Hin.
  assert (existsb (String.eqb l) guessed = true); [|congruence].
  apply existsb_exists. exists l. split; [by apply list_elem_of_In|].
  apply String.eqb_refl.
Qed.

(** *** The handlers keep the world well formed *)

Lemma handleGameSelect_ok user v now rs w :
  worldOk w -> worldOk (fst (handleGameSelect user v now rs w)).
Proof.
  intros Hok. unfold handleGameSelect.
  destruct (checkRateLimit (rateLimits w) user GAME_RATE_LIMIT now) as [rl ok].
  destruct ok; simpl; [|by apply worldOk_frame].
  destruct (activeGames w !! user) eqn:Hu; [by apply worldOk_frame|].
  destruct (parseGameType v) as [[]|]; try (by apply worldOk_frame);
    (apply worldOk_register; [by apply worldOk_frame | exact Hu |]);
    unfold sessionOk; simpl; split_conj; try reflexivity; try done.
  - symmetry. apply reveal_nil.
  - apply NoDup_nil_2.
Qed.

Lemma noWinner_not_full board :
  checkTicTacToeWinner board = NoWinner -> boardFull board = false.
Proof.
  unfold checkTicTacToeWinner. destruct (firstLine _ _); [done|].
  by destruct (boardFull board).
Qed.

Lemma playTicTacToe_cases board cur ai d i r1 r2 :
  let board1 := <[i := Some cur]> board in
  (checkTicTacToeWinner board1 <> NoWinner
   /\ playTicTacToe board cur ai d i r1 r2 = (board1, checkTicTacToeWinner board1))
  \/ (checkTicTacToeWinner board1 = NoWinner
      /\ getTicTacToeAIMove board1 cur ai d r1 r2 = None
      /\ playTicTacToe board cur ai d i r1 r2 = (board1, NoWinner))
  \/ (exists a,
        checkTicTacToeWinner board1 = NoWinner
        /\ getTicTacToeAIMove board1 cur ai d r1 r2 = Some a
        /\ playTicTacToe board cur ai d i r1 r2
           = (<[a := Some ai]> board1,
              checkTicTacToeWinner (<[a := Some ai]> board1))).
Proof.
  cbv zeta. unfold playTicTacToe.
  destruct (checkTicTacToeWinner (<[i := Some cur]> board)) as [s| |] eqn:Hw.
  - left. done.
  - left. done.
  - right. destruct (getTicTacToeAIMove _ cur ai d r1 r2) as [a|] eqn:Ha.
    + right. exists a. split_conj; try done.
      destruct (checkTicTacToeWinner (<[a := Some ai]> (<[i := Some cur]> board)))
        as [s| |] eqn:Hw2; try done.
      by rewrite (noWinner_not_full _ Hw2).
    + left. split_conj; try done.
      by rewrite (noWinner_not_full _ Hw).
Qed.

Lemma playTicTacToe_length board cur ai d i r1 r2 :
  length (fst (playTicTacToe board cur ai d i r1 r2)) = length board.
Proof.
  destruct (playTicTacToe_cases board cur ai d i r1 r2)
    as [[_ ->] | [(_ & _ & ->) | (a & _ & _ & ->)]]; simpl;
    by rewrite ?length_insert.
Qed.

Lemma handleTicTacToeMove_ok user i now rs w :
  worldOk w -> worldOk (fst (handleTicTacToeMove user i now rs w)).
Proof.
  intros Hok. unfold handleTicTacToeMove.
  destruct (activeGames w !! user) as [g|] eqn:Hg; [|done].
  pose proof Hok as (Hs & _ & _).
  destruct (Hs _ _ Hg) as (Hu & Hid & Hto & Hp).
  destruct (payload g) eqn:Hpay; try done.
  assert (Hty : gameType g = tictactoe) by (unfold gameType; by rewrite Hpay).
  rewrite Hty in Hto. simpl in Hto, Hp. destruct Hp as (Hlen & Hcur & Hai).
  destruct (board !! i) as [[s|]|]; try done.
  pose proof (playTicTacToe_length board currentPlayer aiPlayer difficulty i
                (rs 0%nat) (rs 1%nat)) as Hlen'.
  destruct (playTicTacToe board currentPlayer aiPlayer difficulty i
              (rs 0%nat) (rs 1%nat)) as [board' win].
  simpl in Hlen'.
  destruct (tttResult win currentPlayer); simpl.
  - unfold endGame. simpl. rewrite Hto.
    apply (worldOk_update w user g); try done.
    simpl. by rewrite Hlen'.
  - apply (worldOk_update w user g); try done.
    simpl. by rewrite Hlen'.
Qed.

Lemma handleMessage_ok b gd user parsed now w :
  worldOk w -> worldOk (fst (handleMessage b gd user parsed now w)).
Proof.
  intros Hok. unfold handleMessage.
  destruct (b || negb gd); [done|].
  destruct (activeGames w !! user) as [g|] eqn:Hg; [|done].
  pose proof Hok as (Hs & _ & _).
  destruct (Hs _ _ Hg) as (Hu & Hid & Hto & Hp).
  destruct (gameType g) eqn:Hty; try done.
  - unfold handleMathAnswer. destruct (payload g) eqn:Hpay; try done.
    destruct parsed as [a|]; [|done].
    simpl in Hp. destruct Hp as (-> & -> & _).
    destruct (a =? answer); [by apply (worldOk_finish w user g)|].
    simpl. by apply (worldOk_finish w user g).
  - unfold handleGuess. destruct (payload g) eqn:Hpay; try done.
    destruct parsed as [n|]; [|done].
    simpl in Hp. destruct Hp as (Hatt & Hmax & Hlt & Hall).
    destruct ((n <? GUESSING_MIN) || (GUESSING_MAX <? n)) eqn:Hrange; [done|].
    apply orb_false_iff in Hrange. destruct Hrange as [Hlo Hhi].
    apply Z.ltb_ge in Hlo, Hhi.
    destruct (n =? number) eqn:Hn; [by apply (worldOk_finish w user g)|].
    apply Z.eqb_neq in Hn.
    destruct (maxAttempts - (attempts + 1) <=? 0) eqn:Hleft;
      [by apply (worldOk_finish w user g)|].
    apply Z.leb_gt in Hleft.
    simpl. apply (worldOk_update w user g); try done.
    simpl. split_conj.
    + rewrite length_app. simpl. lia.
    + done.
    + lia.
    + apply Forall_app. split; [done|]. constructor; [|done]. split; [lia|done].
Qed.

Lemma handleHangmanGuessModal_ok user raw now w :
  worldOk w -> worldOk (fst (handleHangmanGuessModal user raw now w)).
Proof.
  intros Hok. unfold handleHangmanGuessModal.
  destruct (isLowerLetter (toLowerCase raw)) eqn:Hletter; [|done]. simpl.
  destruct (activeGames w !! user) as [g|] eqn:Hg; [|done].
  pose proof Hok as (Hs & _ & _).
  destruct (Hs _ _ Hg) as (Hu & Hid & Hto & Hp).
  destruct (payload g) eqn:Hpay; try done.
  assert (Hty : gameType g = hangman) by (unfold gameType; by rewrite Hpay).
  simpl in Hp. destruct Hp as (Hdisp & Hwrong & Hmax & Hlt & Hnd & Hall).
  destruct (guessedIncludes guessed (toLowerCase raw)) eqn:Hrep; [done|].
  pose proof (misses_snoc word guessed (toLowerCase raw)) as Hmiss.
  destruct (includes word (toLowerCase raw)) eqn:Hin; cbv zeta beta iota.
  - destruct (String.eqb (reveal word (guessed ++ [toLowerCase raw])%list) word);
      [by apply (worldOk_finish w user g)|].
    destruct (maxWrongGuesses <=? wrongGuesses) eqn:Hle;
      [by apply (worldOk_finish w user g)|].
    simpl. apply (worldOk_update w user g); try done.
    simpl. split_conj; try done.
    + rewrite Hmiss. rewrite Hwrong. f_equal. lia.
    + apply NoDup_app. split_conj; [done| |apply NoDup_singleton].
      intros x Hx Hx'. apply list_elem_of_singleton in Hx'. subst x.
      by apply guessedIncludes_false in Hrep.
    + apply Forall_app. split; [done|]. by constructor.
  - destruct (String.eqb display word); [by apply (worldOk_finish w user g)|].
    destruct (maxWrongGuesses <=? wrongGuesses + 1) eqn:Hle;
      [by apply (worldOk_finish w user g)|].
    apply Z.leb_gt in Hle.
    simpl. apply (worldOk_update w user g); try done.
    simpl. split_conj; try done.
    + rewrite reveal_miss by done. done.
    + rewrite Hmiss, Hwrong. lia.
    + apply NoDup_app. split_conj; [done| |apply NoDup_singleton].
      intros x Hx Hx'. apply list_elem_of_singleton in Hx'. subst x.
      by apply guessedIncludes_false in Hrep.
    + apply Forall_app. split; [done|]. by constructor.
Qed.

(** The entry a firing timer finds is the session the timer belongs
    to. *)
Lemma endGameByTimeout_finds w h rl ts d now :
  worldOk w -> h ∈ timers w ->
  exists k g,
    activeGames w !! k = Some g /\ timeout g = Some h /\ id g = h
    /\ fst (endGameByTimeout h now (mkWorld (activeGames w) rl ts d))
       = mkWorld (delete k (activeGames w)) rl (filter (fun t => t <> h) ts)
           (db (fst (endGameByTimeout h now (mkWorld (activeGames w) rl ts d)))).
Proof.
  intros (Hs & Ht & Hnd) Hin.
  apply Ht in Hin. destruct Hin as (k & g & Hk & Hh).
  pose proof (sessionOk_timeout _ _ _ (Hs _ _ Hk) Hh) as Hhid.
  destruct (Hs _ _ Hk) as (Hu & Hid & _ & _).
  exists k, g. split_conj; try done; [congruence|].
  unfold endGameByTimeout. simpl.
  destruct (List.find _ _) as [[k' g']|] eqn:Hfind.
  - apply find_some in Hfind. destruct Hfind as [Hin' Hid'].
    apply list_elem_of_In, elem_of_map_to_list in Hin'.
    simpl in Hid'. apply bool_decide_eq_true in Hid'.
    destruct (Hs _ _ Hin') as (_ & Hid2 & _ & _).
    assert (k' = k) by congruence. subst k'.
    assert (g' = g) by congruence. subst g'.
    unfold endGame. simpl. by rewrite Hh.
  - exfalso.
    pose proof (find_none _ _ Hfind (k, g)) as Hnone. simpl in Hnone.
    rewrite bool_decide_eq_false in Hnone. apply Hnone; [|congruence].
    by apply list_elem_of_In, elem_of_map_to_list.
Qed.

Lemma fireTimer_ok gid now w :
  worldOk w -> worldOk (fst (fireTimer gid now w)).
Proof.
  intros Hok. unfold fireTimer. case_bool_decide as Hin; [|done].
  destruct (endGameByTimeout_finds w gid (rateLimits w)
              (filter (fun t => t <> gid) (timers w)) (db w) now Hok Hin)
    as (k & g & Hk & Hh & Hid & ->).
  pose proof Hok as (Hs & Ht & Hnd).
  apply (worldOk_remove w k g); try done.
  - by do 2 apply NoDup_filter.
  - intros h. rewrite !list_elem_of_filter. rewrite Hh. split.
    + intros (Hne & _ & Hin'). split; [done|]. congruence.
    + intros (Hin' & Hne). assert (h <> gid) by congruence. done.
Qed.

(** Every handler keeps the world well formed. *)
Lemma handle_ok e w : worldOk w -> worldOk (fst (handle e w)).
Proof.
  intros Hok. destruct e; simpl.
  - by apply handleGameSelect_ok.
  - by apply handleTicTacToeMove_ok.
  - unfold handleRockPaperScissors.
    destruct (activeGames w !! user) as [g|] eqn:Hg; [|done].
    destruct (payload g); try done. by apply (worldOk_finish w user g).
  - unfold handleTrivia.
    destruct (activeGames w !! user) as [g|] eqn:Hg; [|done].
    destruct (payload g); try done. by apply (worldOk_finish w user g).
  - by apply handleHangmanGuessModal_ok.
  - by apply handleMessage_ok.
  - by apply fireTimer_ok.
Qed.

Lemma step_ok s w : worldOk w -> worldOk (step s w).
Proof.
  intros Hok. destruct s; simpl; [by apply handle_ok | by apply worldOk_frame].
Qed.

Lemma play_ok ss w : worldOk w -> worldOk (play ss w).
Proof.
  revert w. induction ss as [|s ss IH]; intros w Hok; [done|].
  simpl. apply IH. by apply step_ok.
Qed.

Lemma emptyWorld_ok : worldOk emptyWorld.
Proof.
  unfold worldOk. split_conj; simpl.
  - intros k g Hk. by rewrite lookup_empty in Hk.
  - intros h. split.
    + intros Hin. inversion Hin.
    + intros (k & g & Hk & _). by rewrite lookup_empty in Hk.
  - apply NoDup_nil_2.
Qed.

End GameWorlds.

(** ** Users do not interfere *)

Section Isolation.

Import Utils Models TicTacToe GameHandler Play.

Lemma finish_other user g r now w k :
  k <> user ->
  activeGames (finish user g r now w) !! k = activeGames w !! k
  /\ rateLimits (finish user g r now w) !! k = rateLimits w !! k.
Proof.
  intros Hne. rewrite finish_shape. simpl. by rewrite lookup_delete_ne.
Qed.

Lemma handleGameSelect_other user v now rs w k :
  k <> user ->
  activeGames (fst (handleGameSelect user v now rs w)) !! k = activeGames w !! k
  /\ rateLimits (fst (handleGameSelect user v now rs w)) !! k = rateLimits w !! k.
Proof.
  intros Hne. unfold handleGameSelect.
  pose proof (check_other (rateLimits w) user GAME_RATE_LIMIT now k Hne) as Hrl.
  unfold after in Hrl.
  destruct (checkRateLimit (rateLimits w) user GAME_RATE_LIMIT now) as [rl ok].
  simpl in Hrl.
  destruct ok; simpl; [|done].
  destruct (activeGames w !! user); [done|].
  destruct (parseGameType v) as [[]|]; simpl; try done;
    by rewrite lookup_insert_ne.
Qed.

Lemma handleTicTacToeMove_other user i now rs w k :
  k <> user ->
  activeGames (fst (handleTicTacToeMove user i now rs w)) !! k = activeGames w !! k
  /\ rateLimits (fst (handleTicTacToeMove user i now rs w)) !! k = rateLimits w !! k.
Proof.
  intros Hne. unfold handleTicTacToeMove.
  destruct (activeGames w !! user) as [g|]; [|done].
  destruct (payload g); try done.
  destruct (board !! i) as [[s|]|]; try done.
  destruct (playTicTacToe _ _ _ _ _ _ _) as [board' win].
  destruct (tttResult win currentPlayer); simpl; by rewrite lookup_insert_ne.
Qed.

Lemma handleMessage_other b gd user parsed now w k :
  k <> user ->
  activeGames (fst (handleMessage b gd user parsed now w)) !! k = activeGames w !! k
  /\ rateLimits (fst (handleMessage b gd user parsed now w)) !! k = rateLimits w !! k.
Proof.
  intros Hne. unfold handleMessage.
  destruct (b || negb gd); [done|].
  destruct (activeGames w !! user) as [g|]; [|done].
  destruct (gameType g); try done.
  - unfold handleMathAnswer. destruct (payload g); try done.
    destruct parsed as [a|]; [|done].
    destruct (a =? answer); [by apply finish_other|].
    destruct (maxAttempts <=? attempts + 1); [by apply finish_other|].
    simpl. by rewrite lookup_insert_ne.
  - unfold handleGuess. destruct (payload g); try done.
    destruct parsed as [n|]; [|done].
    destruct ((n <? GUESSING_MIN) || (GUESSING_MAX <? n)); [done|].
    destruct (n =? number); [by apply finish_other|].
    destruct (maxAttempts - (attempts + 1) <=? 0); [by apply finish_other|].
    simpl. by rewrite lookup_insert_ne.
Qed.

Lemma handleHangmanGuessModal_other user raw now w k :
  k <> user ->
  activeGames (fst (handleHangmanGuessModal user raw now w)) !! k = activeGames w !! k
  /\ rateLimits (fst (handleHangmanGuessModal user raw now w)) !! k = rateLimits w !! k.
Proof.
  intros Hne. unfold handleHangmanGuessModal.
  destruct (negb (isLowerLetter (toLowerCase raw))); [done|].
  destruct (activeGames w !! user) as [g|]; [|done].
  destruct (payload g); try done.
  destruct (guessedIncludes guessed (toLowerCase raw)); [done|].
  destruct (includes word (toLowerCase raw)); cbv zeta beta iota.
  - destruct (String.eqb _ word); [by apply finish_other|].
    destruct (maxWrongGuesses <=? wrongGuesses); [by apply finish_other|].
    simpl. by rewrite lookup_insert_ne.
  - destruct (String.eqb display word); [by apply finish_other|].
    destruct (maxWrongGuesses <=? wrongGuesses + 1); [by apply finish_other|].
    simpl. by rewrite lookup_insert_ne.
Qed.

Lemma fireTimer_other (gid : GameId) now w k :
  worldOk w -> k <> snd (fst gid) ->
  activeGames (fst (fireTimer gid now w)) !! k = activeGames w !! k
  /\ rateLimits (fst (fireTimer gid now w)) !! k = rateLimits w !! k.
Proof.
  intros Hok Hne. unfold fireTimer. case_bool_decide as Hin; [|done].
  destruct (endGameByTimeout_finds w gid (rateLimits w)
              (filter (fun t : GameId => t <> gid) (timers w)) (db w) now Hok Hin)
    as (k' & g & Hk & Hh & Hid & ->).
  simpl. destruct Hok as (Hs & _ & _).
  destruct (Hs _ _ Hk) as (_ & Hid' & _ & _).
  rewrite lookup_delete_ne; [done|].
  intros ->. apply Hne. rewrite <- Hid, Hid'. done.
Qed.

(** An event about one user leaves the session and the rate-limit window
    of every other user as they are. *)
Lemma handle_other e w k :
  worldOk w -> k <> eventUser e ->
  activeGames (fst (handle e w)) !! k = activeGames w !! k
  /\ rateLimits (fst (handle e w)) !! k = rateLimits w !! k.
Proof.
  intros Hok Hne. destruct e; simpl in Hne; cbn [handle].
  - by apply handleGameSelect_other.
  - by apply handleTicTacToeMove_other.
  - unfold handleRockPaperScissors.
    destruct (activeGames w !! user) as [g|]; [|done].
    destruct (payload g); try done. by apply finish_other.
  - unfold handleTrivia.
    destruct (activeGames w !! user) as [g|]; [|done].
    destruct (payload g); try done. by apply finish_other.
  - by apply handleHangmanGuessModal_other.
  - by apply handleMessage_other.
  - destruct gameId as [[t u] n]. simpl in Hne. by apply fireTimer_other.
Qed.

(** The timers of a user are decided by the session of that user. *)
Lemma timers_of_user w t u n :
  worldOk w ->
  ((t, u, n) ∈ timers w
   <-> exists g, activeGames w !! u = Some g /\ timeout g = Some (t, u, n)).
Proof.
  intros (Hs & Ht & _). rewrite Ht. split.
  - intros (k & g & Hk & Hh).
    pose proof (sessionOk_timeout _ _ _ (Hs _ _ Hk) Hh) as Heq.
    inversion Heq; subst. by exists g.
  - intros (g & Hk & Hh). by exists u, g.
Qed.

(** X12.  In every reachable world an event about one user leaves every
    other user's session, rate-limit window and pending timers exactly as
    they were. *)
Theorem events_leave_other_users_alone
    (ss : list Step) (e : Event) (user : string)
    (Hother : user <> eventUser e) :
  let w := play ss emptyWorld in
  let w' := fst (handle e w) in
  activeGames w' !! user = activeGames w !! user
  /\ rateLimits w' !! user = rateLimits w !! user
  /\ forall t n, (t, user, n) ∈ timers w' <-> (t, user, n) ∈ timers w.
Proof.
  cbv zeta.
  pose proof (play_ok ss emptyWorld emptyWorld_ok) as Hok.
  pose proof (handle_ok e _ Hok) as Hok'.
  destruct (handle_other e _ user Hok Hother) as [Hg Hrl].
  split_conj; [done|done|].
  intros t n. rewrite (timers_of_user _ t user n Hok'), (timers_of_user _ t user n Hok).
  by rewrite Hg.
Qed.

Lemma events_leave_other_users_alone_witness :
  let ss := [Handled (GameSelect "7" "hangman" 0 halves);
             Handled (GameSelect "8" "trivia" 5 halves)] in
  activeGames (fst (handle (TriviaAnswer "8" (Some 1) 9) (play ss emptyWorld))) !! "7"
  = activeGames (play ss emptyWorld) !! "7".
Proof.
  cbv zeta.
  assert (Hother : "7" <> eventUser (TriviaAnswer "8" (Some 1) 9)) by (simpl; discriminate).
  exact (proj1 (events_leave_other_users_alone
                  [Handled (GameSelect "7" "hangman" 0 halves);
                   Handled (GameSelect "8" "trivia" 5 halves)]
                  (TriviaAnswer "8" (Some 1) 9) "7" Hother)).
Defined.

End Isolation.

(** ** Hangman sessions *)

Section HangmanSessions.

Import Utils Models TicTacToe GameHandler Play.

(** X15.  In every reachable world a Hangman session shows exactly the
    guessed letters of its word, counts exactly the guessed letters that
    are not in the word, stays below the six wrong guesses that end the
    game, and holds each guessed letter once. *)
Theorem hangman_session_is_consistent
    (ss : list Step) (user : string) (g : GameState)
    (word : string) (guessed : list string) (wrongGuesses maxWrongGuesses : Z)
    (display : string)
    (Hlive : activeGames (play ss emptyWorld) !! user = Some g)
    (Hfields : payload g = HangmanP word guessed wrongGuesses maxWrongGuesses display) :
  display = reveal word guessed
  /\ wrongGuesses = Z.of_nat (misses word guessed)
  /\ maxWrongGuesses = 6
  /\ 0 <= wrongGuesses < 6
  /\ NoDup guessed
  /\ Forall (fun l => isLowerLetter l = true) guessed.
Proof.
  pose proof (play_ok ss emptyWorld emptyWorld_ok) as (Hs & _ & _).
  destruct (Hs _ _ Hlive) as (_ & _ & _ & Hp). rewrite Hfields in Hp. simpl in Hp.
  destruct Hp as (Hd & Hw & Hm & Hlt & Hnd & Hall).
  unfold HANGMAN_MAX_WRONG_GUESSES in Hm. subst maxWrongGuesses.
  split_conj; try done; lia.
Qed.

Lemma hangman_session_is_consistent_witness :
  let ss := [Handled (GameSelect "7" "hangman" 0 halves);
             Handled (HangmanGuess "7" "A" 10);
             Handled (HangmanGuess "7" "z" 20);
             Handled (HangmanGuess "7" "a" 30)] in
  "a________" = reveal "algorithm" ["a"; "z"]
  /\ 1 = Z.of_nat (misses "algorithm" ["a"; "z"]).
Proof.
  cbv zeta.
  assert (Hlive : activeGames
                    (play [Handled (GameSelect "7" "hangman" 0 halves);
                           Handled (HangmanGuess "7" "A" 10);
                           Handled (HangmanGuess "7" "z" 20);
                           Handled (HangmanGuess "7" "a" 30)] emptyWorld) !! "7"
                  = Some (mkGame (hangman, "7", 0) "7" 0 (Some (hangman, "7", 0)) None None
                            (HangmanP "algorithm" ["a"; "z"] 1 6 "a________")))
    by (vm_compute; reflexivity).
  pose proof (hangman_session_is_consistent _ "7" _ "algorithm" ["a"; "z"] 1 6
                "a________" Hlive eq_refl) as H.
  destruct H as (Hd & Hw & _). split; [exact Hd | exact Hw].
Defined.

End HangmanSessions.

(** ** Playing the games *)

Section Playing.

Import Utils Models TicTacToe GameHandler Play Helpers.

(** A guess inside the range, sent as a message by a user with a
    guessing session. *)
Lemma handleMessage_guess user n now w g number attempts gs :
  activeGames w !! user = Some g ->
  payload g = GuessP number attempts 7 gs ->
  1 <= n <= 100 ->
  handleMessage false true user (Some n) now w =
  let g' := setPayload (GuessP number (attempts + 1) 7 (gs ++ [n])%list) g in
  if n =? number then (finish user g' RWin now w, GuessCorrect)
  else if 7 - (attempts + 1) <=? 0 then (finish user g' RLose now w, GuessGameOver)
  else (setGames (<[user := g']> (activeGames w)) w,
        GuessHint (n <? number) (7 - (attempts + 1))).
Proof.
  intros Hg Hpay Hn. unfold handleMessage. simpl. rewrite Hg.
  assert (Hty : gameType g = guess) by (unfold gameType; by rewrite Hpay).
  rewrite Hty. unfold handleGuess. rewrite Hpay.
  assert ((n <? GUESSING_MIN) || (GUESSING_MAX <? n) = false) as ->.
  { apply orb_false_iff. unfold GUESSING_MIN, GUESSING_MAX.
    split; apply Z.ltb_ge; lia. }
  done.
Qed.

Lemma bisect_wins (rounds : nat) (user : string) (now : Z) :
  forall (w : World) (g : GameState) (number attempts : Z) (gs : list Z) (lo hi : Z),
    activeGames w !! user = Some g ->
    payload g = GuessP number attempts 7 gs ->
    1 <= lo -> hi <= 100 -> lo <= number <= hi ->
    hi - lo + 1 <= 2 ^ Z.of_nat rounds - 1 ->
    0 <= attempts -> attempts + Z.of_nat rounds <= 7 ->
    last (bisect rounds user lo hi now w) = Some GuessCorrect
    /\ (length (bisect rounds user lo hi now w) <= rounds)%nat.
Proof.
  induction rounds as [|n IH];
    intros w g number attempts gs lo hi Hg Hpay Hlo Hhi Hnum Hsize Hatt Hleft.
  - simpl in Hsize. lia.
  - rewrite Nat2Z.inj_succ, Z.pow_succ_r in Hsize by lia.
    assert (Hpow : 1 <= 2 ^ Z.of_nat n)
      by (pose proof (Z.pow_pos_nonneg 2 (Z.of_nat n) ltac:(lia) ltac:(lia)); lia).
    assert (Hmid : lo <= (lo + hi) / 2 <= hi).
    { split; [apply Z.div_le_lower_bound | apply Z.div_le_upper_bound]; lia. }
    assert (Hup : 2 * ((lo + hi) / 2) <= lo + hi < 2 * ((lo + hi) / 2) + 2).
    { pose proof (Z.div_mod (lo + hi) 2 ltac:(lia)).
      pose proof (Z.mod_pos_bound (lo + hi) 2 ltac:(lia)). lia. }
    cbn [bisect].
    rewrite (handleMessage_guess user _ now w g number attempts gs Hg Hpay) by lia.
    cbv zeta.
    destruct (Z.eqb_spec ((lo + hi) / 2) number) as [Heq|Hne].
    { simpl. split; [done | lia]. }
    assert (Hn : (1 <= n)%nat).
    { destruct n as [|n']; [|lia]. simpl in Hsize. lia. }
    destruct (Z.leb_spec (7 - (attempts + 1)) 0) as [Hover|Hmore]; [lia|].
    set (g' := setPayload _ g).
    set (w' := setGames _ w).
    assert (Hg' : activeGames w' !! user = Some g') by apply lookup_insert_eq.
    assert (Hpay' : payload g'
                    = GuessP number (attempts + 1) 7 (gs ++ [(lo + hi) / 2])%list)
      by reflexivity.
    destruct (Z.ltb_spec ((lo + hi) / 2) number) as [Hlt|Hge].
    + destruct (IH w' g' number (attempts + 1) _ ((lo + hi) / 2 + 1) hi Hg' Hpay')
        as [Hlast Hlen]; try lia.
      split; [|simpl; lia].
      rewrite last_cons, Hlast. done.
    + destruct (IH w' g' number (attempts + 1) _ lo ((lo + hi) / 2 - 1) Hg' Hpay')
        as [Hlast Hlen]; try lia.
      split; [|simpl; lia].
      rewrite last_cons, Hlast. done.
Qed.

(** X17.  A player who always guesses the middle of the interval the
    hints leave wins the number guessing game: from a fresh session with
    a secret number between 1 and 100, the last reply is the
    congratulation and at most seven guesses are made. *)
Theorem bisecting_player_always_wins
    (user : string) (now : Z) (w : World) (g : GameState) (number : Z)
    (Hlive : activeGames w !! user = Some g)
    (Hfresh : payload g = GuessP number 0 7 [])
    (Hnumber : 1 <= number <= 100) :
  last (bisect 7 user 1 100 now w) = Some GuessCorrect
  /\ (length (bisect 7 user 1 100 now w) <= 7)%nat.
Proof.
  apply (bisect_wins 7 user now w g number 0 [] 1 100 Hlive Hfresh); simpl; lia.
Qed.

Lemma bisecting_player_always_wins_witness :
  let w := play [Handled (GameSelect "7" "guess" 0 (fun _ => 76 # 100))] emptyWorld in
  last (bisect 7 "7" 1 100 5 w) = Some GuessCorrect.
Proof.
  cbv zeta.
  assert (Hlive : activeGames
                    (play [Handled (GameSelect "7" "guess" 0 (fun _ => 76 # 100))]
                       emptyWorld) !! "7"
                  = Some (mkGame (guess, "7", 0) "7" 0 (Some (guess, "7", 0)) None None
                            (GuessP 77 0 7 [])))
    by (vm_compute; reflexivity).
  assert (Hnumber : 1 <= 77 <= 100) by lia.
  exact (proj1 (bisecting_player_always_wins "7" 5 _ _ 77 Hlive eq_refl Hnumber)).
Defined.

(** *** Rock-Paper-Scissors *)

Lemma rps_choice c :
  c ∈ RPS_CHOICES <-> c = "rock" \/ c = "paper" \/ c = "scissors".
Proof.
  unfold RPS_CHOICES. rewrite !elem_of_cons, elem_of_nil. tauto.
Qed.

Lemma winConditions_valid c :
  is_Some (winConditions c) <-> c ∈ RPS_CHOICES.
Proof.
  rewrite rps_choice. unfold winConditions. split.
  - intros Hs.
    destruct (String.eqb_spec c "rock"); [tauto|].
    destruct (String.eqb_spec c "paper"); [tauto|].
    destruct (String.eqb_spec c "scissors"); [tauto|].
    by destruct Hs.
  - intros [-> | [-> | ->] ]; by eexists.
Qed.

(** X18.  The verdict of Rock-Paper-Scissors: a tie exactly when both
    choices are the same text; between two of the three valid choices
    the user wins exactly when the other side would lose, and every
    valid choice beats exactly one valid choice; a choice that is not
    one of the three never wins. *)
Theorem rps_verdict_is_fair :
  (forall a b, getRPSResult a b = RTie <-> a = b)
  /\ (forall a b, a ∈ RPS_CHOICES -> b ∈ RPS_CHOICES ->
        (getRPSResult a b = RWin <-> getRPSResult b a = RLose))
  /\ (forall a, a ∈ RPS_CHOICES ->
        length (filter (fun b => getRPSResult a b = RWin) RPS_CHOICES) = 1%nat)
  /\ (forall a b, a ∉ RPS_CHOICES -> getRPSResult a b <> RWin)
  /\ (forall a b, getRPSResult a b <> RTimeout).
Proof.
  split_conj.
  - intros a b. unfold getRPSResult.
    destruct (String.eqb_spec a b) as [->|Hne]; [done|].
    case_bool_decide; split; try done.
  - intros a b Ha Hb. apply rps_choice in Ha, Hb.
    destruct Ha as [-> | [-> | ->] ], Hb as [-> | [-> | ->] ]; vm_compute; split; done.
  - intros a Ha. apply rps_choice in Ha.
    destruct Ha as [-> | [-> | ->] ]; vm_compute; reflexivity.
  - intros a b Ha. unfold getRPSResult.
    destruct (String.eqb a b); [done|].
    case_bool_decide as Hw; [|done].
    exfalso. apply Ha. apply winConditions_valid. rewrite Hw. by eexists.
  - intros a b. unfold getRPSResult.
    destruct (String.eqb a b); [done|]. by case_bool_decide.
Qed.

(** *** The reply of the Tic-Tac-Toe opponent *)

Lemma getTicTacToeAIMove_defined board cur ai d r1 r2 :
  (length board <= 9)%nat -> cur <> ai -> unitDraw r2 ->
  checkTicTacToeWinner board = NoWinner ->
  exists a, getTicTacToeAIMove board cur ai d r1 r2 = Some a
            /\ board !! a = Some None.
Proof.
  intros Hlen Hdiff Hdraw Hopen.
  assert (Hrandom : exists a,
             availableMoves board
               !! Z.to_nat (randomIndex r2 (Z.of_nat (length (availableMoves board))))
             = Some a /\ board !! a = Some None).
  { pose proof (undecided_has_move board Hopen) as Hne.
    assert (Hpos : 0 < Z.of_nat (length (availableMoves board))).
    { destruct (availableMoves board); [done | simpl; lia]. }
    pose proof (unit_draw_index r2 _ Hdraw Hpos) as Hidx.
    destruct (lookup_lt_is_Some_2 (availableMoves board)
                (Z.to_nat (randomIndex r2 (Z.of_nat (length (availableMoves board))))))
      as [a Ha].
    { unfold randomIndex. lia. }
    exists a. split; [done|]. apply availableMoves_spec.
    by apply (list_elem_of_lookup_2 _ _ _ Ha). }
  assert (Hbest : exists a,
             match minimax 10 board ai cur ai with
             | Some m => index m
             | None => None
             end = Some a /\ board !! a = Some None).
  { destruct (minimax_defined 10 board ai cur ai) as (m & -> & _ & Hidx).
    - congruence.
    - pose proof (emptyCount_le_length board). lia.
    - destruct (Hidx Hopen) as (a & Ha & Hfree). by exists a. }
  unfold getTicTacToeAIMove. cbv zeta.
  destruct d; [done| |done].
  by destruct (Qlt_le_dec r1 (3 # 10)).
Qed.

(** X19.  A move on an empty cell of the nine-cell board puts the
    player's mark there and nowhere else.  If that leaves the game
    undecided the opponent answers with exactly one mark on a cell that
    was empty, at every difficulty; if it decides the game the opponent
    does not move.  No mark is ever overwritten, and the reported
    outcome is the outcome of the board that is shown. *)
Theorem tictactoe_round_marks_empty_cells
    (board : Board) (cur ai : Sym) (d : Difficulty) (i : nat) (r1 r2 : Q)
    (Hlen : length board = 9%nat) (Hdiff : cur <> ai)
    (Hfree : board !! i = Some None) (Hdraw : unitDraw r2) :
  let board1 := <[i := Some cur]> board in
  let board' := fst (playTicTacToe board cur ai d i r1 r2) in
  snd (playTicTacToe board cur ai d i r1 r2) = checkTicTacToeWinner board'
  /\ length board' = 9%nat
  /\ board' !! i = Some (Some cur)
  /\ (forall j s, board !! j = Some (Some s) -> board' !! j = Some (Some s))
  /\ match checkTicTacToeWinner board1 with
     | NoWinner =>
         exists a, a <> i /\ board !! a = Some None
                   /\ board' = <[a := Some ai]> board1
     | _ => board' = board1
     end.
Proof.
  cbv zeta.
  assert (Hi : (i < length board)%nat) by (apply lookup_lt_is_Some; by eexists).
  destruct (playTicTacToe_cases board cur ai d i r1 r2)
    as [[Hdec ->] | [(Hopen & Hnone & _) | (a & Hopen & Ha & ->)]]; simpl.
  - split_conj.
    + done.
    + by rewrite length_insert.
    + by apply list_lookup_insert_eq.
    + intros j s Hj. rewrite list_lookup_insert_ne; [done|]. congruence.
    + by destruct (checkTicTacToeWinner (<[i := Some cur]> board)).
  - exfalso.
    destruct (getTicTacToeAIMove_defined (<[i := Some cur]> board) cur ai d r1 r2)
      as (a & Ha & _); try done; [|congruence].
    rewrite length_insert. lia.
  - destruct (getTicTacToeAIMove_defined (<[i := Some cur]> board) cur ai d r1 r2)
      as (a' & Ha' & Hfree'); try done.
    { rewrite length_insert. lia. }
    assert (a' = a) by congruence. subst a'.
    assert (Hai : a <> i).
    { intros ->. rewrite list_lookup_insert_eq in Hfree' by done. discriminate. }
    rewrite list_lookup_insert_ne in Hfree' by done.
    split_conj.
    + done.
    + by rewrite !length_insert.
    + rewrite list_lookup_insert_ne by done. by apply list_lookup_insert_eq.
    + intros j s Hj. rewrite !list_lookup_insert_ne; [done| |]; congruence.
    + rewrite Hopen. by exists a.
Qed.

Lemma tictactoe_round_marks_empty_cells_witness :
  fst (playTicTacToe emptyBoard X O hard 4 (1 # 2) (1 # 2)) !! 4%nat = Some (Some X).
Proof.
  assert (Hlen : length emptyBoard = 9%nat) by reflexivity.
  assert (Hdiff : X <> O) by discriminate.
  assert (Hfree : emptyBoard !! 4%nat = Some None) by reflexivity.
  assert (Hdraw : unitDraw (1 # 2)) by (split; [discriminate | reflexivity]).
  pose proof (tictactoe_round_marks_empty_cells emptyBoard X O hard 4 (1 # 2) (1 # 2)
                Hlen Hdiff Hfree Hdraw) as H.
  cbv zeta in H. exact (proj1 (proj2 (proj2 H))).
Defined.

End Playing.

(** ** What the search can score *)

Section SearchScores.

Import Utils Models TicTacToe GameHandler Play.

Lemma cell_insert (board : Board) (i j : nat) (v : Cell) :
  (i < length board)%nat ->
  cell (<[i := v]> board) j = if decide (j = i) then v else cell board j.
Proof.
  intros Hi. unfold cell. case_decide as Hj.
  - subst j. by rewrite list_lookup_insert_eq.
  - by rewrite list_lookup_insert_ne.
Qed.

(** On a board without a complete line, a line that a new mark completes
    carries that mark. *)
Lemma firstLine_after_move (board : Board) ps (i : nat) (p s : Sym) :
  firstLine board ps = None -> board !! i = Some None ->
  firstLine (<[i := Some p]> board) ps = Some s -> s = p.
Proof.
  intros Hnone Hfree.
  assert (Hi : (i < length board)%nat) by (apply lookup_lt_is_Some; by eexists).
  assert (Hci : cell board i = None) by (unfold cell; by rewrite Hfree).
  induction ps as [|[[a b] c] ps IH]; [done|].
  cbn [firstLine] in Hnone |- *.
  rewrite !cell_insert by done.
  destruct (cell board a) as [sa|] eqn:Ha.
  - destruct (decide (a = i)) as [->|Hai]; [congruence|].
    destruct (bool_decide (Some sa = cell board b)
              && bool_decide (Some sa = cell board c)) eqn:Hold; [discriminate|].
    destruct (bool_decide (Some sa = if decide (b = i) then Some p else cell board b)
              && bool_decide (Some sa = if decide (c = i) then Some p else cell board c))
      eqn:Hnew; [|by apply IH].
    intros Hs. inversion Hs; subst sa.
    apply andb_true_iff in Hnew. destruct Hnew as [Hb Hc].
    apply bool_decide_eq_true in Hb, Hc.
    destruct (decide (b = i)); [congruence|].
    destruct (decide (c = i)); [congruence|].
    rewrite (bool_decide_eq_true_2 _ Hb), (bool_decide_eq_true_2 _ Hc) in Hold.
    discriminate.
  - destruct (decide (a = i)) as [->|Hai]; [|by apply IH].
    destruct (_ && _); [|by apply IH].
    intros Hs. by inversion Hs.
Qed.

Lemma winner_after_move (board : Board) (i : nat) (p q : Sym) :
  checkTicTacToeWinner board = NoWinner -> board !! i = Some None -> q <> p ->
  checkTicTacToeWinner (<[i := Some p]> board) <> Won q.
Proof.
  intros Hopen Hfree Hqp Hwon.
  assert (Hnone : firstLine board winPatterns = None).
  { unfold checkTicTacToeWinner in Hopen.
    destruct (firstLine board winPatterns); [discriminate | done]. }
  unfold checkTicTacToeWinner in Hwon.
  destruct (firstLine (<[i := Some p]> board) winPatterns) as [s|] eqn:Hs.
  - inversion Hwon; subst s.
    apply Hqp. by apply (firstLine_after_move board winPatterns i p q).
  - by destruct (boardFull _).
Qed.

Lemma collect_members (f : nat -> option Move) (cells : list nat) (ms : list Move) :
  collect (map (fun i => (i, f i)) cells) = Some ms ->
  forall m, m ∈ ms ->
    exists i r, i ∈ cells /\ f i = Some r /\ m = mkMove (Some i) (score r).
Proof.
  revert ms. induction cells as [|c cells IH]; intros ms Hc m Hm.
  - simpl in Hc. inversion Hc; subst. inversion Hm.
  - simpl in Hc. destruct (f c) as [r|] eqn:Hr; [|discriminate].
    destruct (collect _) as [ms'|] eqn:Hms; [|discriminate].
    inversion Hc; subst ms. apply elem_of_cons in Hm. destruct Hm as [->|Hm].
    + exists c, r. split_conj; [apply elem_of_cons; by left | done | done].
    + destruct (IH ms' eq_refl m Hm) as (i & r' & Hi & Hfi & ->).
      exists i, r'. split_conj; [apply elem_of_cons; by right | done | done].
Qed.

Lemma minimax_scores (fuel : nat) :
  forall (board : Board) (player opponent aiPlayer : Sym) (m : Move),
    player <> opponent ->
    checkTicTacToeWinner board <> Won player ->
    minimax fuel board player opponent aiPlayer = Some m ->
    score m = -10 \/ score m = 0.
Proof.
  induction fuel as [|fuel IH];
    intros board player opponent aiPlayer m Hsides Hnot Hm; [discriminate|].
  cbn [minimax] in Hm. cbv zeta in Hm.
  rewrite (bool_decide_eq_false_2 _ Hnot) in Hm.
  case_bool_decide as Hopp; [inversion Hm; by left|].
  case_bool_decide as Htie; [inversion Hm; by right|].
  assert (Hopen : checkTicTacToeWinner board = NoWinner).
  { destruct (checkTicTacToeWinner board) as [s| |]; try done.
    destruct s, player, opponent; congruence. }
  destruct (collect _) as [ms|] eqn:Hms; [|discriminate].
  assert (Hin : m ∈ ms).
  { destruct (bool_decide (player = aiPlayer)).
    - destruct (pickMax_cases ms (-10000) None) as [Hb|(m' & Hb & Hm')];
        rewrite Hb in Hm; [discriminate | by inversion Hm; subst].
    - destruct (pickMin_cases ms 10000 None) as [Hb|(m' & Hb & Hm')];
        rewrite Hb in Hm; [discriminate | by inversion Hm; subst]. }
  destruct (collect_members _ _ _ Hms m Hin) as (i & r & Hi & Hr & ->).
  simpl. apply availableMoves_spec in Hi.
  cbv beta in Hr.
  apply (IH (<[i := Some player]> board) opponent player aiPlayer r).
  - congruence.
  - apply winner_after_move; [done | done | congruence].
  - exact Hr.
Qed.

(** X20.  From a board that the side to move has not already won, the
    search returns a move object whose score is -10 or 0, never +10:
    below the root every decided board is scored against the side that
    is to move there, which is never the side that completed the
    line. *)
Theorem search_never_scores_a_win
    (fuel : nat) (board : Board) (player opponent aiPlayer : Sym)
    (Hsides : player <> opponent)
    (Hfuel : (emptyCount board < fuel)%nat)
    (Hnot : checkTicTacToeWinner board <> Won player) :
  exists m, minimax fuel board player opponent aiPlayer = Some m
            /\ (score m = -10 \/ score m = 0).
Proof.
  destruct (minimax_defined fuel board player opponent aiPlayer Hsides Hfuel)
    as (m & Hm & _).
  exists m. split; [exact Hm|].
  by apply (minimax_scores fuel board player opponent aiPlayer).
Qed.

Lemma search_never_scores_a_win_witness :
  let board : Board :=
    [Some O; Some O; None; Some X; Some X; None; None; None; None] in
  exists m, minimax 10 board O X O = Some m /\ (score m = -10 \/ score m = 0).
Proof.
  cbv zeta.
  assert (Hsides : O <> X) by discriminate.
  assert (Hfuel : (emptyCount [Some O; Some O; None; Some X; Some X; None;
                               None; None; None] < 10)%nat)
    by (vm_compute; lia).
  assert (Hnot : checkTicTacToeWinner [Some O; Some O; None; Some X; Some X; None;
                                       None; None; None] <> Won O)
    by (vm_compute; discriminate).
  exact (search_never_scores_a_win 10 _ O X O Hsides Hfuel Hnot).
Defined.

End SearchScores.
